(** * AIGrabber: manifest parsers, download scheduler and native-messaging host

    A shallow embedding of the core of the repository:

    - [packages/shared/src/parsers/hls.ts] and the DASH parser that follows it
      (HLS and DASH manifest parsing, protection detection, segment URLs),
    - the [Downloader] class (job table, queue, abort controllers, the
      asynchronous download tasks),
    - [packages/app/src/main/native-host.ts] (length-prefixed JSON frames).

    Conventions of the embedding.

    - A JavaScript string is the list of its UTF-16 code units ([list N]).
    - A JavaScript number is modelled by [jsnum]: [NaN] or an integer.  The
      model is exact on the safe-integer range; fractional values (frame
      rates, durations, speeds) are kept as the text the code parses them
      from, or left out where they are only reported.
    - Built-ins of the platform that are not code of the repository (the
      WHATWG [URL] parser, [DOMParser], [path.join]) are the fields of the
      class [Host].
    - An [async] function is a task: it runs synchronously up to its next
      [await], where it is suspended in a [Task] continuation; the
      environment resumes it with the result of the awaited operation. *)

From Stdlib Require Import ZArith NArith List String Ascii Lia Bool.
From Stdlib.Strings Require Import Byte.
From Stdlib Require Import Sorted Permutation.
From stdpp Require Import base option list gmap relations.

Set Warnings "-register-all".

Local Open Scope N_scope.

(** ** JavaScript strings *)

Abbreviation jsstring := (list N).

Fixpoint js (s : string) : jsstring :=
  match s with
  | EmptyString => []
  | String a s' => N_of_ascii a :: js s'
  end.
Arguments js _%_string.

(** [WhiteSpace] and [LineTerminator] code units, as used by
    [String.prototype.trim], the regular expression class [\s] and
    [parseInt]. *)
Definition isWhiteSpace (c : N) : bool :=
  ((9 <=? c) && (c <=? 13)) || (c =? 32) || (c =? 160) || (c =? 5760)
  || ((8192 <=? c) && (c <=? 8202)) || (c =? 8232) || (c =? 8233)
  || (c =? 8239) || (c =? 8287) || (c =? 12288) || (c =? 65279).

Fixpoint trimStart (s : jsstring) : jsstring :=
  match s with
  | [] => []
  | c :: s' => if isWhiteSpace c then trimStart s' else s
  end.
Definition trimEnd (s : jsstring) : jsstring := reverse (trimStart (reverse s)).
Definition trim (s : jsstring) : jsstring := trimEnd (trimStart s).

(** [s.split(c)] for a one-unit separator: never the empty list. *)
Fixpoint split_on (c : N) (s : jsstring) : list jsstring :=
  match s with
  | [] => [[]]
  | x :: s' =>
      if x =? c then [] :: split_on c s'
      else match split_on c s' with
           | [] => [[x]]
           | w :: ws => (x :: w) :: ws
           end
  end.

Fixpoint startsWith (s p : jsstring) : bool :=
  match p, s with
  | [], _ => true
  | _ :: _, [] => false
  | a :: p', b :: s' => (a =? b) && startsWith s' p'
  end.

Fixpoint includes (s p : jsstring) : bool :=
  startsWith s p ||
  match s with
  | [] => false
  | _ :: s' => includes s' p
  end.

Definition jsstring_eqb (a b : jsstring) : bool := bool_decide (a = b).

(** [s.slice(n)] for [0 <= n]. *)
Definition slice_from (n : nat) (s : jsstring) : jsstring := drop n s.

(** The longest prefix whose units satisfy [p], and the rest. *)
Fixpoint span (p : N -> bool) (s : jsstring) : jsstring * jsstring :=
  match s with
  | [] => ([], [])
  | c :: s' => if p c then let '(a, b) := span p s' in (c :: a, b) else ([], s)
  end.

(** ** JavaScript numbers (integers and NaN) *)

Inductive jsnum : Type :=
  | NaN
  | Num (z : Z).

Global Instance jsnum_eq_dec : EqDecision jsnum.
Proof. solve_decision. Defined.

Definition isDigit (c : N) : bool := (48 <=? c) && (c <=? 57).

Definition digitsValue (ds : jsstring) : Z :=
  fold_left (fun acc c => (acc * 10 + (Z.of_N c - 48))%Z) ds 0%Z.

(** The double that is nearest to an integer, the even one of two that are
    equally near: up to 2^53 every integer is a double, above it only the
    multiples of a power of two are.  (No integer is rounded to [Infinity]
    here; a double is below 2^1024.) *)
Definition roundDouble (z : Z) : Z :=
  let a := Z.abs z in
  if (a <? 2 ^ 53)%Z then z
  else
    let q := (2 ^ (Z.log2 a - 52))%Z in
    let m := (a / q)%Z in
    let r := (a mod q)%Z in
    let m' := if (2 * r <? q)%Z then m
              else if (q <? 2 * r)%Z then (m + 1)%Z
              else if Z.even m then m else (m + 1)%Z in
    (Z.sgn z * (m' * q))%Z.

(** [parseInt(s, 10)]: leading white space is skipped, one sign is read, then
    the longest run of decimal digits; [NaN] when that run is empty.  The
    value is the double nearest to the integer the digits denote.  (For a
    run of more than twenty digits the standard lets an engine read the
    digits after the twentieth as zeros, and from 2^1024 on the result is
    [Infinity]; neither is followed here.) *)
Definition parseInt10 (s : jsstring) : jsnum :=
  let s1 := trimStart s in
  let '(neg, s2) :=
    match s1 with
    | 45 :: r => (true, r)
    | 43 :: r => (false, r)
    | _ => (false, s1)
    end in
  let '(ds, _) := span isDigit s2 in
  match ds with
  | [] => NaN
  | _ => Num (roundDouble (if neg then - digitsValue ds else digitsValue ds))%Z
  end.

Definition digitChar (d : Z) : N := Z.to_N (48 + d).

Fixpoint decimal_go (fuel : nat) (n : Z) (acc : jsstring) : jsstring :=
  match fuel with
  | O => acc
  | S f =>
      let acc' := digitChar (n mod 10) :: acc in
      if (n <? 10)%Z then acc' else decimal_go f (n / 10)%Z acc'
  end.

(** Decimal digits of a natural number ([0 <= n]). *)
Definition decimal (n : Z) : jsstring := decimal_go (S (Z.to_nat (Z.log2 n))) n [].

(** [String(v)] for a number.  Every digit is printed, which is what
    JavaScript does for an integer up to 2^53; above it JavaScript prints the
    shortest digits that identify the double, and an exponent from 10^21
    on. *)
Definition numToString (v : jsnum) : jsstring :=
  match v with
  | NaN => js "NaN"
  | Num z => if (z <? 0)%Z then 45 :: decimal (- z) else decimal z
  end.

(** [a + b] on numbers that are integers: the sum is rounded to a double, so
    from 2^53 on adding a small number may change nothing. *)
Definition jsadd (a b : jsnum) : jsnum :=
  match a, b with
  | Num x, Num y => Num (roundDouble (x + y))
  | _, _ => NaN
  end.

(** [a - b].  The code uses a difference as the result of a comparator
    only, of which the sign alone matters; rounding to a double keeps the
    sign, and the difference is left exact here. *)
Definition jssub (a b : jsnum) : jsnum :=
  match a, b with
  | Num x, Num y => Num (x - y)
  | _, _ => NaN
  end.

(** Truthiness of a number: [0] and [NaN] are falsy. *)
Definition truthy (a : jsnum) : bool :=
  match a with
  | NaN => false
  | Num z => negb (z =? 0)%Z
  end.

(** [Number(s)] on the integer literals: surrounding white space is dropped,
    the empty string is [0], an optionally signed run of decimal digits is its
    value.  JavaScript also reads literals with a fraction, an exponent or a
    radix prefix, and [Infinity]; their values need not be integers, and they
    are [NaN] here: what is said of a number read by [toNumber] (the width
    and the height of a RESOLUTION) is said for decimal integers. *)
Definition toNumber (s : jsstring) : jsnum :=
  let t := trim s in
  match t with
  | [] => Num 0
  | _ =>
      let '(neg, body) :=
        match t with
        | 45 :: r => (true, r)
        | 43 :: r => (false, r)
        | _ => (false, t)
        end in
      match span isDigit body with
      | ((_ :: _) as ds, []) => Num (if neg then - digitsValue ds else digitsValue ds)%Z
      | _ => NaN
      end
  end.

(** The completion of a computation that may throw: [Throw name message]
    stands for an exception object with these two properties. *)
Inductive result (A : Type) : Type :=
  | Ok (a : A)
  | Throw (name message : jsstring).
Arguments Ok {A} a.
Arguments Throw {A} name message.

(** [Array.prototype.sort(cmp)].  ECMAScript fixes the result for a
    consistent comparator (the stable sorted permutation) and leaves the
    order implementation-defined otherwise; the model is the stable insertion
    sort.  A comparator result of [NaN] counts as [0]; it makes the comparator
    inconsistent, and an engine may then order four or more elements in
    another way than this definition does (on up to three elements a binary
    insertion gives the same list). *)
Definition cmpValue (v : jsnum) : Z :=
  match v with
  | NaN => 0
  | Num z => z
  end.

Fixpoint sort_insert {A : Type} (cmp : A -> A -> jsnum) (x : A) (l : list A) : list A :=
  match l with
  | [] => [x]
  | y :: l' => if (0 <? cmpValue (cmp x y))%Z then y :: sort_insert cmp x l' else x :: l
  end.

Definition js_sort {A : Type} (cmp : A -> A -> jsnum) (l : list A) : list A :=
  foldr (sort_insert cmp) [] l.

(** [o || d] for an optional string: [undefined] and the empty string are
    falsy. *)
Definition strOr (o : option jsstring) (d : jsstring) : jsstring :=
  match o with
  | Some ((_ :: _) as v) => v
  | _ => d
  end.

(** [o || undefined]. *)
Definition nonEmpty (o : option jsstring) : option jsstring :=
  match o with
  | Some ((_ :: _) as v) => Some v
  | _ => None
  end.

(** ** The document tree handed over by [DOMParser] *)

Inductive Node : Type :=
  | Elem (tag : jsstring) (attrs : list (jsstring * jsstring)) (children : list Node)
  | Text (content : jsstring).

Definition tagOf (n : Node) : option jsstring :=
  match n with
  | Elem t _ _ => Some t
  | Text _ => None
  end.

Definition hasTag (tag : jsstring) (n : Node) : bool :=
  bool_decide (tagOf n = Some tag).

(** The element descendants of a node, in document order. *)
Fixpoint descendants (n : Node) : list Node :=
  match n with
  | Elem _ _ cs =>
      flat_map (fun c => match c with
                         | Elem _ _ _ => c :: descendants c
                         | Text _ => []
                         end) cs
  | Text _ => []
  end.

Definition childElements (n : Node) : list Node :=
  match n with
  | Elem _ _ cs => List.filter (fun c => bool_decide (is_Some (tagOf c))) cs
  | Text _ => []
  end.

Fixpoint textContent (n : Node) : jsstring :=
  match n with
  | Elem _ _ cs => flat_map textContent cs
  | Text t => t
  end.

(** [el.getAttribute(name)]; [None] is [null]. *)
Definition getAttribute (n : Node) (name : jsstring) : option jsstring :=
  match n with
  | Elem _ attrs _ => snd <$> List.find (fun kv => jsstring_eqb (fst kv) name) attrs
  | Text _ => None
  end.

(** [el.querySelectorAll(tag)] and [el.querySelector(tag)] for a type
    selector. *)
Definition querySelectorAll (n : Node) (tag : string) : list Node :=
  List.filter (hasTag (js tag)) (descendants n).
Arguments querySelectorAll n tag%_string.

Definition querySelector (n : Node) (tag : string) : option Node :=
  head (querySelectorAll n tag).
Arguments querySelector n tag%_string.

(** [el.querySelector(':scope > tag')]. *)
Definition querySelectorChild (n : Node) (tag : string) : option Node :=
  head (List.filter (hasTag (js tag)) (childElements n)).
Arguments querySelectorChild n tag%_string.

(** The same two queries on the document. *)
Definition docElements (doc : list Node) : list Node :=
  flat_map (fun c => match c with
                     | Elem _ _ _ => c :: descendants c
                     | Text _ => []
                     end) doc.

Definition docQuerySelectorAll (doc : list Node) (tag : string) : list Node :=
  List.filter (hasTag (js tag)) (docElements doc).
Arguments docQuerySelectorAll doc tag%_string.

Definition docQuerySelector (doc : list Node) (tag : string) : option Node :=
  head (docQuerySelectorAll doc tag).
Arguments docQuerySelector doc tag%_string.

(** ** Platform built-ins *)

Class Host : Type := {
  (** [new URL(url, base).href]; [None] when the constructor throws. *)
  URL_href : jsstring -> jsstring -> option jsstring;
  (** [new DOMParser().parseFromString(content, 'application/xml')]: the
      list of top-level nodes of the document.  [None] where the global
      [DOMParser] is not defined: it is an interface of browsers, which Node,
      where the [Downloader] runs, does not have. *)
  DOMParser_parse : option (jsstring -> list Node);
  (** [path.join(dir, name)]. *)
  path_join : jsstring -> jsstring -> jsstring;
}.

(** ** HLS manifests (hls.ts) *)

Record HLSVariant : Type := {
  v_url : jsstring;
  v_bandwidth : jsnum;
  (** [{ width, height }]; [height] is [undefined] when RESOLUTION has no [x]. *)
  v_resolution : option (jsnum * option jsnum);
  v_codecs : option jsstring;
  (** The text given to [parseFloat]. *)
  v_frameRate : option jsstring;
  v_audio : option jsstring;
}.

Record HLSAudioGroup : Type := {
  g_groupId : jsstring;
  g_name : jsstring;
  g_language : jsstring;
  g_uri : option jsstring;
  g_default : bool;
  g_autoSelect : bool;
}.

Record HLSKey : Type := {
  k_method : jsstring;
  k_uri : option jsstring;
  k_iv : option jsstring;
  k_keyFormat : option jsstring;
}.

Record HLSMediaSegment : Type := {
  s_uri : jsstring;
  (** The text whose [parseFloat] is the duration in seconds. *)
  s_duration : jsstring;
  s_key : option HLSKey;
}.

Record HLSMasterPlaylist : Type := {
  variants : list HLSVariant;
  (** A [Map], in insertion order. *)
  audioGroups : list (jsstring * list HLSAudioGroup);
  master_isDRM : bool;
}.

(** [totalDuration], a floating-point sum that nothing else reads, is left
    out. *)
Record HLSMediaPlaylist : Type := {
  targetDuration : jsnum;
  segments : list HLSMediaSegment;
  media_isDRM : bool;
  encryption : option HLSKey;
}.

Inductive HLSPlaylist : Type :=
  | Master (p : HLSMasterPlaylist)
  | Media (p : HLSMediaPlaylist).


Inductive StreamProtection : Type := ProtNone | ProtDrm | ProtUnknown.

Global Instance StreamProtection_eq_dec : EqDecision StreamProtection.
Proof. solve_decision. Defined.

Definition isAttrKeyChar (c : N) : bool := ((65 <=? c) && (c <=? 90)) || (c =? 45).

(** One match of the attribute pattern at the head of [s]: a run of [A-Z-],
    an equals sign, then either a quoted run of non-quote units or a run of
    non-comma units.  The result is the key, [match[2] || match[3]], and
    what follows the match.  Every quantifier is followed by a unit outside
    its class (or by nothing), so the greedy run is the only candidate. *)
Definition matchAttribute (s : jsstring) : option (jsstring * jsstring * jsstring) :=
  match span isAttrKeyChar s with
  | ((_ :: _) as k, 61 :: r2) =>
      let bare :=
        match span (fun c => negb (c =? 44)) r2 with
        | ((_ :: _) as v, r3) => Some (k, v, r3)
        | _ => None
        end in
      match r2 with
      | 34 :: r3 =>
          match span (fun c => negb (c =? 34)) r3 with
          | ((_ :: _) as v, 34 :: r5) => Some (k, v, r5)
          | _ => bare
          end
      | _ => bare
      end
  | _ => None
  end.

(** The [regex.exec] loop of [parseAttributes]: the next match is searched
    from where the last one ended. *)
Fixpoint parseAttributes_go (fuel : nat) (s : jsstring)
    (attrs : gmap jsstring jsstring) : gmap jsstring jsstring :=
  match fuel with
  | O => attrs
  | S f =>
      match s with
      | [] => attrs
      | _ :: s' =>
          match matchAttribute s with
          | Some (k, v, rest) => parseAttributes_go f rest (<[k:=v]> attrs)
          | None => parseAttributes_go f s' attrs
          end
      end
  end.

Definition parseAttributes (str : jsstring) : gmap jsstring jsstring :=
  parseAttributes_go (length str) str ∅.

(** [attrs.KEY || fallback]: a matched value is never empty. *)
Definition attrOr (attrs : gmap jsstring jsstring) (key : string) (fallback : jsstring) : jsstring :=
  default fallback (attrs !! js key).
Arguments attrOr attrs key%_string fallback.

Definition attrIs (attrs : gmap jsstring jsstring) (key : string) (v : jsstring) : bool :=
  bool_decide (attrs !! js key = Some v).
Arguments attrIs attrs key%_string v.

(** [audioGroups.get(groupId).push(group)], creating the entry first. *)
Fixpoint groups_push (groups : list (jsstring * list HLSAudioGroup)) (id : jsstring)
    (g : HLSAudioGroup) : list (jsstring * list HLSAudioGroup) :=
  match groups with
  | [] => [(id, [g])]
  | (k, gs) :: rest =>
      if jsstring_eqb k id then (k, gs ++ [g]) :: rest
      else (k, gs) :: groups_push rest id g
  end.

Section Parsers.
Context {host : Host}.

Definition resolveUrl (url baseUrl : jsstring) : jsstring :=
  if startsWith url (js "http://") || startsWith url (js "https://") then url
  else default url (URL_href url baseUrl).

Definition parseResolution (r : jsstring) : jsnum * option jsnum :=
  match split_on 120 r with
  | [] => (NaN, None)
  | w :: rest => (toNumber w, toNumber <$> head rest)
  end.

Definition masterLine_media (baseUrl line : jsstring) (m : HLSMasterPlaylist) : HLSMasterPlaylist :=
  if startsWith line (js "#EXT-X-MEDIA:") then
    let attrs := parseAttributes (slice_from 13 line) in
    if attrIs attrs "TYPE" (js "AUDIO") then
      let groupId := attrOr attrs "GROUP-ID" (js "default") in
      let group := {|
        g_groupId := groupId;
        g_name := attrOr attrs "NAME" (js "Audio");
        g_language := attrOr attrs "LANGUAGE" (js "und");
        g_uri := (fun u => resolveUrl u baseUrl) <$> attrs !! js "URI";
        g_default := attrIs attrs "DEFAULT" (js "YES");
        g_autoSelect := attrIs attrs "AUTOSELECT" (js "YES");
      |} in
      {| variants := variants m;
         audioGroups := groups_push (audioGroups m) groupId group;
         master_isDRM := master_isDRM m |}
    else m
  else m.

(** The variant pushed for a [#EXT-X-STREAM-INF:] line, when the next line
    exists and is not a comment. *)
Definition masterLine_variant (baseUrl line : jsstring) (next : option jsstring)
    : option HLSVariant :=
  if startsWith line (js "#EXT-X-STREAM-INF:") then
    let attrs := parseAttributes (slice_from 18 line) in
    match next with
    | Some nextLine =>
        if negb (startsWith nextLine (js "#")) then
          Some {|
            v_url := resolveUrl nextLine baseUrl;
            v_bandwidth := parseInt10 (attrOr attrs "BANDWIDTH" (js "0"));
            v_resolution := parseResolution <$> attrs !! js "RESOLUTION";
            v_codecs := attrs !! js "CODECS";
            v_frameRate := attrs !! js "FRAME-RATE";
            v_audio := attrs !! js "AUDIO";
          |}
        else None
    | None => None
    end
  else None.

Definition masterLine_drm (line : jsstring) : bool :=
  (includes line (js "EXT-X-KEY") && includes line (js "METHOD=SAMPLE-AES"))
  || (includes line (js "com.widevine") || includes line (js "com.apple.fps")).

(** The [for] loop of [parseMasterPlaylist]; [skip] is the [i++] that steps
    over the URL line of a variant. *)
Fixpoint masterLoop (baseUrl : jsstring) (lines : list jsstring) (skip : bool)
    (m : HLSMasterPlaylist) : HLSMasterPlaylist :=
  match lines with
  | [] => m
  | line :: rest =>
      if skip then masterLoop baseUrl rest false m
      else
        let m1 := masterLine_media baseUrl line m in
        let pushed := masterLine_variant baseUrl line (head rest) in
        let m2 := {| variants := variants m1 ++ option_list pushed;
                     audioGroups := audioGroups m1;
                     master_isDRM := master_isDRM m1 || masterLine_drm line |} in
        masterLoop baseUrl rest (bool_decide (is_Some pushed)) m2
  end.

Definition parseMasterPlaylist (lines : list jsstring) (baseUrl : jsstring) : HLSMasterPlaylist :=
  let m := masterLoop baseUrl lines false
             {| variants := []; audioGroups := []; master_isDRM := false |} in
  {| variants := js_sort (fun a b => jssub (v_bandwidth b) (v_bandwidth a)) (variants m);
     audioGroups := audioGroups m;
     master_isDRM := master_isDRM m |}.

(** The local variables of [parseMediaPlaylist]. *)
Record MediaState : Type := {
  ms_segments : list HLSMediaSegment;
  ms_targetDuration : jsnum;
  ms_isDRM : bool;
  ms_currentKey : option HLSKey;
  ms_segmentDuration : jsstring;
}.

Definition keyOfLine (baseUrl line : jsstring) : HLSKey :=
  let attrs := parseAttributes (slice_from 11 line) in
  {| k_method := attrOr attrs "METHOD" (js "NONE");
     k_uri := (fun u => resolveUrl u baseUrl) <$> attrs !! js "URI";
     k_iv := attrs !! js "IV";
     k_keyFormat := attrs !! js "KEYFORMAT" |}.

Definition keyIsDRM (k : HLSKey) : bool :=
  (negb (jsstring_eqb (k_method k) (js "NONE")) && negb (jsstring_eqb (k_method k) (js "AES-128")))
  || match k_keyFormat k with
     | Some f => includes f (js "widevine") || includes f (js "fairplay")
     | None => false
     end.

Definition isDurationChar (c : N) : bool := isDigit c || (c =? 46).

(** The capture of the first match of [/#EXTINF:([0-9.]+)/] in [s]. *)
Fixpoint extinfMatch (s : jsstring) : option jsstring :=
  match s with
  | [] => None
  | _ :: s' =>
      if startsWith s (js "#EXTINF:") then
        match span isDurationChar (drop 8 s) with
        | ((_ :: _) as d, _) => Some d
        | _ => extinfMatch s'
        end
      else extinfMatch s'
  end.

Definition mediaLine (baseUrl line : jsstring) (st : MediaState) : MediaState :=
  let st1 :=
    if startsWith line (js "#EXT-X-TARGETDURATION:") then
      {| ms_segments := ms_segments st;
         ms_targetDuration := parseInt10 (slice_from 22 line);
         ms_isDRM := ms_isDRM st;
         ms_currentKey := ms_currentKey st;
         ms_segmentDuration := ms_segmentDuration st |}
    else st in
  let st2 :=
    if startsWith line (js "#EXT-X-KEY:") then
      let k := keyOfLine baseUrl line in
      {| ms_segments := ms_segments st1;
         ms_targetDuration := ms_targetDuration st1;
         ms_isDRM := ms_isDRM st1 || keyIsDRM k;
         ms_currentKey := Some k;
         ms_segmentDuration := ms_segmentDuration st1 |}
    else st1 in
  let st3 :=
    if startsWith line (js "#EXTINF:") then
      match extinfMatch line with
      | Some d =>
          {| ms_segments := ms_segments st2;
             ms_targetDuration := ms_targetDuration st2;
             ms_isDRM := ms_isDRM st2;
             ms_currentKey := ms_currentKey st2;
             ms_segmentDuration := d |}
      | None => st2
      end
    else st2 in
  if negb (startsWith line (js "#")) && negb (jsstring_eqb line []) then
    {| ms_segments := ms_segments st3 ++
         [{| s_uri := resolveUrl line baseUrl;
             s_duration := ms_segmentDuration st3;
             s_key := ms_currentKey st3 |}];
       ms_targetDuration := ms_targetDuration st3;
       ms_isDRM := ms_isDRM st3;
       ms_currentKey := ms_currentKey st3;
       ms_segmentDuration := js "0" |}
  else st3.

Definition parseMediaPlaylist (lines : list jsstring) (baseUrl : jsstring) : HLSMediaPlaylist :=
  let st := fold_left (fun st line => mediaLine baseUrl line st) lines
              {| ms_segments := []; ms_targetDuration := Num 0; ms_isDRM := false;
                 ms_currentKey := None; ms_segmentDuration := js "0" |} in
  {| targetDuration := ms_targetDuration st;
     segments := ms_segments st;
     media_isDRM := ms_isDRM st;
     encryption := ms_currentKey st |}.

(** [content.split('\n').map(line => line.trim()).filter(Boolean)]. *)
Definition manifestLines (content : jsstring) : list jsstring :=
  List.filter (fun l => negb (jsstring_eqb l [])) (map trim (split_on 10 content)).

Definition isMasterManifest (lines : list jsstring) : bool :=
  existsb (fun line => startsWith line (js "#EXT-X-STREAM-INF")) lines.

Definition parseHLSManifest (content baseUrl : jsstring) : result HLSPlaylist :=
  let lines := manifestLines content in
  match head lines with
  | Some l0 =>
      if startsWith l0 (js "#EXTM3U") then
        if isMasterManifest lines then Ok (Master (parseMasterPlaylist lines baseUrl))
        else Ok (Media (parseMediaPlaylist lines baseUrl))
      else Throw (js "Error") (js "Invalid HLS manifest: missing #EXTM3U header")
  | None => Throw (js "Error") (js "Invalid HLS manifest: missing #EXTM3U header")
  end.

End Parsers.

(** ** DASH manifests *)

Record DASHSegmentTimeline : Type := {
  tl_start : option jsnum;
  tl_duration : jsnum;
  tl_repeat : option jsnum;
}.

Record DASHSegmentTemplate : Type := {
  t_media : jsstring;
  t_initialization : option jsstring;
  t_startNumber : jsnum;
  t_timescale : jsnum;
  t_duration : option jsnum;
  t_timeline : option (list DASHSegmentTimeline);
}.

Record DASHSegmentList : Type := {
  sl_initialization : option jsstring;
  sl_segments : list jsstring;
}.

Record DASHRepresentation : Type := {
  r_id : jsstring;
  r_bandwidth : jsnum;
  r_width : option jsnum;
  r_height : option jsnum;
  r_frameRate : option jsstring;
  r_codecs : option jsstring;
  r_mimeType : option jsstring;
  r_baseUrl : option jsstring;
  r_segmentTemplate : option DASHSegmentTemplate;
  r_segmentList : option DASHSegmentList;
}.

Record DASHContentProtection : Type := {
  cp_schemeIdUri : jsstring;
  cp_value : option jsstring;
  cp_pssh : option jsstring;
}.

Inductive ContentType : Type := CtVideo | CtAudio | CtText.

Global Instance ContentType_eq_dec : EqDecision ContentType.
Proof. solve_decision. Defined.

Record DASHAdaptationSet : Type := {
  as_id : jsstring;
  as_mimeType : jsstring;
  as_contentType : ContentType;
  as_lang : option jsstring;
  representations : list DASHRepresentation;
  contentProtection : list DASHContentProtection;
}.

(** [duration] and [minBufferTime] hold the attribute given to
    [parseDuration], whose value is a floating-point number of seconds. *)
Record DASHManifest : Type := {
  mpd_type : jsstring;
  mpd_duration : option jsstring;
  mpd_minBufferTime : option jsstring;
  adaptationSets : list DASHAdaptationSet;
  mpd_isDRM : bool;
  mpd_baseUrl : option jsstring;
}.

(** [el.getAttribute(name) ? parseInt(el.getAttribute(name), 10) : undefined]. *)
Definition intAttr (el : Node) (name : string) : option jsnum :=
  parseInt10 <$> nonEmpty (getAttribute el (js name)).
Arguments intAttr el name%_string.

Section Dash.
Context {host : Host}.

Definition parseTimelineEntry (s : Node) : DASHSegmentTimeline :=
  {| tl_start := intAttr s "t";
     tl_duration := parseInt10 (strOr (getAttribute s (js "d")) (js "0"));
     tl_repeat := intAttr s "r" |}.

Definition parseSegmentTemplate (element : option Node) (_baseUrl : jsstring)
    : option DASHSegmentTemplate :=
  match element with
  | None => None
  | Some el =>
      Some {|
        t_media := strOr (getAttribute el (js "media")) [];
        t_initialization := nonEmpty (getAttribute el (js "initialization"));
        t_startNumber := parseInt10 (strOr (getAttribute el (js "startNumber")) (js "1"));
        t_timescale := parseInt10 (strOr (getAttribute el (js "timescale")) (js "1"));
        t_duration := intAttr el "duration";
        t_timeline :=
          (fun timeline => map parseTimelineEntry (querySelectorAll timeline "S"))
            <$> querySelector el "SegmentTimeline";
      |}
  end.

Definition parseSegmentList (element : Node) (baseUrl : jsstring) : DASHSegmentList :=
  {| sl_initialization :=
       match querySelector element "Initialization" with
       | Some init => nonEmpty (getAttribute init (js "sourceURL"))
       | None => None
       end;
     sl_segments :=
       omap (fun seg => (fun media => resolveUrl media baseUrl)
                          <$> nonEmpty (getAttribute seg (js "media")))
            (querySelectorAll element "SegmentURL") |}.

Definition parseRepresentation (element : Node) (baseUrl : jsstring)
    (parentTemplate : option DASHSegmentTemplate) : DASHRepresentation :=
  {| r_id := strOr (getAttribute element (js "id")) [];
     r_bandwidth := parseInt10 (strOr (getAttribute element (js "bandwidth")) (js "0"));
     r_width := intAttr element "width";
     r_height := intAttr element "height";
     r_frameRate := nonEmpty (getAttribute element (js "frameRate"));
     r_codecs := nonEmpty (getAttribute element (js "codecs"));
     r_mimeType := nonEmpty (getAttribute element (js "mimeType"));
     r_baseUrl :=
       match querySelector element "BaseURL" with
       | Some b => (fun t => resolveUrl t baseUrl) <$> nonEmpty (Some (textContent b))
       | None => None
       end;
     r_segmentTemplate :=
       match parseSegmentTemplate (querySelectorChild element "SegmentTemplate") baseUrl with
       | Some t => Some t
       | None => parentTemplate
       end;
     r_segmentList :=
       (fun l => parseSegmentList l baseUrl) <$> querySelector element "SegmentList" |}.

Definition parseContentProtection (cp : Node) : DASHContentProtection :=
  {| cp_schemeIdUri := strOr (getAttribute cp (js "schemeIdUri")) [];
     cp_value := nonEmpty (getAttribute cp (js "value"));
     cp_pssh :=
       match List.filter (fun n => hasTag (js "pssh") n || hasTag (js "cenc:pssh") n)
                         (descendants cp) with
       | p :: _ => nonEmpty (Some (textContent p))
       | [] => None
       end |}.

Definition adaptationContentType (element : Node) (mimeType : jsstring) : ContentType :=
  if includes mimeType (js "audio")
     || bool_decide (getAttribute element (js "contentType") = Some (js "audio"))
  then CtAudio
  else if includes mimeType (js "text")
          || bool_decide (getAttribute element (js "contentType") = Some (js "text"))
  then CtText
  else CtVideo.

Definition parseAdaptationSet (element : Node) (baseUrl : jsstring) : DASHAdaptationSet :=
  let mimeType := strOr (getAttribute element (js "mimeType")) [] in
  let contentType := adaptationContentType element mimeType in
  let asSegmentTemplate :=
    parseSegmentTemplate (querySelectorChild element "SegmentTemplate") baseUrl in
  let reps := map (fun rep => parseRepresentation rep baseUrl asSegmentTemplate)
                  (querySelectorAll element "Representation") in
  {| as_id := strOr (getAttribute element (js "id")) [];
     as_mimeType := mimeType;
     as_contentType := contentType;
     as_lang := nonEmpty (getAttribute element (js "lang"));
     representations :=
       if bool_decide (contentType = CtVideo)
       then js_sort (fun a b => jssub (r_bandwidth b) (r_bandwidth a)) reps
       else js_sort (fun a b => jssub (r_bandwidth a) (r_bandwidth b)) reps;
     contentProtection :=
       map parseContentProtection (querySelectorAll element "ContentProtection") |}.

Definition parseDASHDocument (doc : list Node) (baseUrl : jsstring) : result DASHManifest :=
  match docQuerySelector doc "MPD" with
  | None => Throw (js "Error") (js "Invalid DASH manifest: missing MPD element")
  | Some mpd =>
      let manifestBase :=
        match docQuerySelector doc "BaseURL" with
        | Some b => (fun t => resolveUrl t baseUrl) <$> nonEmpty (Some (textContent b))
        | None => None
        end in
      let sets :=
        flat_map (fun period =>
                    map (fun el => parseAdaptationSet el (strOr manifestBase baseUrl))
                        (querySelectorAll period "AdaptationSet"))
                 (docQuerySelectorAll doc "Period") in
      Ok {| mpd_type := strOr (getAttribute mpd (js "type")) (js "static");
            mpd_duration := nonEmpty (getAttribute mpd (js "mediaPresentationDuration"));
            mpd_minBufferTime := nonEmpty (getAttribute mpd (js "minBufferTime"));
            adaptationSets := sets;
            mpd_isDRM :=
              existsb (fun a => bool_decide (contentProtection a <> [])) sets;
            mpd_baseUrl := manifestBase |}
  end.

(** [new DOMParser()] comes first: where the global is not defined the
    function throws a [ReferenceError] before it looks at the content. *)
Definition parseDASHManifest (content baseUrl : jsstring) : result DASHManifest :=
  match DOMParser_parse with
  | Some parseFromString => parseDASHDocument (parseFromString content) baseUrl
  | None => Throw (js "ReferenceError") (js "DOMParser is not defined")
  end.
End Dash.

(** *** Segment URLs from a representation *)

(** [GetSubstitution] for a pattern without capture groups: [$$], [$&],
    [$`] and [$'] are expanded in the replacement text, any other [$] is
    literal. *)
Fixpoint getSubstitution (matched before after replacement : jsstring) : jsstring :=
  match replacement with
  | [] => []
  | 36 :: r =>
      match r with
      | 36 :: r' => 36 :: getSubstitution matched before after r'
      | 38 :: r' => matched ++ getSubstitution matched before after r'
      | 96 :: r' => before ++ getSubstitution matched before after r'
      | 39 :: r' => after ++ getSubstitution matched before after r'
      | _ => 36 :: getSubstitution matched before after r
      end
  | c :: r => c :: getSubstitution matched before after r
  end.

(** [str.replace(re, f)] for a global pattern.  [matchAt s] is the match of
    the pattern at the head of [s], if any: what was captured, the matched
    text and the rest.  [subst] receives the capture, the matched text, the
    text before the match and the text after it.  The search resumes where
    the match ended; an unmatched unit is copied. *)
Fixpoint replaceAll_go {M : Type} (matchAt : jsstring -> option (M * jsstring * jsstring))
    (subst : M -> jsstring -> jsstring -> jsstring -> jsstring)
    (fuel : nat) (before s : jsstring) : jsstring :=
  match fuel with
  | O => s
  | S f =>
      match s with
      | [] => []
      | c :: s' =>
          match matchAt s with
          | Some (m, matched, rest) =>
              subst m matched before rest
                ++ replaceAll_go matchAt subst f (before ++ matched) rest
          | None => c :: replaceAll_go matchAt subst f (before ++ [c]) s'
          end
      end
  end.

Definition replaceAll {M : Type} (matchAt : jsstring -> option (M * jsstring * jsstring))
    (subst : M -> jsstring -> jsstring -> jsstring -> jsstring) (s : jsstring) : jsstring :=
  replaceAll_go matchAt subst (length s) [] s.

(** A match of [\$key\$] at the head of [s]. *)
Definition matchPlain (key s : jsstring) : option (unit * jsstring * jsstring) :=
  let pat := 36 :: key ++ [36] in
  if startsWith s pat then Some (tt, pat, drop (length pat) s) else None.

(** A match of [\$key%(\d+)d\$] at the head of [s]; the capture is the
    width. *)
Definition matchPadded (key s : jsstring) : option (jsstring * jsstring * jsstring) :=
  let pre := 36 :: key ++ [37] in
  if startsWith s pre then
    match span isDigit (drop (length pre) s) with
    | ((_ :: _) as width, 100 :: 36 :: rest) => Some (width, pre ++ width ++ [100; 36], rest)
    | _ => None
    end
  else None.

(** [s.padStart(n, '0')]; a [NaN] length pads nothing.  (The engine's limit
    on the length of a string is not modelled.) *)
Definition padStart (n : jsnum) (s : jsstring) : jsstring :=
  match n with
  | Num z => replicate (Z.to_nat z - length s) 48 ++ s
  | NaN => s
  end.

(** One round of the loop of [replaceVars]: both replacements for one
    entry of [vars].  The width is a run of digits, on which [parseInt]
    without a radix is decimal. *)
Definition replaceVar (result : jsstring) (kv : jsstring * jsstring) : jsstring :=
  let '(key, value) := kv in
  let r1 := replaceAll (matchPlain key)
              (fun _ matched before after => getSubstitution matched before after value)
              result in
  replaceAll (matchPadded key)
    (fun width _ _ _ => padStart (parseInt10 width) value) r1.

Definition replaceVars (str : jsstring) (vars : list (jsstring * jsstring)) : jsstring :=
  fold_left replaceVar vars str.

(** The entries of the object literal given to [replaceVars], in order,
    each value through [String(value)]. *)
Definition segmentVars (representation : DASHRepresentation) (number time : jsnum)
    : list (jsstring * jsstring) :=
  [ (js "RepresentationID", r_id representation);
    (js "Number", numToString number);
    (js "Time", numToString time);
    (js "Bandwidth", numToString (r_bandwidth representation)) ].

(** [(segment.repeat || 0) + 1], as a number of iterations of
    [for (let i = 0; i < repeat; i++)]. *)
Definition repeatCount (segment : DASHSegmentTimeline) : nat :=
  match tl_repeat segment with
  | Some (Num r) => Z.to_nat (r + 1)
  | _ => 1
  end.

Section SegmentUrls.
Context {host : Host}.

(** The inner [for] loop: [count] more segments of one [S] entry. *)
Fixpoint timelineRun (representation : DASHRepresentation) (template : DASHSegmentTemplate)
    (baseUrl : jsstring) (segment : DASHSegmentTimeline) (count : nat)
    (st : list jsstring * jsnum * jsnum) : list jsstring * jsnum * jsnum :=
  match count with
  | O => st
  | S count' =>
      let '(urls, time, number) := st in
      let url := replaceVars (t_media template) (segmentVars representation number time) in
      timelineRun representation template baseUrl segment count'
        (urls ++ [resolveUrl url (strOr (r_baseUrl representation) baseUrl)],
         jsadd time (tl_duration segment),
         jsadd number (Num 1))
  end.

(** The outer [for ... of template.timeline] loop. *)
Definition timelineStep (representation : DASHRepresentation) (template : DASHSegmentTemplate)
    (baseUrl : jsstring) (st : list jsstring * jsnum * jsnum) (segment : DASHSegmentTimeline)
    : list jsstring * jsnum * jsnum :=
  let '(urls, time, number) := st in
  let time' := match tl_start segment with
               | Some t => t
               | None => time
               end in
  timelineRun representation template baseUrl segment (repeatCount segment)
    (urls, time', number).

Definition generateSegmentUrls (representation : DASHRepresentation) (baseUrl : jsstring)
    : list jsstring :=
  match r_segmentTemplate representation with
  | Some template =>
      match t_timeline template with
      | Some timeline =>
          fst (fst (fold_left (timelineStep representation template baseUrl) timeline
                              ([], Num 0, t_startNumber template)))
      | None => []
      end
  | None =>
      match r_segmentList representation with
      | Some l => sl_segments l
      | None => []
      end
  end.
End SegmentUrls.

(** ** The native-messaging host (native-host.ts) *)

(** *** [JSON.parse]

    The text of a frame is kept as its UTF-8 bytes.  The JSON grammar is
    written in ASCII and a unit above it can only stand inside a string
    literal, where every character is allowed, so decoding the bytes first
    changes nothing about what is accepted.  The parsed value keeps numbers
    and strings as they are written.  (The engine's limit on the depth of
    nesting is not modelled.) *)
Inductive JSON : Type :=
  | JNull
  | JBool (b : bool)
  | JNumber (text : jsstring)
  | JString (raw : jsstring)
  | JArray (items : list JSON)
  | JObject (members : list (jsstring * JSON)).

Definition isJsonWs (c : N) : bool := (c =? 32) || (c =? 9) || (c =? 10) || (c =? 13).

Fixpoint skipWs (s : jsstring) : jsstring :=
  match s with
  | c :: s' => if isJsonWs c then skipWs s' else s
  | [] => []
  end.

Definition isHexDigit (c : N) : bool :=
  isDigit c || ((65 <=? c) && (c <=? 70)) || ((97 <=? c) && (c <=? 102)).

Definition isJsonEscape (e : N) : bool :=
  (e =? 34) || (e =? 92) || (e =? 47) || (e =? 98) || (e =? 102)
  || (e =? 110) || (e =? 114) || (e =? 116).

Definition consRaw (c : N) (r : option (jsstring * jsstring)) : option (jsstring * jsstring) :=
  match r with
  | Some (raw, rest) => Some (c :: raw, rest)
  | None => None
  end.

(** The rest of a string literal after its opening quote: the raw
    characters up to the closing quote, and what follows it.  [st] is [0]
    between characters, [1] after a backslash and [k + 1] while [k] hex
    digits of a [\u] escape are still to come. *)
Fixpoint jsonString (st : nat) (s : jsstring) : option (jsstring * jsstring) :=
  match s with
  | [] => None
  | c :: r =>
      match st with
      | O =>
          if c =? 34 then Some ([], r)
          else if c =? 92 then consRaw c (jsonString 1 r)
          else if c <? 32 then None
          else consRaw c (jsonString 0 r)
      | S O =>
          if c =? 117 then consRaw c (jsonString 5 r)
          else if isJsonEscape c then consRaw c (jsonString 0 r)
          else None
      | S (S k) =>
          if isHexDigit c then
            consRaw c (jsonString (match k with O => O | S _ => S k end) r)
          else None
      end
  end.

(** A number literal at the head of [s]: an optional minus, an integer part
    without a superfluous leading zero, an optional fraction, an optional
    exponent. *)
Definition jsonNumber (s : jsstring) : option (jsstring * jsstring) :=
  let '(sign, s1) := match s with
                     | 45 :: r => ([45], r)
                     | _ => ([], s)
                     end in
  match span isDigit s1 with
  | ([], _) => None
  | ((d0 :: ds) as int, s2) =>
      if (d0 =? 48) && negb (bool_decide (ds = [])) then None
      else
        let frac :=
          match s2 with
          | 46 :: r =>
              match span isDigit r with
              | ((_ :: _) as f, s3) => Some (46 :: f, s3)
              | _ => None
              end
          | _ => Some ([], s2)
          end in
        match frac with
        | None => None
        | Some (f, s3) =>
            match s3 with
            | e :: r =>
                if (e =? 101) || (e =? 69) then
                  let '(esign, r1) := match r with
                                      | 43 :: r' => ([43], r')
                                      | 45 :: r' => ([45], r')
                                      | _ => ([], r)
                                      end in
                  match span isDigit r1 with
                  | ((_ :: _) as ex, s4) => Some (sign ++ int ++ f ++ e :: esign ++ ex, s4)
                  | _ => None
                  end
                else Some (sign ++ int ++ f, s3)
            | [] => Some (sign ++ int ++ f, s3)
            end
        end
  end.

Definition jsonLiteral (word : string) (v : JSON) (s : jsstring) : option (JSON * jsstring) :=
  if startsWith s (js word) then Some (v, drop (length (js word)) s) else None.
Arguments jsonLiteral word%_string v s.

(** A value, the elements of an array after its bracket, and the members
    of an object after its brace.  Every call uses up one unit of [fuel] and
    every second call at least one character. *)
Fixpoint jsonValue (fuel : nat) (s : jsstring) : option (JSON * jsstring) :=
  match fuel with
  | O => None
  | S f =>
      match skipWs s with
      | [] => None
      | c :: r =>
          if c =? 123 then
            match skipWs r with
            | 125 :: r' => Some (JObject [], r')
            | r' =>
                match jsonMembers f r' with
                | Some (ms, rest) => Some (JObject ms, rest)
                | None => None
                end
            end
          else if c =? 91 then
            match skipWs r with
            | 93 :: r' => Some (JArray [], r')
            | r' =>
                match jsonElements f r' with
                | Some (vs, rest) => Some (JArray vs, rest)
                | None => None
                end
            end
          else if c =? 34 then
            match jsonString 0 r with
            | Some (raw, rest) => Some (JString raw, rest)
            | None => None
            end
          else if c =? 116 then jsonLiteral "true" (JBool true) (c :: r)
          else if c =? 102 then jsonLiteral "false" (JBool false) (c :: r)
          else if c =? 110 then jsonLiteral "null" JNull (c :: r)
          else
            match jsonNumber (c :: r) with
            | Some (text, rest) => Some (JNumber text, rest)
            | None => None
            end
      end
  end
with jsonElements (fuel : nat) (s : jsstring) : option (list JSON * jsstring) :=
  match fuel with
  | O => None
  | S f =>
      match jsonValue f s with
      | Some (v, rest) =>
          match skipWs rest with
          | 93 :: r' => Some ([v], r')
          | 44 :: r' =>
              match jsonElements f r' with
              | Some (vs, rest') => Some (v :: vs, rest')
              | None => None
              end
          | _ => None
          end
      | None => None
      end
  end
with jsonMembers (fuel : nat) (s : jsstring) : option (list (jsstring * JSON) * jsstring) :=
  match fuel with
  | O => None
  | S f =>
      match skipWs s with
      | 34 :: r =>
          match jsonString 0 r with
          | Some (key, rest) =>
              match skipWs rest with
              | 58 :: r1 =>
                  match jsonValue f r1 with
                  | Some (v, rest1) =>
                      match skipWs rest1 with
                      | 125 :: r' => Some ([(key, v)], r')
                      | 44 :: r' =>
                          match jsonMembers f r' with
                          | Some (ms, rest') => Some ((key, v) :: ms, rest')
                          | None => None
                          end
                      | _ => None
                      end
                  | None => None
                  end
              | _ => None
              end
          | None => None
          end
      | _ => None
      end
  end.

(** [JSON.parse(text)]: one value, white space around it, nothing else;
    [None] is a [SyntaxError]. *)
Definition JSON_parse (text : jsstring) : option JSON :=
  match jsonValue (2 * length text + 2) text with
  | Some (v, rest) => if bool_decide (skipWs rest = []) then Some v else None
  | None => None
  end.

(** *** The host *)

(** [buffer.readUInt32LE(0)] on the first four bytes. *)
Definition readUInt32LE (b0 b1 b2 b3 : byte) : N :=
  Byte.to_N b0 + 256 * Byte.to_N b1 + 65536 * Byte.to_N b2 + 16777216 * Byte.to_N b3.

Definition byteOfN (n : N) : byte := default x00 (Byte.of_N (n mod 256)).

(** [lengthBuffer.writeUInt32LE(n, 0)]. *)
Definition writeUInt32LE (n : N) : list byte :=
  [byteOfN n; byteOfN (n / 256); byteOfN (n / 65536); byteOfN (n / 16777216)].

(** The bytes [sendMessage] writes for a serialized body: the length prefix,
    then the body. *)
Definition frameOf (body : list byte) : list byte :=
  writeUInt32LE (N.of_nat (length body)) ++ body.

(** [messageBuffer.toString('utf8')].  The text is kept as its UTF-8
    bytes: what JSON takes for structure is ASCII, which decoding leaves
    alone, and the contents of string literals stay encoded. *)
Definition bufferText (b : list byte) : jsstring := map Byte.to_N b.

(** The fields of [NativeMessagingHost], and what it has done so far: the
    messages given to [options.onMessage] and the number of
    [console.error] reports. *)
Record NativeMessagingHost : Type := {
  running : bool;
  buffer : list byte;
  handled : list JSON;
  reported : nat;
}.

Section NativeHost.
(** Whether [options.onMessage] throws on a message; the [try] block
    catches that as it catches a [SyntaxError]. *)
Variable onMessage_throws : JSON -> bool.

(** The [while] loop of [handleData]. *)
Fixpoint handleData_loop (fuel : nat) (h : NativeMessagingHost) : NativeMessagingHost :=
  match fuel with
  | O => h
  | S f =>
      match buffer h with
      | b0 :: b1 :: b2 :: b3 :: rest =>
          let messageLength := N.to_nat (readUInt32LE b0 b1 b2 b3) in
          if (length rest <? messageLength)%nat then h
          else
            let messageBuffer := take messageLength rest in
            let buffer' := drop messageLength rest in
            match JSON_parse (bufferText messageBuffer) with
            | Some message =>
                handleData_loop f
                  {| running := running h; buffer := buffer';
                     handled := handled h ++ [message];
                     reported := if onMessage_throws message then S (reported h)
                                 else reported h |}
            | None =>
                handleData_loop f
                  {| running := running h; buffer := buffer';
                     handled := handled h; reported := S (reported h) |}
            end
      | _ => h
      end
  end.

Definition handleData (h : NativeMessagingHost) (data : list byte) : NativeMessagingHost :=
  let buf := buffer h ++ data in
  handleData_loop (length buf)
    {| running := running h; buffer := buf; handled := handled h; reported := reported h |}.
End NativeHost.

(** ** The downloader *)

Inductive StreamType : Type := TyHls | TyDash | TyDirect | TyYtdlp | TyUnknown.

Global Instance StreamType_eq_dec : EqDecision StreamType.
Proof. solve_decision. Defined.

Definition streamTypeName (t : StreamType) : jsstring :=
  match t with
  | TyHls => js "hls"
  | TyDash => js "dash"
  | TyDirect => js "direct"
  | TyYtdlp => js "ytdlp"
  | TyUnknown => js "unknown"
  end.

Record VideoQuality : Type := {
  q_width : jsnum;
  q_height : jsnum;
  q_label : jsstring;
}.

Record AudioTrack : Type := {
  a_language : jsstring;
  a_label : jsstring;
}.

Record DetectedStream : Type := {
  st_id : jsstring;
  st_url : jsstring;
  st_type : StreamType;
  st_protection : StreamProtection;
  st_qualities : list VideoQuality;
  st_audioTracks : list AudioTrack;
  st_pageUrl : jsstring;
  st_pageTitle : jsstring;
}.

Inductive DownloadStatus : Type :=
  | Pending | Downloading | Merging | Completed | Failed | Cancelled.

Global Instance DownloadStatus_eq_dec : EqDecision DownloadStatus.
Proof. solve_decision. Defined.

(** The integer fields of a progress report.  [totalBytes], [speed], [eta]
    and [percentage] are floating-point values computed from the clock and
    are left out. *)
Record DownloadProgress : Type := {
  downloadedBytes : Z;
  currentSegment : option nat;
  totalSegments : option nat;
}.

(** [createdAt] and [completedAt] (clock readings) are left out. *)
Record DownloadJob : Type := {
  job_id : jsstring;
  stream : DetectedStream;
  selectedQuality : VideoQuality;
  selectedAudio : option AudioTrack;
  status : DownloadStatus;
  progress : DownloadProgress;
  outputPath : option jsstring;
  error : option jsstring;
}.

Definition withStatus (s : DownloadStatus) (j : DownloadJob) : DownloadJob :=
  {| job_id := job_id j; stream := stream j; selectedQuality := selectedQuality j;
     selectedAudio := selectedAudio j; status := s; progress := progress j;
     outputPath := outputPath j; error := error j |}.

Definition withProgress (p : DownloadProgress) (j : DownloadJob) : DownloadJob :=
  {| job_id := job_id j; stream := stream j; selectedQuality := selectedQuality j;
     selectedAudio := selectedAudio j; status := status j; progress := p;
     outputPath := outputPath j; error := error j |}.

Definition withOutputPath (o : jsstring) (j : DownloadJob) : DownloadJob :=
  {| job_id := job_id j; stream := stream j; selectedQuality := selectedQuality j;
     selectedAudio := selectedAudio j; status := status j; progress := progress j;
     outputPath := Some o; error := error j |}.

Definition withError (m : jsstring) (j : DownloadJob) : DownloadJob :=
  {| job_id := job_id j; stream := stream j; selectedQuality := selectedQuality j;
     selectedAudio := selectedAudio j; status := status j; progress := progress j;
     outputPath := outputPath j; error := Some m |}.

(** A call of one of the three sinks of [DownloaderOptions]. *)
Inductive Event : Type :=
  | EvProgress (jobId : jsstring) (p : DownloadProgress)
  | EvComplete (jobId : jsstring) (outputPath : option jsstring)
  | EvError (jobId : jsstring) (message : jsstring).

Definition eventJob (e : Event) : jsstring :=
  match e with
  | EvProgress j _ => j
  | EvComplete j _ => j
  | EvError j _ => j
  end.

Definition isTerminal (e : Event) : bool :=
  match e with
  | EvProgress _ _ => false
  | _ => true
  end.

(** A network request of a job's task: one call [got(url, { signal })] or
    [got.stream(url, { signal })].  The class gives [got] the signal and no
    other option, so what one call does on the network, the attempts that
    [got] makes by its default settings among it, is the library's and is not
    represented: a [Got] stands for the whole call, and its rejection (a
    [Throw] given to [resume]) for the error the call ends with when [got]
    has given up. *)
Inductive Request : Type :=
  | Got (jobId url : jsstring)
  | GotStream (jobId url : jsstring).

Definition requestJob (r : Request) : jsstring :=
  match r with
  | Got j _ => j
  | GotStream j _ => j
  end.

(** Where a task of [executeDownload] is suspended: the [await] it waits
    at, with the local variables that are read after it.  The calls of the
    file system and of the encoder are suspension points; what they are
    given (paths inside the scratch directory) is not recorded. *)
Inductive Task : Type :=
  | HlsManifest
  | HlsPlaylist (variantUrl : jsstring)
  | HlsMkdir (segs : list HLSMediaSegment)
  | HlsSegment (segs : list HLSMediaSegment) (i : nat) (bytes : Z)
  | HlsWrite (segs : list HLSMediaSegment) (i : nat) (bytes : Z) (len : nat)
  | HlsMerge (out : jsstring)
  | HlsConcat (out : jsstring)
  | HlsCleanup (out : jsstring)
  | DashManifest
  | DashImport (representation : option DASHRepresentation) (base : jsstring)
  | DashMkdir (representation : DASHRepresentation) (urls : list jsstring)
  | DashInit (urls : list jsstring)
  | DashInitWrite (urls : list jsstring)
  | DashSegment (urls : list jsstring) (i : nat) (bytes : Z)
  | DashWrite (urls : list jsstring) (i : nat) (bytes : Z) (len : nat)
  | DashMerge (out : jsstring)
  | DashCleanup (out : jsstring)
  | DirectTransfer (out : jsstring).

(** The fields of [Downloader], the suspended tasks and what has been
    observed so far.

    - [abortControllers] holds the keys of the map: the controller stored for
      a job is the one its task created, and the state of its signal is the
      second component of the task.
    - [listeners] are the direct downloads whose stream has a
      [downloadProgress] listener (it is never removed).
    - [requests] and [events] grow at the end. *)
Record Downloader : Type := {
  downloadPath : jsstring;
  maxConcurrent : Z;
  ffmpegAvailable : bool;
  jobs : gmap jsstring DownloadJob;
  activeDownloads : Z;
  queue : list jsstring;
  abortControllers : gset jsstring;
  tasks : gmap jsstring (Task * bool);
  listeners : gset jsstring;
  requests : list Request;
  events : list Event;
}.

Definition newDownloader (path : jsstring) (maxConc : Z) (ffmpeg : bool) : Downloader :=
  {| downloadPath := path; maxConcurrent := maxConc; ffmpegAvailable := ffmpeg;
     jobs := ∅; activeDownloads := 0; queue := []; abortControllers := ∅;
     tasks := ∅; listeners := ∅; requests := []; events := [] |}.

Definition setDownloadPath (path : jsstring) (d : Downloader) : Downloader :=
  {| downloadPath := path; maxConcurrent := maxConcurrent d;
     ffmpegAvailable := ffmpegAvailable d; jobs := jobs d;
     activeDownloads := activeDownloads d; queue := queue d;
     abortControllers := abortControllers d; tasks := tasks d;
     listeners := listeners d; requests := requests d; events := events d |}.

Definition updJob (jobId : jsstring) (f : DownloadJob -> DownloadJob) (d : Downloader)
    : Downloader :=
  {| downloadPath := downloadPath d; maxConcurrent := maxConcurrent d;
     ffmpegAvailable := ffmpegAvailable d; jobs := alter f jobId (jobs d);
     activeDownloads := activeDownloads d; queue := queue d;
     abortControllers := abortControllers d; tasks := tasks d;
     listeners := listeners d; requests := requests d; events := events d |}.

Definition emit (e : Event) (d : Downloader) : Downloader :=
  {| downloadPath := downloadPath d; maxConcurrent := maxConcurrent d;
     ffmpegAvailable := ffmpegAvailable d; jobs := jobs d;
     activeDownloads := activeDownloads d; queue := queue d;
     abortControllers := abortControllers d; tasks := tasks d;
     listeners := listeners d; requests := requests d; events := events d ++ [e] |}.

Definition request (r : Request) (d : Downloader) : Downloader :=
  {| downloadPath := downloadPath d; maxConcurrent := maxConcurrent d;
     ffmpegAvailable := ffmpegAvailable d; jobs := jobs d;
     activeDownloads := activeDownloads d; queue := queue d;
     abortControllers := abortControllers d; tasks := tasks d;
     listeners := listeners d; requests := requests d ++ [r]; events := events d |}.

(** The task of [jobId] is suspended at [k]; the state of its signal is
    kept. *)
Definition suspend (jobId : jsstring) (k : Task) (d : Downloader) : Downloader :=
  let aborted := match tasks d !! jobId with
                 | Some (_, a) => a
                 | None => false
                 end in
  {| downloadPath := downloadPath d; maxConcurrent := maxConcurrent d;
     ffmpegAvailable := ffmpegAvailable d; jobs := jobs d;
     activeDownloads := activeDownloads d; queue := queue d;
     abortControllers := abortControllers d;
     tasks := <[jobId := (k, aborted)]> (tasks d);
     listeners := listeners d; requests := requests d; events := events d |}.

Definition statusOf (d : Downloader) (jobId : jsstring) : option DownloadStatus :=
  status <$> jobs d !! jobId.

Definition signalAborted (d : Downloader) (jobId : jsstring) : bool :=
  match tasks d !! jobId with
  | Some (_, a) => a
  | None => false
  end.

(** [a === b] on numbers. *)
Definition strictEq (a b : jsnum) : bool :=
  match a, b with
  | Num x, Num y => (x =? y)%Z
  | _, _ => false
  end.

Definition isForbiddenInName (c : N) : bool :=
  (c =? 60) || (c =? 62) || (c =? 58) || (c =? 34) || (c =? 47) || (c =? 92)
  || (c =? 124) || (c =? 63) || (c =? 42).

(** [s.replace(/\s+/g, ' ')]; [inRun] tells that the previous unit was white
    space. *)
Fixpoint collapseSpaces (inRun : bool) (s : jsstring) : jsstring :=
  match s with
  | [] => []
  | c :: s' =>
      if isWhiteSpace c then
        if inRun then collapseSpaces true s' else 32 :: collapseSpaces true s'
      else c :: collapseSpaces false s'
  end.

Definition sanitizeFilename (name : jsstring) : jsstring :=
  take 200 (trim (collapseSpaces false
                    (List.filter (fun c => negb (isForbiddenInName c)) name))).

(** [s.replace(pat, ...)] for a string pattern: the first occurrence only.
    [subst] receives the text before and after the match. *)
Fixpoint replaceFirst_go (pat : jsstring) (subst : jsstring -> jsstring -> jsstring)
    (before s : jsstring) : jsstring :=
  if startsWith s pat then
    subst before (drop (length pat) s) ++ drop (length pat) s
  else
    match s with
    | [] => []
    | c :: s' => c :: replaceFirst_go pat subst (before ++ [c]) s'
    end.

Definition replaceFirst (pat replacement s : jsstring) : jsstring :=
  replaceFirst_go pat (fun before after => getSubstitution pat before after replacement) [] s.

Section Tasks.
Context {host : Host}.

(** [path.join(downloadPath, sanitizeFilename(pageTitle || 'video') + '.mp4')]. *)
Definition outputFile (d : Downloader) (job : DownloadJob) : jsstring :=
  path_join (downloadPath d)
    (sanitizeFilename (strOr (Some (st_pageTitle (stream job))) (js "video")) ++ js ".mp4").

(** [this.processQueue()], as [executeDownload] calls it back. *)
Variable processQueue_rec : Downloader -> Downloader.

(** The [finally] block of [executeDownload]. *)
Definition settle (jobId : jsstring) (d : Downloader) : Downloader :=
  processQueue_rec
    {| downloadPath := downloadPath d; maxConcurrent := maxConcurrent d;
       ffmpegAvailable := ffmpegAvailable d; jobs := jobs d;
       activeDownloads := activeDownloads d - 1; queue := queue d;
       abortControllers := abortControllers d ∖ {[jobId]};
       tasks := delete jobId (tasks d);
       listeners := listeners d; requests := requests d; events := events d |}.

(** The download function returned: the end of the [try] block. *)
Definition taskReturn (jobId : jsstring) (d : Downloader) : Downloader :=
  match jobs d !! jobId with
  | Some job =>
      if bool_decide (status job = Cancelled) then settle jobId d
      else settle jobId (emit (EvComplete jobId (outputPath job))
                           (updJob jobId (withStatus Completed) d))
  | None => settle jobId d
  end.

(** The download function threw, or an awaited promise was rejected: the
    [catch] block. *)
Definition taskThrow (name message : jsstring) (jobId : jsstring) (d : Downloader)
    : Downloader :=
  match jobs d !! jobId with
  | Some job =>
      if negb (jsstring_eqb name (js "AbortError"))
         && negb (bool_decide (status job = Cancelled))
      then settle jobId (emit (EvError jobId message)
                           (updJob jobId (fun j => withError message (withStatus Failed j)) d))
      else settle jobId d
  | None => settle jobId d
  end.

(** After the segment loop of [downloadHLS] and [downloadDASH]: the job is
    marked as merging and the encoder (or [concatenateFiles]) is awaited.
    [downloadDASH] removes the scratch directory after either; [downloadHLS]
    returns right after the fallback. *)
Definition startMerge (dash : bool) (jobId : jsstring) (job : DownloadJob) (d : Downloader)
    : Downloader :=
  let d1 := updJob jobId (withStatus Merging) d in
  let out := outputFile d job in
  if dash then suspend jobId (DashMerge out) d1
  else if ffmpegAvailable d then suspend jobId (HlsMerge out) d1
  else suspend jobId (HlsConcat (replaceFirst (js ".mp4") (js ".ts") out)) d1.

(** The head of the segment loop of [downloadHLS], at index [i]. *)
Definition hlsLoop (segs : list HLSMediaSegment) (i : nat) (bytes : Z)
    (jobId : jsstring) (job : DownloadJob) (d : Downloader) : Downloader :=
  match segs !! i with
  | Some segment =>
      if signalAborted d jobId
      then taskThrow (js "Error") (js "Download cancelled") jobId d
      else suspend jobId (HlsSegment segs i bytes) (request (Got jobId (s_uri segment)) d)
  | None => startMerge false jobId job d
  end.

Definition dashLoop (urls : list jsstring) (i : nat) (bytes : Z)
    (jobId : jsstring) (job : DownloadJob) (d : Downloader) : Downloader :=
  match urls !! i with
  | Some url =>
      if signalAborted d jobId
      then taskThrow (js "Error") (js "Download cancelled") jobId d
      else suspend jobId (DashSegment urls i bytes) (request (Got jobId url) d)
  | None => startMerge true jobId job d
  end.

(** The progress report after segment [i] has been written. *)
Definition reportSegment (total i : nat) (bytes : Z) (jobId : jsstring) (d : Downloader)
    : Downloader :=
  let p := {| downloadedBytes := bytes; currentSegment := Some (S i);
              totalSegments := Some total |} in
  emit (EvProgress jobId p) (updJob jobId (withProgress p) d).

Definition typeError (what : string) : jsstring :=
  js "Cannot read properties of undefined (reading '" ++ js what ++ js "')".

(** The variant [downloadHLS] picks in a master playlist. *)
Definition selectVariant (job : DownloadJob) (m : HLSMasterPlaylist) : option HLSVariant :=
  match List.find (fun v => match v_resolution v with
                            | Some (_, Some h) => strictEq h (q_height (selectedQuality job))
                            | _ => false
                            end) (variants m) with
  | Some v => Some v
  | None => head (variants m)
  end.

Definition selectRepresentation (job : DownloadJob) (a : DASHAdaptationSet)
    : option DASHRepresentation :=
  match List.find (fun r => match r_height r with
                            | Some h => strictEq h (q_height (selectedQuality job))
                            | None => false
                            end) (representations a) with
  | Some r => Some r
  | None => head (representations a)
  end.

(** The code of a task between the [await] it was suspended at, which
    yielded [payload], and its next [await] (or its end). *)
Definition continueTask (k : Task) (payload : jsstring) (jobId : jsstring)
    (job : DownloadJob) (d : Downloader) : Downloader :=
  match k with
  | HlsManifest =>
      match parseHLSManifest payload (st_url (stream job)) with
      | Throw n m => taskThrow n m jobId d
      | Ok (Master m) =>
          match selectVariant job m with
          | Some variant =>
              suspend jobId (HlsPlaylist (v_url variant)) (request (Got jobId (v_url variant)) d)
          | None => taskThrow (js "TypeError") (typeError "url") jobId d
          end
      | Ok (Media _) =>
          suspend jobId (HlsPlaylist (st_url (stream job)))
            (request (Got jobId (st_url (stream job))) d)
      end
  | HlsPlaylist variantUrl =>
      match parseHLSManifest payload variantUrl with
      | Throw n m => taskThrow n m jobId d
      | Ok (Master _) => taskThrow (js "Error") (js "Expected media playlist") jobId d
      | Ok (Media playlist) => suspend jobId (HlsMkdir (segments playlist)) d
      end
  | HlsMkdir segs => hlsLoop segs 0 0 jobId job d
  | HlsSegment segs i bytes => suspend jobId (HlsWrite segs i bytes (length payload)) d
  | HlsWrite segs i bytes len =>
      let bytes' := (bytes + Z.of_nat len)%Z in
      hlsLoop segs (S i) bytes' jobId job (reportSegment (length segs) i bytes' jobId d)
  | HlsMerge out => suspend jobId (HlsCleanup out) d
  | HlsConcat out => taskReturn jobId (updJob jobId (withOutputPath out) d)
  | HlsCleanup out => taskReturn jobId (updJob jobId (withOutputPath out) d)
  | DashManifest =>
      match parseDASHManifest payload (st_url (stream job)) with
      | Throw n m => taskThrow n m jobId d
      | Ok manifest =>
          match List.find (fun a => bool_decide (as_contentType a = CtVideo))
                          (adaptationSets manifest) with
          | None => taskThrow (js "Error") (js "No video stream found") jobId d
          | Some videoSet =>
              suspend jobId
                (DashImport (selectRepresentation job videoSet)
                            (strOr (mpd_baseUrl manifest) (st_url (stream job)))) d
          end
      end
  | DashImport None _ => taskThrow (js "TypeError") (typeError "segmentTemplate") jobId d
  | DashImport (Some representation) base =>
      match generateSegmentUrls representation base with
      | [] => taskThrow (js "Error") (js "Could not generate segment URLs") jobId d
      | urls => suspend jobId (DashMkdir representation urls) d
      end
  | DashMkdir representation urls =>
      match nonEmpty (r_segmentTemplate representation ≫= t_initialization) with
      | Some init =>
          let initUrl := replaceFirst (js "$RepresentationID$") (r_id representation) init in
          suspend jobId (DashInit urls) (request (Got jobId initUrl) d)
      | None => dashLoop urls 0 0 jobId job d
      end
  | DashInit urls => suspend jobId (DashInitWrite urls) d
  | DashInitWrite urls => dashLoop urls 0 0 jobId job d
  | DashSegment urls i bytes => suspend jobId (DashWrite urls i bytes (length payload)) d
  | DashWrite urls i bytes len =>
      let bytes' := (bytes + Z.of_nat len)%Z in
      dashLoop urls (S i) bytes' jobId job (reportSegment (length urls) i bytes' jobId d)
  | DashMerge out => suspend jobId (DashCleanup out) d
  | DashCleanup out => taskReturn jobId (updJob jobId (withOutputPath out) d)
  | DirectTransfer out => taskReturn jobId (updJob jobId (withOutputPath out) d)
  end.

(** The awaited operation of the task of [jobId] has settled: fulfilled
    with a payload (a response body, the bytes of a segment; nothing for the
    file system) or rejected with an error. *)
Definition resume (jobId : jsstring) (r : result jsstring) (d : Downloader) : Downloader :=
  match tasks d !! jobId, jobs d !! jobId with
  | Some (k, _), Some job =>
      match r with
      | Ok payload => continueTask k payload jobId job d
      | Throw n m => taskThrow n m jobId d
      end
  | _, _ => d
  end.

(** [executeDownload(jobId)] up to its first [await]. *)
Definition executeDownload (jobId : jsstring) (d : Downloader) : Downloader :=
  match jobs d !! jobId with
  | None => d
  | Some job =>
      if bool_decide (status job = Cancelled) then d
      else
        let d1 :=
          {| downloadPath := downloadPath d; maxConcurrent := maxConcurrent d;
             ffmpegAvailable := ffmpegAvailable d;
             jobs := alter (withStatus Downloading) jobId (jobs d);
             activeDownloads := activeDownloads d + 1; queue := queue d;
             abortControllers := {[jobId]} ∪ abortControllers d;
             tasks := tasks d;
             listeners := listeners d; requests := requests d; events := events d |} in
        match st_type (stream job) with
        | TyHls =>
            suspend jobId HlsManifest (request (Got jobId (st_url (stream job))) d1)
        | TyDash =>
            suspend jobId DashManifest (request (Got jobId (st_url (stream job))) d1)
        | TyDirect =>
            let d2 := request (GotStream jobId (st_url (stream job))) d1 in
            suspend jobId (DirectTransfer (outputFile d job))
              {| downloadPath := downloadPath d2; maxConcurrent := maxConcurrent d2;
                 ffmpegAvailable := ffmpegAvailable d2; jobs := jobs d2;
                 activeDownloads := activeDownloads d2; queue := queue d2;
                 abortControllers := abortControllers d2; tasks := tasks d2;
                 listeners := {[jobId]} ∪ listeners d2;
                 requests := requests d2; events := events d2 |}
        | t =>
            taskThrow (js "Error") (js "Unsupported stream type: " ++ streamTypeName t)
              jobId d1
        end
  end.
End Tasks.

Definition shiftQueue (rest : list jsstring) (d : Downloader) : Downloader :=
  {| downloadPath := downloadPath d; maxConcurrent := maxConcurrent d;
     ffmpegAvailable := ffmpegAvailable d; jobs := jobs d;
     activeDownloads := activeDownloads d; queue := rest;
     abortControllers := abortControllers d; tasks := tasks d;
     listeners := listeners d; requests := requests d; events := events d |}.

(** [processQueue].  Every round shifts the queue and so does every nested
    call from a [finally] block; [fuel] counts the shifts that are left. *)
Fixpoint processQueue_go {host : Host} (fuel : nat) (d : Downloader) : Downloader :=
  match fuel with
  | O => d
  | S f =>
      if (activeDownloads d <? maxConcurrent d)%Z then
        match queue d with
        | [] => d
        | jobId :: rest =>
            processQueue_go f (executeDownload (processQueue_go f) jobId (shiftQueue rest d))
        end
      else d
  end.

Definition processQueue {host : Host} (d : Downloader) : Downloader :=
  processQueue_go (length (queue d)) d.

(** [startDownload(stream, quality, audio)]; [jobId] is what [generateId()]
    returned. *)
Definition startDownload {host : Host} (s : DetectedStream) (quality : VideoQuality)
    (audio : option AudioTrack) (jobId : jsstring) (d : Downloader) : Downloader :=
  let job := {| job_id := jobId; stream := s; selectedQuality := quality;
                selectedAudio := audio; status := Pending;
                progress := {| downloadedBytes := 0; currentSegment := None;
                               totalSegments := None |};
                outputPath := None; error := None |} in
  processQueue
    {| downloadPath := downloadPath d; maxConcurrent := maxConcurrent d;
       ffmpegAvailable := ffmpegAvailable d; jobs := <[jobId := job]> (jobs d);
       activeDownloads := activeDownloads d; queue := queue d ++ [jobId];
       abortControllers := abortControllers d; tasks := tasks d;
       listeners := listeners d; requests := requests d; events := events d |}.

(** [queue.splice(queue.indexOf(jobId), 1)] when the index is not [-1]. *)
Fixpoint removeFirst (jobId : jsstring) (q : list jsstring) : list jsstring :=
  match q with
  | [] => []
  | x :: q' => if jsstring_eqb x jobId then q' else x :: removeFirst jobId q'
  end.

Definition cancelDownload (jobId : jsstring) (d : Downloader) : Downloader :=
  let hasController := bool_decide (jobId ∈ abortControllers d) in
  {| downloadPath := downloadPath d; maxConcurrent := maxConcurrent d;
     ffmpegAvailable := ffmpegAvailable d;
     jobs := alter (withStatus Cancelled) jobId (jobs d);
     activeDownloads := activeDownloads d;
     queue := removeFirst jobId (queue d);
     abortControllers := if hasController then abortControllers d ∖ {[jobId]}
                         else abortControllers d;
     tasks := if hasController then alter (fun t => (fst t, true)) jobId (tasks d)
              else tasks d;
     listeners := listeners d; requests := requests d; events := events d |}.

(** A [downloadProgress] event of the stream of a direct download. *)
Definition downloadProgress (jobId : jsstring) (transferred : Z) (d : Downloader)
    : Downloader :=
  if bool_decide (jobId ∈ listeners d) then
    let p := {| downloadedBytes := transferred; currentSegment := None;
                totalSegments := None |} in
    emit (EvProgress jobId p) (updJob jobId (withProgress p) d)
  else d.

Definition resumeTask {host : Host} (jobId : jsstring) (r : result jsstring) (d : Downloader)
    : Downloader :=
  resume processQueue jobId r d.

(** What can happen to a downloader: the calls of its public methods and
    the events of the environment. *)
Inductive Action : Type :=
  | AStart (s : DetectedStream) (quality : VideoQuality) (audio : option AudioTrack)
           (jobId : jsstring)
  | ACancel (jobId : jsstring)
  | AResume (jobId : jsstring) (r : result jsstring)
  | AProgress (jobId : jsstring) (transferred : Z)
  | ASetPath (path : jsstring).

Definition perform {host : Host} (a : Action) (d : Downloader) : Downloader :=
  match a with
  | AStart s q au jobId => startDownload s q au jobId d
  | ACancel jobId => cancelDownload jobId d
  | AResume jobId r => resumeTask jobId r d
  | AProgress jobId n => downloadProgress jobId n d
  | ASetPath p => setDownloadPath p d
  end.

(** [generateId()] joins the clock and a random number: an identifier is
    never handed out twice. *)
Definition enabled (a : Action) (d : Downloader) : Prop :=
  match a with
  | AStart _ _ _ jobId => jobs d !! jobId = None
  | _ => True
  end.

Inductive reachable {host : Host} : Downloader -> Prop :=
  | reachable_new path maxConc ffmpeg : reachable (newDownloader path maxConc ffmpeg)
  | reachable_step d a : reachable d -> enabled a d -> reachable (perform a d).

Definition eventsOf (jobId : jsstring) (evs : list Event) : list Event :=
  List.filter (fun e => jsstring_eqb (eventJob e) jobId) evs.

Definition requestsOf (jobId : jsstring) (rs : list Request) : list Request :=
  List.filter (fun r => jsstring_eqb (requestJob r) jobId) rs.

(** How the application wires the sinks to the extension (main/index.ts):
    the status a forwarded event carries. *)
Definition forwardedStatus (e : Event) : option DownloadStatus :=
  match e with
  | EvProgress _ _ => Some Downloading
  | _ => None
  end.

(** * Statements

    What the properties below are stated with: the claims as the
    specification words them, the shapes of inputs and the runs they are
    tried on. *)

(** ** The native-messaging host *)

(** What the loop does with one complete frame of body [body]. *)
Definition afterFrame (thr : JSON -> bool) (body : list byte) (h : NativeMessagingHost)
    (rest : list byte) : NativeMessagingHost :=
  match JSON_parse (bufferText body) with
  | Some message =>
      {| running := running h; buffer := rest; handled := handled h ++ [message];
         reported := if thr message then S (reported h) else reported h |}
  | None =>
      {| running := running h; buffer := rest; handled := handled h;
         reported := S (reported h) |}
  end.

Definition withBuffer (b : list byte) (h : NativeMessagingHost) : NativeMessagingHost :=
  {| running := running h; buffer := b; handled := handled h; reported := reported h |}.

(** The loop stops at once on a buffer that holds no complete frame. *)
Definition incomplete (b : list byte) : Prop :=
  match b with
  | b0 :: b1 :: b2 :: b3 :: rest => (length rest < N.to_nat (readUInt32LE b0 b1 b2 b3))%nat
  | _ => True
  end.

(** A frame above one mebibyte: the digit 1 followed by 2^20 spaces, which
    is valid JSON. *)
Definition paddedOne (n : nat) : list byte := x31 :: replicate n x20.

Definition oversizeBody : list byte := paddedOne (N.to_nat 1048576).

Definition idleHost : NativeMessagingHost :=
  {| running := true; buffer := []; handled := []; reported := 0 |}.

(** The claim of a size limit, as the specification words it: a frame whose
    declared length exceeds one mebibyte is not given to the handler and an
    error is reported. *)
Definition oversizeDiscarded (thr : JSON -> bool) (h : NativeMessagingHost)
    (body : list byte) : Prop :=
  1048576 < N.of_nat (length body) ->
  handled (handleData thr h (frameOf body)) = handled h
  /\ reported (handleData thr h (frameOf body)) = S (reported h).

Definition bytesOf (s : jsstring) : list byte := map byteOfN s.

(** The frames of scenario 6: the body [PING0], then a PING message. *)
Definition ping0Body : list byte := bytesOf (js "PING0").

Definition pingBody : list byte :=
  bytesOf (js "{" ++ [34] ++ js "type" ++ [34] ++ js ":" ++ [34] ++ js "PING" ++ [34]
           ++ js "," ++ [34] ++ js "timestamp" ++ [34] ++ js ":1}").

Definition pingMessage : JSON :=
  JObject [(js "type", JString (js "PING")); (js "timestamp", JNumber (js "1"))].

(** ** Protection of HLS playlists *)




(** The host of the concrete runs below, as Node is for them: no
    [DOMParser]; [path.join] of a directory and a file name.  Its [URL]
    constructor gives no result, after which [resolveUrl] returns the
    reference as it is; the concrete manifests use absolute URLs in normal
    form only, for which that is also the [href] of the real constructor. *)
Definition plainHost : Host :=
  {| URL_href := fun _ _ => None;
     DOMParser_parse := None;
     path_join := fun dir name => dir ++ js "/" ++ name |}.

Definition lf : jsstring := [10].







(** ** Ordering of variants and representations *)

(** [a >= b] on numbers, as JavaScript compares them: false when either
    side is [NaN]. *)
Definition jsge (a b : jsnum) : Prop :=
  match a, b with
  | Num x, Num y => (y <= x)%Z
  | _, _ => False
  end.

Definition descendingBy {A : Type} (key : A -> jsnum) (l : list A) : Prop :=
  StronglySorted (fun a b => jsge (key a) (key b)) l.

Definition ascendingBy {A : Type} (key : A -> jsnum) (l : list A) : Prop :=
  StronglySorted (fun a b => jsge (key b) (key a)) l.

Definition numeric (v : jsnum) : Prop := v <> NaN.

(** A master manifest whose second variant has a BANDWIDTH that is not a
    number. *)
Definition masterWithBadBandwidth : jsstring :=
  js "#EXTM3U" ++ lf
  ++ js "#EXT-X-STREAM-INF:BANDWIDTH=1" ++ lf ++ js "http://cdn/a.m3u8" ++ lf
  ++ js "#EXT-X-STREAM-INF:BANDWIDTH=abc" ++ lf ++ js "http://cdn/b.m3u8" ++ lf
  ++ js "#EXT-X-STREAM-INF:BANDWIDTH=2" ++ lf ++ js "http://cdn/c.m3u8" ++ lf.

Definition variantBandwidths {host : Host} (content baseUrl : jsstring) : option (list jsnum) :=
  match parseHLSManifest content baseUrl with
  | Ok (Master m) => Some (map v_bandwidth (variants m))
  | _ => None
  end.

Definition representationElement (id bandwidth : string) : Node :=
  Elem (js "Representation") [(js "id", js id); (js "bandwidth", js bandwidth)] [].

(** A video adaptation set whose second representation has a bandwidth
    that is not a number. *)
Definition adaptationWithBadBandwidth : Node :=
  Elem (js "AdaptationSet") [(js "mimeType", js "video/mp4")]
    [representationElement "a" "1"; representationElement "b" "abc";
     representationElement "c" "2"].

(** The same three representations in an audio adaptation set. *)
Definition audioWithBadBandwidth : Node :=
  Elem (js "AdaptationSet") [(js "mimeType", js "audio/mp4")]
    [representationElement "a" "2"; representationElement "b" "abc";
     representationElement "c" "1"].

Definition byKeyDesc {A : Type} (key : A -> jsnum) (a b : A) : jsnum :=
  jssub (key b) (key a).

Definition byKeyAsc {A : Type} (key : A -> jsnum) (a b : A) : jsnum :=
  jssub (key a) (key b).

(** ** Segment addresses *)

(** The sum of two numbers as the specification means it, without
    rounding. *)
Definition plus (a b : jsnum) : jsnum :=
  match a, b with
  | Num x, Num y => Num (x + y)
  | _, _ => NaN
  end.

(** [t] advanced [k] times by [d]. *)
Definition advance (k : nat) (t d : jsnum) : jsnum := Nat.iter k (fun x => plus x d) t.

(** An integer up to 2^53 in absolute value: a double, printed by
    [String] with all its digits.  ([NaN] is as in the code.) *)
Definition safeInteger (v : jsnum) : Prop :=
  match v with
  | Num z => (Z.abs z <= 2 ^ 53)%Z
  | NaN => True
  end.

(** As the specification words it: the [S] entries are
    iterated with a running time, reset by an explicit [t], and a running
    number; each entry contributes [repeat + 1] segments and each segment
    advances the time by [d].  The result lists the number and the time of
    every segment. *)
Fixpoint timelinePlan (number time : jsnum) (timeline : list DASHSegmentTimeline)
    : list (jsnum * jsnum) :=
  match timeline with
  | [] => []
  | s :: rest =>
      let t0 := default time (tl_start s) in
      let n := repeatCount s in
      map (fun k => (plus number (Num (Z.of_nat k)), advance k t0 (tl_duration s))) (seq 0 n)
      ++ timelinePlan (plus number (Num (Z.of_nat n))) (advance n t0 (tl_duration s)) rest
  end.

(** Every running number and every running time of the plan is a safe
    integer. *)
Fixpoint safeTimeline (number time : jsnum) (timeline : list DASHSegmentTimeline) : Prop :=
  match timeline with
  | [] => True
  | s :: rest =>
      let t0 := default time (tl_start s) in
      let n := repeatCount s in
      (forall k, (k <= n)%nat ->
         safeInteger (plus number (Num (Z.of_nat k)))
         /\ safeInteger (advance k t0 (tl_duration s)))
      /\ safeTimeline (plus number (Num (Z.of_nat n))) (advance n t0 (tl_duration s)) rest
  end.

(** The URL of the segment with a given number and time. *)
Definition segmentUrl {host : Host} (representation : DASHRepresentation)
    (template : DASHSegmentTemplate) (baseUrl : jsstring) (nt : jsnum * jsnum) : jsstring :=
  resolveUrl (replaceVars (t_media template) (segmentVars representation (fst nt) (snd nt)))
    (strOr (r_baseUrl representation) baseUrl).

(** A media pattern cut into pieces: literal text, an identifier between
    dollar signs, an identifier with a width. *)
Inductive Piece : Type :=
  | Lit (text : jsstring)
  | Plain (key : jsstring)
  | Padded (key width : jsstring).

Definition render (p : Piece) : jsstring :=
  match p with
  | Lit t => t
  | Plain k => 36 :: k ++ [36]
  | Padded k w => 36 :: (k ++ 37 :: w ++ [100]) ++ [36]
  end.

Definition renderAll (ps : list Piece) : jsstring := flat_map render ps.

Definition varValue (vars : list (jsstring * jsstring)) (key : jsstring) : jsstring :=
  match List.find (fun kv => jsstring_eqb (fst kv) key) vars with
  | Some kv => snd kv
  | None => []
  end.

(** As the specification words it: an identifier stands for its
    value, an identifier with a width for its value padded with zeros to that
    many digits. *)
Definition expandPiece (vars : list (jsstring * jsstring)) (p : Piece) : jsstring :=
  match p with
  | Lit t => t
  | Plain k => varValue vars k
  | Padded k w => padStart (parseInt10 w) (varValue vars k)
  end.

Definition segmentKeys : list jsstring :=
  [js "RepresentationID"; js "Number"; js "Time"; js "Bandwidth"].

(** The first letter of an identifier. *)
Definition startsKey (c : N) : bool := (c =? 82) || (c =? 78) || (c =? 84) || (c =? 66).

Definition dollarFree (s : jsstring) : Prop := Forall (fun c => c <> 36) s.

Definition pieceOk (p : Piece) : Prop :=
  match p with
  | Lit t => dollarFree t
  | Plain k => k ∈ segmentKeys
  | Padded k w => k ∈ segmentKeys /\ w <> [] /\ Forall (fun c => isDigit c = true) w
  end.

Definition isLit (p : Piece) : bool :=
  match p with
  | Lit _ => true
  | _ => false
  end.

(** A text that does not begin like an identifier: it is empty, or its
    first unit is none of R, N, T and B. *)
Definition headOk (s : jsstring) : Prop :=
  match s with
  | [] => True
  | c :: _ => startsKey c = false
  end.

(** Of the text a list of pieces stands for: what follows an identifier
    does not begin like an identifier. *)
Fixpoint separated (ps : list Piece) : Prop :=
  match ps with
  | [] => True
  | p :: rest => (isLit p = false -> headOk (renderAll rest)) /\ separated rest
  end.

(** Of a pattern and its expansion: after every identifier of the pattern,
    the expansion of the rest of the pattern does not begin like an
    identifier.  (So two identifiers may stand side by side when the value of
    the second one begins with a digit, say.) *)
Fixpoint separatedFor (vars : list (jsstring * jsstring)) (ps : list Piece) : Prop :=
  match ps with
  | [] => True
  | p :: rest =>
      (isLit p = false -> headOk (flat_map (expandPiece vars) rest))
      /\ separatedFor vars rest
  end.

Definition wellFormedPattern (vars : list (jsstring * jsstring)) (ps : list Piece) : Prop :=
  Forall pieceOk ps /\ separatedFor vars ps.

(** A piece at some stage of the expansion: as it is in the pattern, or an
    identifier with its value in its place. *)
Definition stageOf (vars : list (jsstring * jsstring)) (p q : Piece) : Prop :=
  q = p \/ (isLit p = false /\ q = Lit (expandPiece vars p)).

(** The representation and the pattern of scenario 4, with the address of
    the server written out in the pattern. *)
Definition scenarioRepresentation : DASHRepresentation :=
  {| r_id := js "v1"; r_bandwidth := Num 800000; r_width := None; r_height := None;
     r_frameRate := None; r_codecs := None; r_mimeType := None; r_baseUrl := None;
     r_segmentTemplate :=
       Some {| t_media := js "http://cdn/v_$RepresentationID$_$Number%05d$.m4s";
               t_initialization := None; t_startNumber := Num 1; t_timescale := Num 1;
               t_duration := None;
               t_timeline := Some [{| tl_start := None; tl_duration := Num 100;
                                      tl_repeat := Some (Num 2) |}] |};
     r_segmentList := None |}.

Definition scenarioPieces : list Piece :=
  [Lit (js "http://cdn/v_"); Plain (js "RepresentationID"); Lit (js "_");
   Padded (js "Number") (js "05"); Lit (js ".m4s")].

(** A pattern in which two identifiers stand side by side. *)
Definition adjacentTemplate : DASHSegmentTemplate :=
  {| t_media := js "http://cdn/$RepresentationID$/$Number%03d$$Time$.m4s";
     t_initialization := None; t_startNumber := Num 1; t_timescale := Num 1;
     t_duration := None;
     t_timeline := Some [{| tl_start := None; tl_duration := Num 100;
                            tl_repeat := None |}] |}.

Definition adjacentRepresentation : DASHRepresentation :=
  {| r_id := js "v1"; r_bandwidth := Num 800000; r_width := None; r_height := None;
     r_frameRate := None; r_codecs := None; r_mimeType := None; r_baseUrl := None;
     r_segmentTemplate := Some adjacentTemplate; r_segmentList := None |}.

Definition adjacentPieces : list Piece :=
  [Lit (js "http://cdn/"); Plain (js "RepresentationID"); Lit (js "/");
   Padded (js "Number") (js "03"); Plain (js "Time"); Lit (js ".m4s")].

Definition body (p : Piece) : jsstring :=
  match p with
  | Lit _ => []
  | Plain k => k
  | Padded k w => k ++ 37 :: w ++ [100]
  end.

Definition keyLike (k : jsstring) : Prop :=
  (exists c t, k = c :: t /\ startsKey c = true)
  /\ Forall (fun c => c <> 36) k /\ Forall (fun c => c <> 37) k.

Definition passPiece (target : Piece -> option jsstring) (p : Piece) : Piece :=
  match target p with
  | Some e => Lit e
  | None => p
  end.

Definition plainTarget (key value : jsstring) (p : Piece) : option jsstring :=
  match p with
  | Plain k => if jsstring_eqb k key then Some value else None
  | _ => None
  end.

Definition paddedTarget (key value : jsstring) (p : Piece) : option jsstring :=
  match p with
  | Padded k w => if jsstring_eqb k key then Some (padStart (parseInt10 w) value) else None
  | _ => None
  end.

(** The four rounds of [replaceVars], piece by piece. *)
Definition expandRounds (vars : list (jsstring * jsstring)) (p : Piece) : Piece :=
  fold_left (fun q kv => passPiece (paddedTarget (fst kv) (snd kv))
                           (passPiece (plainTarget (fst kv) (snd kv)) q)) vars p.

Definition scenarioTemplate : DASHSegmentTemplate :=
  {| t_media := js "http://cdn/v_$RepresentationID$_$Number%05d$.m4s";
     t_initialization := None; t_startNumber := Num 1; t_timescale := Num 1;
     t_duration := None;
     t_timeline := Some [{| tl_start := None; tl_duration := Num 100;
                            tl_repeat := Some (Num 2) |}] |}.

(** ** The downloader *)

(** [processQueue] has nothing to call back: the state right after a task
    has run to its next [await] or to its end. *)
Definition noCallback (d : Downloader) : Downloader := d.

(** One round of the loop of [processQueue]: the head of the queue is
    shifted and executed. *)
Inductive qstep {host : Host} : Downloader -> Downloader -> Prop :=
  | qstep_execute d jobId rest :
      queue d = jobId :: rest ->
      (activeDownloads d < maxConcurrent d)%Z ->
      qstep d (executeDownload noCallback jobId (shiftQueue rest d)).

(** The first two statements of [startDownload]: the job is stored and
    queued. *)
Definition enqueue (s : DetectedStream) (quality : VideoQuality) (audio : option AudioTrack)
    (jobId : jsstring) (d : Downloader) : Downloader :=
  {| downloadPath := downloadPath d; maxConcurrent := maxConcurrent d;
     ffmpegAvailable := ffmpegAvailable d;
     jobs := <[jobId := {| job_id := jobId; stream := s; selectedQuality := quality;
                           selectedAudio := audio; status := Pending;
                           progress := {| downloadedBytes := 0; currentSegment := None;
                                          totalSegments := None |};
                           outputPath := None; error := None |}]> (jobs d);
     activeDownloads := activeDownloads d; queue := queue d ++ [jobId];
     abortControllers := abortControllers d; tasks := tasks d;
     listeners := listeners d; requests := requests d; events := events d |}.

(** [executeDownload] before its [try] block: the job is counted, marked
    and given a controller. *)
Definition begun (jobId : jsstring) (d : Downloader) : Downloader :=
  {| downloadPath := downloadPath d; maxConcurrent := maxConcurrent d;
     ffmpegAvailable := ffmpegAvailable d;
     jobs := alter (withStatus Downloading) jobId (jobs d);
     activeDownloads := activeDownloads d + 1; queue := queue d;
     abortControllers := {[jobId]} ∪ abortControllers d; tasks := tasks d;
     listeners := listeners d; requests := requests d; events := events d |}.

(** [downloadStream.on('downloadProgress', ...)]. *)
Definition addListener (jobId : jsstring) (d : Downloader) : Downloader :=
  {| downloadPath := downloadPath d; maxConcurrent := maxConcurrent d;
     ffmpegAvailable := ffmpegAvailable d; jobs := jobs d;
     activeDownloads := activeDownloads d; queue := queue d;
     abortControllers := abortControllers d; tasks := tasks d;
     listeners := {[jobId]} ∪ listeners d; requests := requests d; events := events d |}.

(** The elementary changes of a downloader. *)
Inductive astep {host : Host} : Downloader -> Downloader -> Prop :=
  | astep_queue d d' : qstep d d' -> astep d d'
  | astep_enqueue d s quality audio jobId :
      jobs d !! jobId = None -> astep d (enqueue s quality audio jobId d)
  | astep_cancel d jobId : astep d (cancelDownload jobId d)
  | astep_resume d jobId r : astep d (resume noCallback jobId r d)
  | astep_progress d jobId n : astep d (downloadProgress jobId n d)
  | astep_path d p : astep d (setDownloadPath p d).

Definition noTerminal (l : list Event) : Prop := Forall (fun e => isTerminal e = false) l.

(** No event follows a terminal one. *)
Definition traceShape (l : list Event) : Prop :=
  forall l1 e l2, l = l1 ++ e :: l2 -> isTerminal e = true -> l2 = [].

Definition terminalCount (l : list Event) : nat :=
  length (List.filter isTerminal l).

(** What holds of every state a downloader can reach. *)
Record Inv (d : Downloader) : Prop := {
  inv_nodup : NoDup (queue d);
  inv_queue : forall jobId, jobId ∈ queue d ->
    (exists job, jobs d !! jobId = Some job /\ status job = Pending)
    /\ tasks d !! jobId = None
    /\ eventsOf jobId (events d) = [];
  inv_pending : forall jobId job,
    jobs d !! jobId = Some job -> status job = Pending -> jobId ∈ queue d;
  inv_task : forall jobId t, tasks d !! jobId = Some t ->
    (exists job, jobs d !! jobId = Some job
                 /\ status job <> Pending /\ status job <> Completed
                 /\ status job <> Failed)
    /\ noTerminal (eventsOf jobId (events d));
  inv_ctrl : forall jobId, jobId ∈ abortControllers d -> is_Some (tasks d !! jobId);
  inv_listen : forall jobId, jobId ∈ listeners d ->
    exists job, jobs d !! jobId = Some job /\ st_type (stream job) = TyDirect
                /\ status job <> Pending;
  inv_events : forall e, e ∈ events d -> is_Some (jobs d !! eventJob e);
  inv_shape : forall jobId, jobId ∉ listeners d -> traceShape (eventsOf jobId (events d));
  inv_once : forall jobId, (terminalCount (eventsOf jobId (events d)) <= 1)%nat;
  inv_final : forall jobId job, jobs d !! jobId = Some job -> jobId ∉ listeners d ->
    (status job = Completed ->
       exists o, last (eventsOf jobId (events d)) = Some (EvComplete jobId o))
    /\ (status job = Failed ->
       exists m, last (eventsOf jobId (events d)) = Some (EvError jobId m)
                 /\ error job = Some m);
}.

(** A call either suspends the task, and then [processQueue] is not called
    and neither the queue nor the count of active downloads changes, or ends
    it, and then [processQueue] is called last. *)
Definition callbackCases (pq : Downloader -> Downloader) (d r0 r : Downloader) : Prop :=
  (r = r0 /\ queue r0 = queue d /\ activeDownloads r0 = activeDownloads d
   /\ maxConcurrent r0 = maxConcurrent d)
  \/ r = pq r0.

Definition slotOrEmpty (d : Downloader) : Prop :=
  (activeDownloads d < maxConcurrent d)%Z -> queue d = [].

(** A downloader in which [jobId] is a task. *)
Definition Live (jobId : jsstring) (d : Downloader) : Prop :=
  Inv d /\ is_Some (tasks d !! jobId).

(** The part of a downloader that belongs to one job. *)
Definition sameJob (jobId : jsstring) (d d' : Downloader) : Prop :=
  jobs d' !! jobId = jobs d !! jobId
  /\ tasks d' !! jobId = tasks d !! jobId
  /\ eventsOf jobId (events d') = eventsOf jobId (events d)
  /\ requestsOf jobId (requests d') = requestsOf jobId (requests d).


(** *** Runs *)

Definition hd720 : VideoQuality :=
  {| q_width := Num 1280; q_height := Num 720; q_label := js "720p" |}.

(** An HLS stream that the detector marked as protected by DRM. *)
Definition drmStream : DetectedStream :=
  {| st_id := js "s1"; st_url := js "http://cdn/master.m3u8"; st_type := TyHls;
     st_protection := ProtDrm; st_qualities := [hd720]; st_audioTracks := [];
     st_pageUrl := js "http://site/watch"; st_pageTitle := js "clip" |}.

Definition clearStream : DetectedStream :=
  {| st_id := js "s2"; st_url := js "http://cdn/media.m3u8"; st_type := TyHls;
     st_protection := ProtNone; st_qualities := [hd720]; st_audioTracks := [];
     st_pageUrl := js "http://site/watch"; st_pageTitle := js "clip" |}.

Definition twoSegments : jsstring :=
  js "#EXTM3U" ++ lf ++ js "#EXTINF:10," ++ lf ++ js "http://cdn/s0.ts" ++ lf
  ++ js "#EXTINF:10," ++ lf ++ js "http://cdn/s1.ts" ++ lf.

Definition run {host : Host} (actions : list Action) (d : Downloader) : Downloader :=
  fold_left (fun d a => perform a d) actions d.

Fixpoint enabledRun {host : Host} (actions : list Action) (d : Downloader) : Prop :=
  match actions with
  | [] => True
  | a :: rest => enabled a d /\ enabledRun rest (perform a d)
  end.

Definition freshDownloader : Downloader := newDownloader (js "/downloads") 3 true.

(** A job that waits for its first segment: the manifest and the playlist
    have been read and the scratch directory made. *)
Definition atFirstSegment : Downloader :=
  run (host := plainHost) [AStart clearStream hd720 None (js "job1");
       AResume (js "job1") (Ok twoSegments);
       AResume (js "job1") (Ok twoSegments);
       AResume (js "job1") (Ok [])] freshDownloader.

(** A job that is cancelled while its manifest is awaited; the request is
    then rejected with an abort error. *)
Definition cancelledJob : Downloader :=
  run (host := plainHost) [AStart clearStream hd720 None (js "job1");
       ACancel (js "job1");
       AResume (js "job1") (Throw (js "AbortError") (js "This operation was aborted"))]
    freshDownloader.

(** Two jobs in a downloader with one slot: the second one is pending. *)
Definition secondPending : Downloader :=
  run (host := plainHost) [AStart clearStream hd720 None (js "job1");
       AStart clearStream hd720 None (js "job2")]
    (newDownloader (js "/downloads") 1 true).

(** *** The claims as the specification words them *)

(** A stream marked as DRM is refused: the job is failed with an error and
    nothing is requested for it. *)
Definition refusesDRM {host : Host} (d : Downloader) (s : DetectedStream)
    (quality : VideoQuality) (audio : option AudioTrack) (jobId : jsstring) : Prop :=
  st_protection s = ProtDrm ->
  let d' := startDownload s quality audio jobId d in
  statusOf d' jobId = Some Failed
  /\ (exists m, error <$> jobs d' !! jobId = Some (Some m))
  /\ requestsOf jobId (requests d') = [].


(** The last event of a cancelled job is forwarded with the status
    cancelled. *)
Definition cancelledReported (d : Downloader) (jobId : jsstring) : Prop :=
  statusOf d jobId = Some Cancelled ->
  exists e, last (eventsOf jobId (events d)) = Some e
            /\ forwardedStatus e = Some Cancelled.

(** ** The native-messaging host: a stream of frames *)

(** The messages of the bodies that are valid JSON, in order. *)
Definition parsedBodies (bodies : list (list byte)) : list JSON :=
  omap (fun body => JSON_parse (bufferText body)) bodies.

(** Whether the [catch] block runs for a body: its text is not valid JSON,
    or the handler throws on its message. *)
Definition bodyFails (thr : JSON -> bool) (body : list byte) : bool :=
  match JSON_parse (bufferText body) with
  | Some message => thr message
  | None => true
  end.

Definition fitsPrefix (body : list byte) : Prop := N.of_nat (length body) < 4294967296.

(** ** File names *)

(** Every white-space unit is a space, and is followed by a unit that is
    not white space (or by nothing). *)
Fixpoint singleSpaces (s : jsstring) : Prop :=
  match s with
  | [] => True
  | c :: s' =>
      (isWhiteSpace c = true ->
         c = 32 /\ match s' with
                   | d :: _ => isWhiteSpace d = false
                   | [] => True
                   end)
      /\ singleSpaces s'
  end.

Definition noForbidden (s : jsstring) : Prop :=
  Forall (fun c => isForbiddenInName c = false) s.

Definition noLeadingSpace (s : jsstring) : Prop :=
  match s with
  | c :: _ => isWhiteSpace c = false
  | [] => True
  end.

Definition noTrailingSpace (s : jsstring) : Prop :=
  match last s with
  | Some c => isWhiteSpace c = false
  | None => True
  end.

(** ** Media playlists: segments and keys *)

(** A line of a media playlist that is taken for the address of a segment. *)
Definition isUriLine (line : jsstring) : bool :=
  negb (startsWith line (js "#")) && negb (jsstring_eqb line []).

Definition isKeyLine (line : jsstring) : bool := startsWith line (js "#EXT-X-KEY:").

(** The key of the last key line among [lines], if any. *)
Definition keyInForce {host : Host} (baseUrl : jsstring) (lines : list jsstring)
    : option HLSKey :=
  keyOfLine baseUrl <$> last (List.filter isKeyLine lines).

(** The state of the loop of [parseMediaPlaylist] after [lines]. *)
Definition mediaLoop {host : Host} (baseUrl : jsstring) (lines : list jsstring) : MediaState :=
  fold_left (fun st line => mediaLine baseUrl line st) lines
    {| ms_segments := []; ms_targetDuration := Num 0; ms_isDRM := false;
       ms_currentKey := None; ms_segmentDuration := js "0" |}.

(** ** Attribute lists *)

(** How a value is written in an attribute list. *)
Inductive AttrValue : Type :=
  | Bare (v : jsstring)
  | Quoted (v : jsstring).

Definition attrText (v : AttrValue) : jsstring :=
  match v with
  | Bare t => t
  | Quoted t => t
  end.

Definition renderAttr (kv : jsstring * AttrValue) : jsstring :=
  match kv with
  | (k, Bare t) => k ++ [61] ++ t
  | (k, Quoted t) => k ++ [61] ++ [34] ++ t ++ [34]
  end.

(** The attributes, separated by commas. *)
Fixpoint renderAttrs (l : list (jsstring * AttrValue)) : jsstring :=
  match l with
  | [] => []
  | [kv] => renderAttr kv
  | kv :: rest => renderAttr kv ++ [44] ++ renderAttrs rest
  end.

(** A key is a non-empty run of capitals and hyphens; a bare value is
    non-empty, has no comma and does not start with a quote; a quoted value
    is non-empty and has no quote. *)
Definition wellFormedAttr (kv : jsstring * AttrValue) : Prop :=
  fst kv <> [] /\ Forall (fun c => isAttrKeyChar c = true) (fst kv)
  /\ match snd kv with
     | Bare t => t <> [] /\ head t <> Some 34 /\ Forall (fun c => c <> 44) t
     | Quoted t => t <> [] /\ Forall (fun c => c <> 34) t
     end.

(** [attrs[key] = value] for every attribute, in order. *)
Definition assignAttrs (l : list (jsstring * AttrValue)) (attrs : gmap jsstring jsstring)
    : gmap jsstring jsstring :=
  fold_left (fun m kv => <[fst kv := attrText (snd kv)]> m) l attrs.

(** ** Line ends *)

(** The text with a carriage return put before every line feed. *)
Fixpoint withCarriageReturns (s : jsstring) : jsstring :=
  match s with
  | [] => []
  | c :: s' =>
      if c =? 10 then 13 :: 10 :: withCarriageReturns s'
      else c :: withCarriageReturns s'
  end.

(** The same line, or the line with a carriage return at its end. *)
Definition sameLine (a b : jsstring) : Prop := a = b \/ a = b ++ [13].

(** ** Audio renditions *)

(** [hlsAudioGroupsToTracks]: the tracks of every group, group after
    group. *)
Definition hlsAudioGroupsToTracks (groups : list (jsstring * list HLSAudioGroup))
    : list AudioTrack :=
  flat_map (fun entry => map (fun track => {| a_language := g_language track;
                                              a_label := g_name track |})
                             (snd entry)) groups.

(** A line of a master manifest that declares an audio rendition. *)
Definition isAudioLine (line : jsstring) : bool :=
  startsWith line (js "#EXT-X-MEDIA:")
  && attrIs (parseAttributes (slice_from 13 line)) "TYPE" (js "AUDIO").

(** The track that comes of such a line. *)
Definition trackOfLine (line : jsstring) : AudioTrack :=
  let attrs := parseAttributes (slice_from 13 line) in
  {| a_language := attrOr attrs "LANGUAGE" (js "und");
     a_label := attrOr attrs "NAME" (js "Audio") |}.

(** ** Protection of DASH manifests *)

(** The three scheme identifiers [getDASHProtection] knows: Widevine,
    PlayReady and FairPlay. *)
Definition knownScheme (cp : DASHContentProtection) : bool :=
  jsstring_eqb (cp_schemeIdUri cp) (js "urn:uuid:edef8ba9-79d6-4ace-a3c8-27dcd51d21ed")
  || jsstring_eqb (cp_schemeIdUri cp) (js "urn:uuid:9a04f079-9840-4286-ab92-e65be0885f95")
  || jsstring_eqb (cp_schemeIdUri cp) (js "urn:uuid:94ce86fb-07ff-4f43-adb8-93d2fa968ca2").

Definition getDASHProtection (manifest : DASHManifest) : StreamProtection :=
  if mpd_isDRM manifest then ProtDrm
  else if existsb (fun a => existsb knownScheme (contentProtection a))
                  (adaptationSets manifest)
  then ProtDrm
  else ProtNone.

(** The [AdaptationSet] elements the parser visits: those of every
    [Period], period after period. *)
Definition adaptationSetElements (doc : list Node) : list Node :=
  flat_map (fun period => querySelectorAll period "AdaptationSet")
           (docQuerySelectorAll doc "Period").

Definition hasContentProtection (element : Node) : bool :=
  bool_decide (querySelectorAll element "ContentProtection" <> []).

(** ** The downloader: slots, ended jobs, output paths *)

(** The count of active downloads is the number of tasks and stays within
    the limit. *)
Record Count (d : Downloader) : Prop := {
  count_tasks : activeDownloads d = Z.of_nat (size (tasks d));
  count_bound : (activeDownloads d <= Z.max 0 (maxConcurrent d))%Z;
}.

(** A job that has ended, or was cancelled before it began: it is in the
    job table, it is no task and it is not queued. *)
Definition over (d : Downloader) (jobId : jsstring) : Prop :=
  is_Some (jobs d !! jobId) /\ tasks d !! jobId = None /\ jobId ∉ queue d.

(** A job that is in the table and not pending. *)
Definition begunJob (table : gmap jsstring DownloadJob) (jobId : jsstring) : Prop :=
  exists job, table !! jobId = Some job /\ status job <> Pending.

(** Requests are made for jobs that have begun only. *)
Definition requestsBegun (d : Downloader) : Prop :=
  Forall (fun r => begunJob (jobs d) (requestJob r)) (requests d).

(** A complete event names the file that was written. *)
Definition completeWithPath (e : Event) : Prop :=
  match e with
  | EvComplete _ None => False
  | _ => True
  end.

(** ** The downloader: the course of a segmented download *)

(** The byte count of the last progress event, [start] when there is none. *)
Definition lastBytes (start : Z) (evs : list Event) : Z :=
  match last evs with
  | Some (EvProgress _ p) => downloadedBytes p
  | _ => start
  end.

(** Progress events of one job that count the segments up from [k], out of
    [total], with byte counts that never decrease from [prev]. *)
Fixpoint progressRun (jobId : jsstring) (total k : nat) (prev : Z) (evs : list Event) : Prop :=
  match evs with
  | [] => True
  | e :: rest =>
      exists bytes,
        e = EvProgress jobId {| downloadedBytes := bytes; currentSegment := Some k;
                                totalSegments := Some total |}
        /\ (prev <= bytes)%Z
        /\ progressRun jobId total (S k) bytes rest
  end.

Definition urlRequests (jobId : jsstring) (urls : list jsstring) : list Request :=
  map (Got jobId) urls.

Definition segmentRequests (jobId : jsstring) (segs : list HLSMediaSegment) : list Request :=
  urlRequests jobId (map s_uri segs).

(** What has been requested and reported for a job that waits for the
    segment at index [i] of [urls], after the requests [before]. *)
Definition loopCourse (jobId : jsstring) (before : list Request) (urls : list jsstring)
    (i : nat) (bytes : Z) (reqs : list Request) (evs : list Event) : Prop :=
  reqs = before ++ urlRequests jobId (take (S i) urls)
  /\ (i < length urls)%nat
  /\ length evs = i
  /\ progressRun jobId (length urls) 1 0 evs
  /\ lastBytes 0 evs = bytes.

(** The same once the loop is over: every segment has been requested, once
    and in order, and one progress event has been emitted for each. *)
Definition doneCourse (jobId : jsstring) (before : list Request) (urls : list jsstring)
    (reqs : list Request) (evs : list Event) : Prop :=
  reqs = before ++ urlRequests jobId urls
  /\ length evs = length urls
  /\ progressRun jobId (length urls) 1 0 evs.

(** What has been requested and reported for an HLS job whose merge is
    awaited. *)
Definition mergeCourse (jobId url : jsstring) (reqs : list Request) (evs : list Event)
    : Prop :=
  exists v segs,
    doneCourse jobId [Got jobId url; Got jobId v] (map s_uri segs) reqs evs.

(** What has been requested and reported for an HLS job whose task waits
    at [k]. *)
Definition hlsCourse (jobId url : jsstring) (k : Task) (reqs : list Request)
    (evs : list Event) : Prop :=
  match k with
  | HlsManifest => reqs = [Got jobId url] /\ evs = []
  | HlsPlaylist v => reqs = [Got jobId url; Got jobId v] /\ evs = []
  | HlsMkdir _ => (exists v, reqs = [Got jobId url; Got jobId v]) /\ evs = []
  | HlsSegment segs i bytes | HlsWrite segs i bytes _ =>
      exists v, loopCourse jobId [Got jobId url; Got jobId v] (map s_uri segs) i bytes reqs evs
  | HlsMerge _ | HlsConcat _ | HlsCleanup _ => mergeCourse jobId url reqs evs
  | _ => True
  end.

(** What has been requested and reported for a DASH job whose task waits
    at [k], where there is no [DOMParser]: the task waits for the manifest,
    which is all that has been requested. *)
Definition dashCourse (jobId url : jsstring) (k : Task) (reqs : list Request)
    (evs : list Event) : Prop :=
  k = DashManifest /\ reqs = [Got jobId url] /\ evs = [].

(** The course holds of the job [jobId], when it is a task of a stream of
    type [ty]. *)
Definition jobShape (ty : StreamType)
    (course : jsstring -> jsstring -> Task -> list Request -> list Event -> Prop)
    (d : Downloader) (jobId : jsstring) : Prop :=
  forall job k aborted,
    jobs d !! jobId = Some job -> st_type (stream job) = ty ->
    tasks d !! jobId = Some (k, aborted) ->
    course jobId (st_url (stream job)) k
      (requestsOf jobId (requests d)) (eventsOf jobId (events d)).

Definition hlsShape (d : Downloader) (jobId : jsstring) : Prop :=
  jobShape TyHls hlsCourse d jobId.

Definition dashShape (d : Downloader) (jobId : jsstring) : Prop :=
  jobShape TyDash dashCourse d jobId.

(** *** Further runs *)

(** The job of [atFirstSegment] after its first segment, of four bytes, has
    been fetched and written: the second segment is awaited. *)
Definition atSecondSegment : Downloader :=
  run (host := plainHost) [AResume (js "job1") (Ok (js "aaaa"));
       AResume (js "job1") (Ok [])] atFirstSegment.

(** The same job after its second segment, of two bytes: the encoder is
    awaited. *)
Definition atMerge : Downloader :=
  run (host := plainHost) [AResume (js "job1") (Ok (js "bb"));
       AResume (js "job1") (Ok [])] atSecondSegment.

(** The same job after the merge and the removal of the scratch
    directory. *)
Definition completedJob : Downloader :=
  run (host := plainHost) [AResume (js "job1") (Ok []);
       AResume (js "job1") (Ok [])] atMerge.

(** The job of [atSecondSegment] after the request of its second segment
    has been rejected. *)
Definition failedJob : Downloader :=
  run (host := plainHost)
    [AResume (js "job1") (Throw (js "RequestError") (js "socket hang up"))] atSecondSegment.

Definition dashStream : DetectedStream :=
  {| st_id := js "s3"; st_url := js "http://cdn/manifest.mpd"; st_type := TyDash;
     st_protection := ProtNone; st_qualities := [hd720]; st_audioTracks := [];
     st_pageUrl := js "http://site/watch"; st_pageTitle := js "clip" |}.

(** A DASH job that has been started: its manifest is awaited. *)
Definition atDashManifest : Downloader :=
  run (host := plainHost) [AStart dashStream hd720 None (js "job1")] freshDownloader.

(** A master manifest with two variants, the lower bandwidth first. *)
Definition masterWithTwoVariants : jsstring :=
  js "#EXTM3U" ++ lf
  ++ js "#EXT-X-STREAM-INF:BANDWIDTH=1000" ++ lf ++ js "http://cdn/lo.m3u8" ++ lf
  ++ js "#EXT-X-STREAM-INF:BANDWIDTH=2000" ++ lf ++ js "http://cdn/hi.m3u8" ++ lf.

(** A video adaptation set with two representations, the lower bandwidth
    first. *)
Definition adaptationWithTwoBandwidths : Node :=
  Elem (js "AdaptationSet") [(js "mimeType", js "video/mp4")]
    [representationElement "a" "1000"; representationElement "b" "2000"].

(** A representation whose identifier is [a$&b] (in the document the
    ampersand is written as an entity), with a pattern of one identifier and
    a timeline of one segment. *)
Definition dollarRepresentation : DASHRepresentation :=
  {| r_id := js "a$&b"; r_bandwidth := Num 1000; r_width := None; r_height := None;
     r_frameRate := None; r_codecs := None; r_mimeType := None; r_baseUrl := None;
     r_segmentTemplate :=
       Some {| t_media := js "http://cdn/$RepresentationID$.m4s";
               t_initialization := None; t_startNumber := Num 1; t_timescale := Num 1;
               t_duration := None;
               t_timeline := Some [{| tl_start := None; tl_duration := Num 100;
                                      tl_repeat := None |}] |};
     r_segmentList := None |}.

(** The element that representation is parsed from. *)
Definition dollarElement : Node :=
  Elem (js "Representation") [(js "id", js "a$&b"); (js "bandwidth", js "1000")]
    [Elem (js "SegmentTemplate") [(js "media", js "http://cdn/$RepresentationID$.m4s")]
       [Elem (js "SegmentTimeline") [] [Elem (js "S") [(js "d", js "100")] []]]].

Definition dollarPieces : list Piece :=
  [Lit (js "http://cdn/"); Plain (js "RepresentationID"); Lit (js ".m4s")].

(** * Properties *)

(** ** The native-messaging host *)

Lemma byteOfN_to_N (n : N) : Byte.to_N (byteOfN n) = n mod 256.
Proof.
  unfold byteOfN.
  destruct (Byte.of_N (n mod 256)) as [b|] eqn:E.
  - simpl. by apply Byte.to_of_N.
  - apply Byte.of_N_None_iff in E.
    pose proof (N.mod_upper_bound n 256). lia.
Qed.

Lemma readUInt32LE_writeUInt32LE (n : N) :
  n < 4294967296 ->
  match writeUInt32LE n with
  | [b0; b1; b2; b3] => readUInt32LE b0 b1 b2 b3 = n
  | _ => False
  end.
Proof.
  intros Hn. unfold writeUInt32LE, readUInt32LE. rewrite !byteOfN_to_N.
  assert (H3 : (n / 16777216) mod 256 = n / 16777216).
  { apply N.mod_small. apply N.Div0.div_lt_upper_bound. lia. }
  rewrite H3.
  assert (D1 : n / 65536 = n / 256 / 256) by (by rewrite N.Div0.div_div).
  assert (D2 : n / 16777216 = n / 256 / 256 / 256) by (by rewrite !N.Div0.div_div).
  rewrite D1, D2.
  pose proof (N.Div0.div_mod n 256) as E0.
  pose proof (N.Div0.div_mod (n / 256) 256) as E1.
  pose proof (N.Div0.div_mod (n / 256 / 256) 256) as E2.
  lia.
Qed.

Section HostProps.
Variable thr : JSON -> bool.

Lemma handleData_withBuffer h data :
  handleData thr h data
  = handleData_loop thr (length (buffer h ++ data)) (withBuffer (buffer h ++ data) h).
Proof. reflexivity. Qed.

Lemma loop_frame (f : nat) h (body rest : list byte) :
  (N.of_nat (length body) < 4294967296) ->
  handleData_loop thr (S f) (withBuffer (frameOf body ++ rest) h)
  = handleData_loop thr f (afterFrame thr body h rest).
Proof.
  intros Hlen.
  pose proof (readUInt32LE_writeUInt32LE _ Hlen) as Hrw.
  unfold frameOf.
  destruct (writeUInt32LE (N.of_nat (length body))) as [|b0 [|b1 [|b2 [|b3 [|? ?]]]]];
    try done.
  cbn [handleData_loop withBuffer buffer app].
  rewrite Hrw, Nat2N.id.
  rewrite length_app.
  destruct (Nat.ltb_spec (length body + length rest) (length body)) as [?|_]; [lia|].
  rewrite take_app_length, drop_app_length.
  unfold afterFrame. cbn [running handled reported].
  by destruct (JSON_parse (bufferText body)).
Qed.

Lemma loop_incomplete f h :
  incomplete (buffer h) -> handleData_loop thr f h = h.
Proof.
  destruct f as [|f]; [done|].
  unfold incomplete. cbn [handleData_loop].
  destruct (buffer h) as [|b0 [|b1 [|b2 [|b3 rest]]]]; try done.
  intros H. apply Nat.ltb_lt in H. by rewrite H.
Qed.

(** One round of the loop uses up at least four bytes, so any fuel above
    the length of the buffer gives the same result. *)
Lemma loop_fuel (f1 f2 : nat) h :
  (length (buffer h) <= f1)%nat -> (length (buffer h) <= f2)%nat ->
  handleData_loop thr f1 h = handleData_loop thr f2 h.
Proof.
  revert f2 h. induction f1 as [|f1 IH]; intros f2 h H1 H2.
  - destruct (buffer h) eqn:E; [|simpl in H1; lia].
    destruct f2; [done|]. cbn [handleData_loop]. by rewrite E.
  - destruct f2 as [|f2].
    + destruct (buffer h) eqn:E; [|simpl in H2; lia].
      cbn [handleData_loop]. by rewrite E.
    + cbn [handleData_loop].
      destruct (buffer h) as [|b0 [|b1 [|b2 [|b3 rest]]]] eqn:E; try done.
      destruct (_ <? _)%nat eqn:Hlt; [done|].
      apply Nat.ltb_ge in Hlt. simpl in H1, H2.
      destruct (JSON_parse _); apply IH; cbn [buffer]; rewrite length_drop; lia.
Qed.

(** The buffer left by the loop holds no complete frame. *)
Lemma loop_leaves_incomplete f h :
  (length (buffer h) <= f)%nat -> incomplete (buffer (handleData_loop thr f h)).
Proof.
  revert h. induction f as [|f IH]; intros h Hf.
  - destruct (buffer h) eqn:E; [|simpl in Hf; lia]. simpl. by rewrite E.
  - cbn [handleData_loop].
    destruct (buffer h) as [|b0 [|b1 [|b2 [|b3 rest]]]] eqn:E;
      try (rewrite E; done).
    destruct (_ <? _)%nat eqn:Hlt.
    + rewrite E. simpl. by apply Nat.ltb_lt.
    + apply Nat.ltb_ge in Hlt. simpl in Hf.
      destruct (JSON_parse _); apply IH; cbn [buffer]; rewrite length_drop; lia.
Qed.

(** Feeding more bytes after the loop has run is the same as running the
    loop once on all the bytes. *)
Lemma loop_app f1 f2 f3 h (more : list byte) :
  (length (buffer h) <= f1)%nat ->
  (length (buffer (handleData_loop thr f1 h)) + length more <= f2)%nat ->
  (length (buffer h) + length more <= f3)%nat ->
  let h1 := handleData_loop thr f1 h in
  handleData_loop thr f2 (withBuffer (buffer h1 ++ more) h1)
  = handleData_loop thr f3 (withBuffer (buffer h ++ more) h).
Proof.
  revert f2 f3 h. induction f1 as [|f1 IH]; intros f2 f3 h H1 H2 H3; cbn zeta.
  - cbn [handleData_loop] in *.
    apply loop_fuel; cbn [withBuffer buffer]; rewrite length_app; lia.
  - cbn [handleData_loop] in *.
    destruct (buffer h) as [|b0 [|b1 [|b2 [|b3 rest]]]] eqn:E;
      try (rewrite E in *; apply loop_fuel; cbn [withBuffer buffer]; rewrite length_app;
           simpl in *; lia).
    destruct (_ <? _)%nat eqn:Hlt.
    + rewrite E in *. apply loop_fuel; cbn [withBuffer buffer]; rewrite length_app;
        simpl in *; lia.
    + apply Nat.ltb_ge in Hlt. simpl in H1, H3.
      destruct f3 as [|f3]; [lia|].
      cbn [handleData_loop withBuffer buffer app].
      rewrite length_app.
      destruct (Nat.ltb_spec (length rest + length more)
                  (N.to_nat (readUInt32LE b0 b1 b2 b3))) as [?|_]; [lia|].
      rewrite take_app_le, drop_app_le by lia.
      cbn [running handled reported].
      destruct (JSON_parse _) as [m|].
      * specialize (IH f2 f3
          {| running := running h; buffer := drop (N.to_nat (readUInt32LE b0 b1 b2 b3)) rest;
             handled := handled h ++ [m];
             reported := if thr m then S (reported h) else reported h |}).
        cbn [buffer withBuffer running handled reported] in IH.
        rewrite length_drop in IH. apply IH; lia.
      * specialize (IH f2 f3
          {| running := running h; buffer := drop (N.to_nat (readUInt32LE b0 b1 b2 b3)) rest;
             handled := handled h; reported := S (reported h) |}).
        cbn [buffer withBuffer running handled reported] in IH.
        rewrite length_drop in IH. apply IH; lia.
Qed.

Lemma withBuffer_id h : withBuffer (buffer h) h = h.
Proof. by destruct h. Qed.

Lemma loop_buffer_length f h :
  (length (buffer (handleData_loop thr f h)) <= length (buffer h))%nat.
Proof.
  revert h. induction f as [|f IH]; intros h; [done|].
  cbn [handleData_loop].
  destruct (buffer h) as [|b0 [|b1 [|b2 [|b3 rest]]]] eqn:E; try (rewrite E; done).
  destruct (_ <? _)%nat; [by rewrite E|].
  destruct (JSON_parse _);
    (etrans; [apply IH|]); cbn [buffer]; rewrite length_drop; simpl; lia.
Qed.

Lemma handleData_app h (c1 c2 : list byte) :
  handleData thr (handleData thr h c1) c2 = handleData thr h (c1 ++ c2).
Proof.
  rewrite (handleData_withBuffer (handleData thr h c1)).
  rewrite (handleData_withBuffer h (c1 ++ c2)).
  rewrite (handleData_withBuffer h c1).
  set (h0 := withBuffer (buffer h ++ c1) h).
  assert (Hb : buffer h ++ c1 ++ c2 = buffer h0 ++ c2) by (by rewrite app_assoc).
  rewrite Hb.
  assert (Hw : withBuffer (buffer h0 ++ c2) h = withBuffer (buffer h0 ++ c2) h0) by done.
  rewrite Hw.
  pose proof (loop_buffer_length (length (buffer h0)) h0) as Hlen.
  change (buffer h ++ c1) with (buffer h0).
  apply loop_app; rewrite ?length_app; lia.
Qed.

(** Chunking does not matter: what the host has done after a sequence of
    chunks is what it does on their concatenation. *)
Lemma handleData_chunks h (chunks : list (list byte)) :
  buffer h = [] ->
  fold_left (handleData thr) chunks h = handleData thr h (concat chunks).
Proof.
  intros Hb.
  assert (Hgen : forall cs acc,
             fold_left (handleData thr) cs (handleData thr h acc)
             = handleData thr h (acc ++ concat cs)).
  { induction cs as [|c cs IH]; intros acc; simpl.
    - by rewrite app_nil_r.
    - rewrite handleData_app. rewrite IH. by rewrite app_assoc. }
  assert (H0 : handleData thr h [] = h).
  { rewrite handleData_withBuffer, Hb. simpl. destruct h; simpl in *. by subst. }
  rewrite <- (Hgen chunks []) at 1. by rewrite H0.
Qed.

(** One complete frame, from an empty buffer. *)
Lemma handleData_frame h (body rest : list byte) :
  buffer h = [] -> N.of_nat (length body) < 4294967296 ->
  handleData thr h (frameOf body ++ rest)
  = handleData_loop thr (length rest) (afterFrame thr body h rest).
Proof.
  intros Hb Hlen. rewrite handleData_withBuffer, Hb. cbn [app].
  assert (Hl : exists f, length (frameOf body ++ rest) = S f) by
    (unfold frameOf, writeUInt32LE; simpl; eauto).
  destruct Hl as [f Hf]. rewrite Hf, loop_frame by done.
  apply loop_fuel.
  - assert (buffer (afterFrame thr body h rest) = rest) as ->
      by (unfold afterFrame; by destruct (JSON_parse _)).
    unfold frameOf, writeUInt32LE in Hf. simpl in Hf. rewrite length_app in Hf. lia.
  - assert (buffer (afterFrame thr body h rest) = rest) as ->
      by (unfold afterFrame; by destruct (JSON_parse _)).
    done.
Qed.
End HostProps.

Lemma skipWs_spaces (n : nat) : skipWs (replicate n 32) = [].
Proof. induction n as [|n IH]; [done|]. simpl. exact IH. Qed.

Lemma jsonValue_padded_one (f n : nat) :
  jsonValue (S f) (49 :: replicate n 32) = Some (JNumber [49], replicate n 32).
Proof. destruct n; reflexivity. Qed.

Lemma JSON_parse_padded_one (n : nat) :
  JSON_parse (49 :: replicate n 32) = Some (JNumber [49]).
Proof.
  unfold JSON_parse.
  match goal with |- context [jsonValue ?fuel _] => destruct fuel as [|f] eqn:E end;
    [lia|].
  rewrite jsonValue_padded_one, skipWs_spaces. reflexivity.
Qed.

Lemma paddedOne_text (n : nat) : bufferText (paddedOne n) = 49 :: replicate n 32.
Proof.
  unfold paddedOne, bufferText. rewrite map_cons. f_equal.
  induction n as [|n IH]; [done|]. simpl. by rewrite IH.
Qed.

Lemma paddedOne_length (n : nat) : N.of_nat (length (paddedOne n)) = N.succ (N.of_nat n).
Proof.
  unfold paddedOne. rewrite length_cons, length_replicate. apply Nat2N.inj_succ.
Qed.

Lemma paddedOne_parse (n : nat) : JSON_parse (bufferText (paddedOne n)) = Some (JNumber [49]).
Proof. rewrite paddedOne_text. apply JSON_parse_padded_one. Qed.

Lemma oversizeBody_length : N.of_nat (length oversizeBody) = 1048577.
Proof. unfold oversizeBody. rewrite paddedOne_length, N2Nat.id. reflexivity. Qed.

(** C4, as stated, fails: the host has no size limit, the frame
    [oversizeBody] of 1048577 bytes is parsed and given to the handler. *)
Lemma oversize_frame_is_delivered :
  ~ oversizeDiscarded (fun _ => false) idleHost oversizeBody.
Proof.
  assert (G : forall n, N.of_nat (length (paddedOne n)) < 4294967296 ->
                handled (handleData (fun _ => false) idleHost (frameOf (paddedOne n)))
                <> handled idleHost).
  { intros n Hn.
    pose proof (handleData_frame (fun _ => false) idleHost (paddedOne n) [] eq_refl Hn) as E.
    rewrite app_nil_r in E. rewrite E.
    unfold afterFrame. rewrite paddedOne_parse. cbn [length handleData_loop handled].
    discriminate. }
  intros H. destruct H as [H _].
  - rewrite oversizeBody_length. reflexivity.
  - revert H. apply G. fold oversizeBody. rewrite oversizeBody_length. reflexivity.
Qed.

(** C4 (amended): the decoder applies no size limit.  Every complete frame,
    whatever its declared length (the prefix allows up to 2^32 - 1 bytes), is
    cut out of the buffer and parsed; when the body is valid JSON the message
    is given to the handler, nothing is reported because of its size, and the
    host keeps running. *)
Theorem frame_of_any_length_is_handled (thr : JSON -> bool) (h : NativeMessagingHost)
    (body : list byte) (m : JSON) :
  buffer h = [] ->
  N.of_nat (length body) < 4294967296 ->
  JSON_parse (bufferText body) = Some m ->
  let h' := handleData thr h (frameOf body) in
  handled h' = handled h ++ [m]
  /\ buffer h' = []
  /\ running h' = running h
  /\ reported h' = (if thr m then S (reported h) else reported h).
Proof.
  intros Hb Hlen Hparse h'.
  pose proof (handleData_frame thr h body [] Hb Hlen) as E.
  rewrite app_nil_r in E. subst h'. rewrite E.
  unfold afterFrame. rewrite Hparse. simpl. done.
Qed.

Lemma frame_of_any_length_is_handled_witness :
  let h' := handleData (fun _ => false) idleHost (frameOf oversizeBody) in
  handled h' = handled idleHost ++ [JNumber [49]]
  /\ buffer h' = []
  /\ running h' = running idleHost
  /\ reported h' = reported idleHost.
Proof.
  apply (frame_of_any_length_is_handled (fun _ => false) idleHost oversizeBody (JNumber [49])).
  - reflexivity.
  - rewrite oversizeBody_length. reflexivity.
  - apply paddedOne_parse.
Defined.

(** C5: a complete frame whose body is not valid JSON is dropped, exactly
    its bytes are used up, and the host keeps reading: however the bytes
    arrive in chunks, after the malformed frame alone nothing has been
    handled and the buffer is empty, and a well-formed frame that follows it
    is parsed and given to the handler. *)
Theorem malformed_frame_is_skipped (thr : JSON -> bool) (h : NativeMessagingHost)
    (bad good : list byte) (m : JSON) (chunks1 chunks2 : list (list byte)) :
  buffer h = [] ->
  N.of_nat (length bad) < 4294967296 ->
  N.of_nat (length good) < 4294967296 ->
  JSON_parse (bufferText bad) = None ->
  JSON_parse (bufferText good) = Some m ->
  concat chunks1 = frameOf bad ->
  concat chunks2 = frameOf bad ++ frameOf good ->
  let h1 := fold_left (handleData thr) chunks1 h in
  let h2 := fold_left (handleData thr) chunks2 h in
  (handled h1 = handled h /\ buffer h1 = [] /\ running h1 = running h)
  /\ (handled h2 = handled h ++ [m] /\ buffer h2 = [] /\ running h2 = running h).
Proof.
  intros Hb Hbad Hgood Pbad Pgood C1 C2 h1 h2. subst h1 h2.
  rewrite !handleData_chunks by done. rewrite C1, C2. split.
  - pose proof (handleData_frame thr h bad [] Hb Hbad) as E1.
    rewrite app_nil_r in E1. rewrite E1.
    cbn [length handleData_loop]. unfold afterFrame. rewrite Pbad.
    cbn [handled buffer running]. done.
  - set (hb := {| running := running h; buffer := []; handled := handled h;
                  reported := S (reported h) |}).
    assert (E : handleData thr h (frameOf bad ++ frameOf good) = afterFrame thr good hb []).
    { rewrite (handleData_frame thr h bad (frameOf good) Hb Hbad).
      unfold afterFrame at 1. rewrite Pbad.
      assert (Hl : exists f, length (frameOf good) = S f) by
        (unfold frameOf, writeUInt32LE; cbn [length app]; eauto).
      destruct Hl as [f Hf]. rewrite Hf.
      pose proof (loop_frame thr f hb good [] Hgood) as E2.
      rewrite app_nil_r in E2.
      change (withBuffer (frameOf good) hb)
        with {| running := running h; buffer := frameOf good; handled := handled h;
                reported := S (reported h) |} in E2.
      rewrite E2. apply loop_incomplete.
      unfold afterFrame. rewrite Pgood. exact I. }
    rewrite E. unfold afterFrame. rewrite Pgood. done.
Qed.

Lemma malformed_frame_is_skipped_witness :
  let chunks1 := [take 3 (frameOf ping0Body); drop 3 (frameOf ping0Body)] in
  let chunks2 := [take 11 (frameOf ping0Body ++ frameOf pingBody);
                  drop 11 (frameOf ping0Body ++ frameOf pingBody)] in
  let h1 := fold_left (handleData (fun _ => false)) chunks1 idleHost in
  let h2 := fold_left (handleData (fun _ => false)) chunks2 idleHost in
  (handled h1 = handled idleHost /\ buffer h1 = [] /\ running h1 = running idleHost)
  /\ (handled h2 = handled idleHost ++ [pingMessage] /\ buffer h2 = []
      /\ running h2 = running idleHost).
Proof.
  apply (malformed_frame_is_skipped (fun _ => false) idleHost ping0Body pingBody pingMessage);
    vm_compute; reflexivity.
Defined.

(** ** HLS protection detection *)

Section HlsProps.
Context {host : Host}.







End HlsProps.



(** ** Ordering of variants and representations *)

Section SortProps.
Context {A : Type} (key : A -> jsnum).

Lemma sort_insert_perm (cmp : A -> A -> jsnum) x l : sort_insert cmp x l ≡ₚ x :: l.
Proof.
  induction l as [|y l IH]; [done|]. simpl.
  destruct (0 <? cmpValue (cmp x y))%Z; [|done].
  rewrite IH. apply Permutation_swap.
Qed.

Lemma js_sort_perm (cmp : A -> A -> jsnum) l : js_sort cmp l ≡ₚ l.
Proof.
  induction l as [|x l IH]; [done|]. simpl.
  fold (js_sort cmp l). by rewrite sort_insert_perm, IH.
Qed.

Lemma sort_insert_desc x l :
  numeric (key x) -> Forall (fun a => numeric (key a)) l ->
  descendingBy key l -> descendingBy key (sort_insert (byKeyDesc key) x l).
Proof.
  intros Hx Hl Hs. revert Hl. induction Hs as [|y l Hs IH Hy]; intros Hl; simpl.
  - repeat constructor.
  - apply Forall_cons in Hl as [Hny Hl].
    unfold numeric in *. unfold byKeyDesc at 1.
    destruct (key x) as [|kx] eqn:Ex; [done|].
    destruct (key y) as [|ky] eqn:Ey; [done|].
    cbn [jssub cmpValue].
    destruct (Z.ltb_spec 0 (ky - kx)) as [Hlt|Hge].
    + apply SSorted_cons; [apply IH; exact Hl|].
      rewrite sort_insert_perm. apply Forall_cons. rewrite Ey. split; [|exact Hy].
      rewrite Ex. simpl. lia.
    + apply SSorted_cons; [apply SSorted_cons; [exact Hs|]|].
      * rewrite Ey. exact Hy.
      * apply Forall_cons. split; [rewrite Ex, Ey; simpl; lia|].
        eapply Forall_impl; [exact Hy|]. intros z Hz. simpl in Hz.
        rewrite Ex. destruct (key z); [done|]. simpl in *. lia.
Qed.

Lemma js_sort_desc l :
  Forall (fun a => numeric (key a)) l -> descendingBy key (js_sort (byKeyDesc key) l).
Proof.
  induction l as [|x l IH]; intros Hl; simpl.
  - constructor.
  - apply Forall_cons in Hl as [Hx Hl]. fold (js_sort (byKeyDesc key) l).
    apply sort_insert_desc; [done| |by apply IH].
    by rewrite js_sort_perm.
Qed.

Lemma sort_insert_asc x l :
  numeric (key x) -> Forall (fun a => numeric (key a)) l ->
  ascendingBy key l -> ascendingBy key (sort_insert (byKeyAsc key) x l).
Proof.
  intros Hx Hl Hs. revert Hl. induction Hs as [|y l Hs IH Hy]; intros Hl; simpl.
  - repeat constructor.
  - apply Forall_cons in Hl as [Hny Hl].
    unfold numeric in *. unfold byKeyAsc at 1.
    destruct (key x) as [|kx] eqn:Ex; [done|].
    destruct (key y) as [|ky] eqn:Ey; [done|].
    cbn [jssub cmpValue].
    destruct (Z.ltb_spec 0 (kx - ky)) as [Hlt|Hge].
    + apply SSorted_cons; [apply IH; exact Hl|].
      rewrite sort_insert_perm. apply Forall_cons. rewrite Ey. split; [|exact Hy].
      rewrite Ex. simpl. lia.
    + apply SSorted_cons; [apply SSorted_cons; [exact Hs|]|].
      * rewrite Ey. exact Hy.
      * apply Forall_cons. split; [rewrite Ex, Ey; simpl; lia|].
        eapply Forall_impl; [exact Hy|]. intros z Hz. simpl in Hz.
        rewrite Ex. destruct (key z); [done|]. simpl in *. lia.
Qed.

Lemma js_sort_asc l :
  Forall (fun a => numeric (key a)) l -> ascendingBy key (js_sort (byKeyAsc key) l).
Proof.
  induction l as [|x l IH]; intros Hl; simpl.
  - constructor.
  - apply Forall_cons in Hl as [Hx Hl]. fold (js_sort (byKeyAsc key) l).
    apply sort_insert_asc; [done| |by apply IH].
    by rewrite js_sort_perm.
Qed.
End SortProps.

Section OrderProps.
Context {host : Host}.

(** With numeric bandwidths the variants of a parsed master playlist are in
    descending order of bandwidth. *)
Lemma variants_sorted_when_numeric (content baseUrl : jsstring) (m : HLSMasterPlaylist) :
  parseHLSManifest content baseUrl = Ok (Master m) ->
  Forall (fun v => numeric (v_bandwidth v)) (variants m) ->
  descendingBy v_bandwidth (variants m).
Proof.
  intros Hp Hn. unfold parseHLSManifest in Hp.
  destruct (head _); [|done]. destruct (startsWith _ _); [|done].
  destruct (isMasterManifest _); [|done].
  injection Hp as <-. unfold parseMasterPlaylist in *. cbn [variants] in *.
  apply (js_sort_desc v_bandwidth).
  by rewrite js_sort_perm in Hn.
Qed.

(** With numeric bandwidths the representations of a parsed adaptation set
    are in descending order for video and in ascending order otherwise. *)
Lemma representations_sorted_when_numeric (element : Node) (baseUrl : jsstring) :
  let a := parseAdaptationSet element baseUrl in
  Forall (fun r => numeric (r_bandwidth r)) (representations a) ->
  if bool_decide (as_contentType a = CtVideo)
  then descendingBy r_bandwidth (representations a)
  else ascendingBy r_bandwidth (representations a).
Proof.
  intros a. subst a. unfold parseAdaptationSet. cbn [representations as_contentType].
  destruct (bool_decide _); intros Hn.
  - apply (js_sort_desc r_bandwidth). by rewrite js_sort_perm in Hn.
  - apply (js_sort_asc r_bandwidth). by rewrite js_sort_perm in Hn.
Qed.
End OrderProps.

(** C8 (the code departs from it): a BANDWIDTH that [parseInt] cannot read
    becomes [NaN], the comparator then answers [NaN] and the sort leaves the
    neighbours where they are.  In [masterWithBadBandwidth] the variant of
    bandwidth 1 stays before the one of bandwidth 2; the video
    representations of [adaptationWithBadBandwidth] stay in the order 1, NaN,
    2 and the audio ones of [audioWithBadBandwidth] in the order 2, NaN, 1. *)
Lemma unreadable_bandwidth_breaks_order :
  variantBandwidths (host := plainHost) masterWithBadBandwidth (js "http://cdn/master.m3u8")
    = Some [Num 1; NaN; Num 2]
  /\ (let a := parseAdaptationSet (host := plainHost) adaptationWithBadBandwidth
                 (js "http://cdn/manifest.mpd") in
      as_contentType a = CtVideo
      /\ map r_bandwidth (representations a) = [Num 1; NaN; Num 2]
      /\ ~ descendingBy r_bandwidth (representations a))
  /\ (let a := parseAdaptationSet (host := plainHost) audioWithBadBandwidth
                 (js "http://cdn/manifest.mpd") in
      as_contentType a = CtAudio
      /\ map r_bandwidth (representations a) = [Num 2; NaN; Num 1]
      /\ ~ ascendingBy r_bandwidth (representations a)).
Proof.
  split; [vm_compute; reflexivity|]. split.
  - split; [vm_compute; reflexivity|]. split; [vm_compute; reflexivity|].
    intros H. vm_compute in H. apply StronglySorted_inv in H as [_ H].
    apply Forall_cons in H as [H _]. exact H.
  - split; [vm_compute; reflexivity|]. split; [vm_compute; reflexivity|].
    intros H. vm_compute in H. apply StronglySorted_inv in H as [_ H].
    apply Forall_cons in H as [H _]. exact H.
Qed.

(** ** Segment URLs of a DASH representation *)

Section TimelineProps.
Context {host : Host}.

Lemma roundDouble_safe (z : Z) : (Z.abs z <= 2 ^ 53)%Z -> roundDouble z = z.
Proof.
  intros Hz. unfold roundDouble. cbv zeta.
  destruct (Z.ltb_spec (Z.abs z) (2 ^ 53)) as [_|Hge]; [done|].
  assert (E : z = (2 ^ 53)%Z \/ z = (- 2 ^ 53)%Z) by lia.
  destruct E as [-> | ->]; reflexivity.
Qed.

(** Within the safe range the sum of the code is the sum. *)
Lemma jsadd_plus (a b : jsnum) : safeInteger (plus a b) -> jsadd a b = plus a b.
Proof.
  destruct a as [|x], b as [|y]; simpl; try done. intros H. f_equal.
  by apply roundDouble_safe.
Qed.

Lemma plus_assoc_nat (n : jsnum) (a b : nat) :
  plus (plus n (Num (Z.of_nat a))) (Num (Z.of_nat b)) = plus n (Num (Z.of_nat (a + b))).
Proof. destruct n; simpl; [done|]. f_equal. lia. Qed.

Lemma advance_succ (k : nat) (t d : jsnum) :
  advance k (plus t d) d = advance (S k) t d.
Proof. unfold advance. by rewrite Nat.iter_succ_r. Qed.

Lemma timelineRun_plan representation template baseUrl segment count urls time number :
  (forall k, (1 <= k <= count)%nat ->
     safeInteger (plus number (Num (Z.of_nat k)))
     /\ safeInteger (advance k time (tl_duration segment))) ->
  timelineRun representation template baseUrl segment count (urls, time, number)
  = (urls ++ map (segmentUrl representation template baseUrl)
               (map (fun k => (plus number (Num (Z.of_nat k)),
                               advance k time (tl_duration segment))) (seq 0 count)),
     advance count time (tl_duration segment),
     match count with
     | O => number
     | S _ => plus number (Num (Z.of_nat count))
     end).
Proof.
  revert urls time number. induction count as [|count IH]; intros urls time number Hsafe.
  - simpl. by rewrite app_nil_r.
  - cbn [timelineRun].
    destruct (Hsafe 1%nat ltac:(lia)) as [Hn Ht].
    rewrite (jsadd_plus time _ Ht).
    change (Num 1) with (Num (Z.of_nat 1)). rewrite (jsadd_plus number _ Hn).
    rewrite IH.
    + f_equal; [f_equal|].
      * rewrite <- app_assoc. f_equal. cbn [seq map app].
        f_equal.
        -- unfold segmentUrl. cbn [fst snd advance Nat.iter].
           destruct number as [|z]; [done|]. cbn [plus Z.of_nat]. by rewrite Z.add_0_r.
        -- rewrite <- seq_shift, !map_map. apply map_ext. intros k.
           unfold segmentUrl. cbn [fst snd].
           rewrite advance_succ, plus_assoc_nat.
           by replace (1 + k)%nat with (S k) by lia.
      * apply advance_succ.
      * destruct count as [|count].
        -- done.
        -- rewrite plus_assoc_nat.
           by replace (1 + S count)%nat with (S (S count)) by lia.
    + intros k Hk. rewrite advance_succ, plus_assoc_nat.
      replace (1 + k)%nat with (S k) by lia. apply Hsafe. lia.
Qed.

Lemma running_number (number : jsnum) (n : nat) :
  match n with
  | O => number
  | S _ => plus number (Num (Z.of_nat n))
  end = plus number (Num (Z.of_nat n)).
Proof. destruct n; [|done]. destruct number; [done|]. simpl. by rewrite Z.add_0_r. Qed.

Lemma timeline_fold representation template baseUrl timeline urls time number :
  safeTimeline number time timeline ->
  fst (fst (fold_left (timelineStep representation template baseUrl) timeline
                      (urls, time, number)))
  = urls ++ map (segmentUrl representation template baseUrl)
                (timelinePlan number time timeline).
Proof.
  revert urls time number. induction timeline as [|s rest IH]; intros urls time number Hsafe.
  - simpl. by rewrite app_nil_r.
  - destruct Hsafe as [Hrun Hrest].
    cbn [fold_left timelineStep timelinePlan].
    rewrite timelineRun_plan.
    + rewrite running_number, IH.
      * rewrite <- app_assoc, map_app. by destruct (tl_start s).
      * by destruct (tl_start s).
    + intros k Hk. destruct (Hrun k ltac:(lia)) as [H1 H2].
      by destruct (tl_start s).
Qed.

Lemma timelinePlan_length number time timeline :
  length (timelinePlan number time timeline) = sum_list (map repeatCount timeline).
Proof.
  revert number time. induction timeline as [|s rest IH]; intros number time; [done|].
  cbn [timelinePlan map sum_list_with]. rewrite length_app, length_map, length_seq, IH.
  reflexivity.
Qed.
End TimelineProps.

(** *** Expansion of the identifiers of a media pattern *)

Ltac list_norm := repeat progress (rewrite <- ?app_assoc; cbn [app]).

Lemma startsWith_spec (s p : jsstring) :
  startsWith s p = true <-> exists r, s = p ++ r.
Proof.
  revert s. induction p as [|a p IH]; intros s.
  - destruct s; simpl; split; eauto.
  - destruct s as [|b s]; simpl.
    + split; [done|]. intros [r Hr]. discriminate Hr.
    + rewrite andb_true_iff, N.eqb_eq, IH. split.
      * intros [-> [r ->]]. eauto.
      * intros [r Hr]. injection Hr as -> ->. eauto.
Qed.

Lemma startsWith_app (p r : jsstring) : startsWith (p ++ r) p = true.
Proof. apply startsWith_spec. eauto. Qed.

Lemma span_app (p : N -> bool) (w r : jsstring) :
  Forall (fun c => p c = true) w ->
  match r with
  | [] => True
  | c :: _ => p c = false
  end ->
  span p (w ++ r) = (w, r).
Proof.
  intros Hw Hr. induction Hw as [|c w Hc Hw IH]; simpl.
  - destruct r as [|c r]; [done|]. simpl. by rewrite Hr.
  - by rewrite Hc, IH.
Qed.

Lemma span_spec (p : N -> bool) (s a b : jsstring) :
  span p s = (a, b) -> s = a ++ b /\ Forall (fun c => p c = true) a.
Proof.
  revert a b. induction s as [|c s IH]; intros a b; simpl.
  - intros [= <- <-]. done.
  - destruct (p c) eqn:Hc.
    + destruct (span p s) as [a' b'] eqn:E. intros [= <- <-].
      destruct (IH a' b' eq_refl) as [-> Ha]. split; [done|]. by constructor.
    + intros [= <- <-]. done.
Qed.

Lemma getSubstitution_plain (matched before after v : jsstring) :
  dollarFree v -> getSubstitution matched before after v = v.
Proof.
  intros Hv. induction Hv as [|c v Hc Hv IH]; [done|].
  cbn [getSubstitution].
  destruct c as [|p]; [by rewrite IH|].
  do 6 (destruct p as [p|p|]; try (by rewrite IH)).
Qed.

Section Pass.
Context {M : Type}.
Variable matchAt : jsstring -> option (M * jsstring * jsstring).
Variable subst : M -> jsstring -> jsstring -> jsstring -> jsstring.

(** Text in which no match starts is copied. *)
Lemma replaceAll_go_skip (pre rest before : jsstring) (f : nat) :
  (forall p1 p2, pre = p1 ++ p2 -> p2 <> [] -> matchAt (p2 ++ rest) = None) ->
  replaceAll_go matchAt subst (length pre + f) before (pre ++ rest)
  = pre ++ replaceAll_go matchAt subst f (before ++ pre) rest.
Proof.
  revert before. induction pre as [|c pre IH]; intros before Hno.
  - simpl. by rewrite app_nil_r.
  - cbn [length Nat.add app replaceAll_go].
    pose proof (Hno [] (c :: pre) eq_refl) as E. cbn [app] in E.
    rewrite E by done.
    rewrite IH.
    + by rewrite <- app_assoc.
    + intros p1 p2 -> Hp2. apply (Hno (c :: p1) p2); done.
Qed.

Lemma replaceAll_go_nil (f : nat) (before : jsstring) :
  replaceAll_go matchAt subst f before [] = [].
Proof. by destruct f. Qed.

(** A match at the head is replaced and the search resumes after it. *)
Lemma replaceAll_go_match (m rest before : jsstring) (d : M) (f : nat) :
  m <> [] ->
  matchAt (m ++ rest) = Some (d, m, rest) ->
  replaceAll_go matchAt subst (S f) before (m ++ rest)
  = subst d m before rest ++ replaceAll_go matchAt subst f (before ++ m) rest.
Proof.
  intros Hm E. destruct m as [|c m]; [done|].
  cbn [app replaceAll_go]. cbn [app] in E. by rewrite E.
Qed.

(** More fuel than the length of the text changes nothing. *)
Hypothesis match_rest : forall s d m rest,
  matchAt s = Some (d, m, rest) -> s = m ++ rest /\ m <> [].

Lemma replaceAll_go_fuel (f1 f2 : nat) (before s : jsstring) :
  (length s <= f1)%nat -> (length s <= f2)%nat ->
  replaceAll_go matchAt subst f1 before s = replaceAll_go matchAt subst f2 before s.
Proof.
  revert f2 before s. induction f1 as [|f1 IH]; intros f2 before s H1 H2.
  - destruct s; [|simpl in H1; lia]. by rewrite !replaceAll_go_nil.
  - destruct s as [|c s]; [by rewrite !replaceAll_go_nil|].
    destruct f2 as [|f2]; [simpl in H2; lia|].
    cbn [replaceAll_go]. simpl in H1, H2.
    destruct (matchAt (c :: s)) as [[[d m] rest]|] eqn:E.
    + f_equal. apply match_rest in E as [E Hm].
      assert (length (c :: s) = length (m ++ rest)) as Hl by (by rewrite E).
      rewrite length_app in Hl. simpl in Hl.
      destruct m; [done|]. simpl in Hl. apply IH; lia.
    + f_equal. apply IH; lia.
Qed.
End Pass.

Lemma matchPlain_spec (key s : jsstring) (d : unit) (m rest : jsstring) :
  matchPlain key s = Some (d, m, rest) -> m = 36 :: key ++ [36] /\ s = m ++ rest.
Proof.
  unfold matchPlain. cbv zeta.
  destruct (startsWith s (36 :: key ++ [36])) eqn:E; [|done].
  apply startsWith_spec in E as [r ->].
  change (length (36 :: key ++ [36])) with (length ((36 :: key) ++ [36])).
  change ((36 :: key ++ [36]) ++ r) with (((36 :: key) ++ [36]) ++ r).
  rewrite drop_app_length. intros [= _ <- <-]. done.
Qed.

Lemma matchPadded_spec (key s width m rest : jsstring) :
  matchPadded key s = Some (width, m, rest) ->
  m = 36 :: (key ++ 37 :: width ++ [100]) ++ [36] /\ s = m ++ rest
  /\ Forall (fun c => isDigit c = true) width.
Proof.
  unfold matchPadded. cbv zeta.
  destruct (startsWith s (36 :: key ++ [37])) eqn:E; [|done].
  apply startsWith_spec in E as [r ->].
  change (length (36 :: key ++ [37])) with (length ((36 :: key) ++ [37])).
  change ((36 :: key ++ [37]) ++ r) with (((36 :: key) ++ [37]) ++ r).
  rewrite drop_app_length.
  destruct (span isDigit r) as [w r'] eqn:Es.
  apply span_spec in Es as [-> Hw].
  destruct w as [|c w]; [done|].
  intros H. repeat case_match; try done. simplify_eq.
  split; [|split; [|done]].
  - by list_norm.
  - by list_norm.
Qed.

Lemma sep_unique (x : N) (a1 b1 a2 b2 : jsstring) :
  Forall (fun c => c <> x) a1 -> Forall (fun c => c <> x) a2 ->
  a1 ++ x :: b1 = a2 ++ x :: b2 -> a1 = a2 /\ b1 = b2.
Proof.
  intros H1. revert a2. induction H1 as [|c a1 Hc H1 IH]; intros a2 H2 E.
  - destruct H2 as [|c2 a2 Hc2 H2]; simpl in E.
    + by injection E as <-.
    + injection E as <- _. done.
  - destruct H2 as [|c2 a2 Hc2 H2]; simpl in E.
    + injection E as -> _. done.
    + injection E as <- E. destruct (IH a2 H2 E) as [<- <-]. done.
Qed.

Lemma app_last_split (l p1 p2 : jsstring) (a : N) :
  l ++ [a] = p1 ++ p2 -> p2 <> [] -> exists p2', p2 = p2' ++ [a] /\ l = p1 ++ p2'.
Proof.
  intros E Hp2.
  destruct (exists_last Hp2) as (p2' & b & ->).
  rewrite app_assoc in E. apply app_inj_tail in E as [-> ->]. eauto.
Qed.

Lemma render_body (p : Piece) : isLit p = false -> render p = 36 :: body p ++ [36].
Proof. by destruct p. Qed.

Lemma segmentKeys_keyLike (k : jsstring) : k ∈ segmentKeys -> keyLike k.
Proof.
  intros Hk. unfold segmentKeys in Hk.
  repeat (apply elem_of_cons in Hk as [->|Hk]);
    [..|by apply elem_of_nil in Hk];
    (split; [eexists _, _; split; reflexivity|]);
    split; repeat constructor; done.
Qed.

Lemma digit_not_dollar (w : jsstring) :
  Forall (fun c => isDigit c = true) w -> Forall (fun c => c <> 36) w.
Proof.
  intros H. eapply Forall_impl; [exact H|]. intros c Hc ->. discriminate Hc.
Qed.

Lemma body_ok (p : Piece) :
  pieceOk p -> isLit p = false ->
  dollarFree (body p) /\ exists c t, body p = c :: t /\ startsKey c = true.
Proof.
  destruct p as [t|k|k w]; [done| |]; simpl; intros Hp _.
  - destruct (segmentKeys_keyLike k Hp) as (Hh & Hd & _). done.
  - destruct Hp as (Hk & Hw & Hdig).
    destruct (segmentKeys_keyLike k Hk) as ((c & t & -> & Hc) & Hd & _). split.
    + unfold dollarFree. rewrite Forall_app. split; [done|].
      constructor; [done|]. rewrite Forall_app. split; [by apply digit_not_dollar|].
      by repeat constructor.
    + eauto.
Qed.

(** The first unit of the text at some stage of the expansion is a dollar
    sign, or the first unit of the expansion. *)
Lemma render_head vars (ps qs : list Piece) :
  Forall2 (stageOf vars) ps qs ->
  match renderAll qs with
  | [] => True
  | c :: _ => c = 36 \/ exists t, flat_map (expandPiece vars) ps = c :: t
  end.
Proof.
  induction 1 as [|p q ps qs Hpq _ IH]; [done|].
  change (renderAll (q :: qs)) with (render q ++ renderAll qs).
  cbn [flat_map].
  destruct Hpq as [->|[Hl ->]].
  - destruct p as [[|c t]|k|k w]; simpl.
    + exact IH.
    + right. eauto.
    + by left.
    + by left.
  - cbn [render]. destruct (expandPiece vars p) as [|c t]; simpl; [exact IH|].
    right. eauto.
Qed.

Lemma stage_separated vars (ps qs : list Piece) :
  Forall2 (stageOf vars) ps qs -> separatedFor vars ps -> separated qs.
Proof.
  induction 1 as [|p q ps qs Hpq Hrest IH]; [done|]. intros [Hafter Hsep].
  split; [|by apply IH]. intros Hq.
  assert (Hp : isLit p = false).
  { destruct Hpq as [->|[Hl _]]; done. }
  specialize (Hafter Hp). pose proof (render_head vars ps qs Hrest) as Hh.
  destruct (renderAll qs) as [|c t]; [done|]. simpl.
  destruct Hh as [->|[t' E]]; [done|]. by rewrite E in Hafter.
Qed.

Lemma stageOf_refl vars (ps : list Piece) : Forall2 (stageOf vars) ps ps.
Proof. induction ps; constructor; [by left|done]. Qed.

Section PiecePass.
Context {M : Type}.
Variable matchAt : jsstring -> option (M * jsstring * jsstring).
Variable subst : M -> jsstring -> jsstring -> jsstring -> jsstring.
(** The text a piece is replaced by in this pass, if it is. *)
Variable target : Piece -> option jsstring.

Hypothesis match_shape : forall s d m rest,
  matchAt s = Some (d, m, rest) ->
  s = m ++ rest
  /\ exists b c t, m = 36 :: b ++ [36] /\ dollarFree b /\ b = c :: t /\ startsKey c = true.
Hypothesis match_target : forall p e before R,
  pieceOk p -> target p = Some e ->
  exists d, matchAt (render p ++ R) = Some (d, render p, R)
            /\ subst d (render p) before R = e.
Hypothesis match_other : forall p R,
  pieceOk p -> isLit p = false -> target p = None -> matchAt (render p ++ R) = None.
Hypothesis target_lit : forall t, target (Lit t) = None.
Hypothesis target_ok : forall p e, pieceOk p -> target p = Some e -> dollarFree e.
(** The values the identifiers stand for; a pass puts the value of an
    identifier in its place. *)
Variable vars : list (jsstring * jsstring).
Hypothesis target_final : forall p e, target p = Some e -> expandPiece vars p = e.

Lemma match_head (s : jsstring) d m rest :
  matchAt s = Some (d, m, rest) -> exists s', s = 36 :: s'.
Proof.
  intros E. apply match_shape in E as (-> & b & c & t & -> & _). simpl. eauto.
Qed.

Lemma pass_pieces (ps : list Piece) (f : nat) (before : jsstring) :
  Forall pieceOk ps -> separated ps -> (length (renderAll ps) <= f)%nat ->
  replaceAll_go matchAt subst f before (renderAll ps) = renderAll (map (passPiece target) ps).
Proof.
  revert f before. induction ps as [|p ps IH]; intros f before Hok Hsep Hf.
  - apply replaceAll_go_nil.
  - apply Forall_cons in Hok as [Hp Hok]. destruct Hsep as [Hafter Hsep].
    change (renderAll (p :: ps)) with (render p ++ renderAll ps) in *.
    change (renderAll (map (passPiece target) (p :: ps)))
      with (render ((passPiece target) p) ++ renderAll (map (passPiece target) ps)).
    rewrite length_app in Hf.
    unfold passPiece at 1. destruct (target p) as [e|] eqn:Et.
    + destruct (match_target p e before (renderAll ps) Hp Et) as (d & Em & Es).
      assert (Hne : render p <> []).
      { apply match_shape in Em as (_ & b & c & t & E & _). rewrite E. done. }
      destruct f as [|f]; [destruct (render p); [done|simpl in Hf; lia]|].
      rewrite (replaceAll_go_match _ _ _ _ _ d f Hne Em), Es. cbn [render].
      f_equal. apply IH; [done..|].
      destruct (render p); [done|simpl in Hf; lia].
    + replace f with (length (render p) + (f - length (render p)))%nat by lia.
      rewrite replaceAll_go_skip.
      * f_equal. apply IH; [done..|lia].
      * intros p1 p2 E Hp2.
        destruct (matchAt (p2 ++ renderAll ps)) as [[[d m] rest]|] eqn:Em; [|done].
        exfalso.
        destruct (isLit p) eqn:Hlit.
        -- destruct p as [t| |]; try done. simpl in E, Hp.
           apply match_head in Em as [s' Es'].
           destruct p2 as [|x p2]; [done|]. injection Es' as -> _.
           rewrite E in Hp. apply Forall_app in Hp as [_ Hp].
           by apply Forall_cons in Hp as [Hx _].
        -- rewrite (render_body p Hlit) in E.
           destruct (body_ok p Hp Hlit) as (Hdf & _).
           destruct p1 as [|y p1].
           ++ simpl in E. subst p2. rewrite <- (render_body p Hlit) in Em.
              by rewrite (match_other p _ Hp Hlit Et) in Em.
           ++ injection E as <- E.
              apply app_last_split in E as (p2' & -> & E); [|done].
              destruct p2' as [|x p2'].
              ** simpl in Em. apply match_shape in Em as (Es & b & c & t & -> & _ & -> & Hc).
                 simpl in Es. injection Es as Es.
                 specialize (Hafter eq_refl).
                 rewrite Es in Hafter. simpl in Hafter. congruence.
              ** apply match_head in Em as [s' Es']. injection Es' as -> _.
                 rewrite E in Hdf. apply Forall_app in Hdf as [_ Hdf].
                 by apply Forall_cons in Hdf as [Hx _].
Qed.

Lemma passPiece_ok (p : Piece) : pieceOk p -> pieceOk ((passPiece target) p).
Proof.
  intros Hp. unfold passPiece. destruct (target p) eqn:E; [|done].
  simpl. by apply (target_ok p).
Qed.

Lemma passPiece_stage (ps qs : list Piece) :
  Forall2 (stageOf vars) ps qs -> Forall2 (stageOf vars) ps (map (passPiece target) qs).
Proof.
  induction 1 as [|p q ps qs Hpq _ IH]; [constructor|]. cbn [map]. constructor; [|done].
  unfold passPiece. destruct (target q) as [e|] eqn:Et; [|done].
  destruct Hpq as [->|[_ ->]]; [|by rewrite target_lit in Et].
  right. split.
  - destruct p as [t| |]; [by rewrite target_lit in Et|done..].
  - by rewrite (target_final _ _ Et).
Qed.

Lemma pass_replaceAll (qs : list Piece) :
  Forall pieceOk qs -> separated qs ->
  replaceAll matchAt subst (renderAll qs) = renderAll (map (passPiece target) qs)
  /\ Forall pieceOk (map (passPiece target) qs).
Proof.
  intros Hok Hsep. split; [unfold replaceAll; by apply pass_pieces|].
  apply Forall_map. eapply Forall_impl; [exact Hok|]. apply passPiece_ok.
Qed.
End PiecePass.

Lemma jsstring_eqb_eq (a b : jsstring) : jsstring_eqb a b = true <-> a = b.
Proof. unfold jsstring_eqb. by rewrite bool_decide_eq_true. Qed.

Lemma jsstring_eqb_refl (a : jsstring) : jsstring_eqb a a = true.
Proof. by apply jsstring_eqb_eq. Qed.

Lemma padStart_dollarFree (n : jsnum) (v : jsstring) :
  dollarFree v -> dollarFree (padStart n v).
Proof.
  intros Hv. destruct n as [|z]; [done|]. unfold padStart, dollarFree.
  rewrite Forall_app. split; [|done].
  apply Forall_forall. intros c Hc. apply elem_of_replicate in Hc as [-> _]. done.
Qed.

Lemma matchPlain_hit (key R : jsstring) :
  matchPlain key ((36 :: key ++ [36]) ++ R) = Some (tt, 36 :: key ++ [36], R).
Proof.
  unfold matchPlain. cbv zeta. by rewrite startsWith_app, drop_app_length.
Qed.

Lemma matchPadded_hit (key w R : jsstring) :
  w <> [] -> Forall (fun c => isDigit c = true) w ->
  matchPadded key ((36 :: (key ++ 37 :: w ++ [100]) ++ [36]) ++ R)
  = Some (w, 36 :: (key ++ 37 :: w ++ [100]) ++ [36], R).
Proof.
  intros Hw Hdig.
  assert (E : (36 :: (key ++ 37 :: w ++ [100]) ++ [36]) ++ R
              = (36 :: key ++ [37]) ++ (w ++ 100 :: 36 :: R)) by (by list_norm).
  rewrite E. unfold matchPadded. cbv zeta.
  rewrite startsWith_app, drop_app_length.
  rewrite span_app by done.
  destruct w as [|c w]; [done|]. f_equal. f_equal. f_equal. by list_norm.
Qed.

(** Two delimited texts at the head of one string are the same text. *)
Lemma body_unique (p : Piece) (b R rest : jsstring) :
  pieceOk p -> isLit p = false -> dollarFree b ->
  render p ++ R = (36 :: b ++ [36]) ++ rest -> body p = b.
Proof.
  intros Hp Hl Hb E. rewrite (render_body p Hl) in E.
  destruct (body_ok p Hp Hl) as [Hdf _].
  simpl in E. injection E as E. rewrite <- !app_assoc in E. simpl in E.
  by apply sep_unique in E as [-> _].
Qed.

Section KeyPasses.
Variables (key value : jsstring).
Variable vars : list (jsstring * jsstring).
Hypothesis key_ok : key ∈ segmentKeys.
Hypothesis value_ok : dollarFree value.
Hypothesis key_value : varValue vars key = value.

Lemma plain_pass (qs : list Piece) :
  Forall pieceOk qs -> separated qs ->
  replaceAll (matchPlain key)
    (fun _ matched before after => getSubstitution matched before after value)
    (renderAll qs)
  = renderAll (map (passPiece (plainTarget key value)) qs)
  /\ Forall pieceOk (map (passPiece (plainTarget key value)) qs).
Proof.
  destruct (segmentKeys_keyLike key key_ok) as ((c0 & t0 & Ek & Hc0) & Hd & Hp).
  assert (Hshape : forall s d m rest,
    matchPlain key s = Some (d, m, rest) ->
    s = m ++ rest
    /\ exists b c t, m = 36 :: b ++ [36] /\ dollarFree b /\ b = c :: t /\ startsKey c = true).
  { intros s d m rest E. apply matchPlain_spec in E as [-> ->]. split; [done|].
    exists key, c0, t0. done. }
  assert (Hlit : forall t, plainTarget key value (Lit t) = None) by done.
  assert (Hok : forall p e, pieceOk p -> plainTarget key value p = Some e -> dollarFree e).
  { intros [t|k|k w] e _; simpl; try done. destruct (jsstring_eqb k key); [|done].
    by intros [= <-]. }
  apply pass_replaceAll; try done.
  - intros [t|k|k w] e before R Hpk; simpl; try done.
    destruct (jsstring_eqb k key) eqn:E; [|done]. apply jsstring_eqb_eq in E as ->.
    intros [= <-]. exists tt. split; [|by apply getSubstitution_plain].
    apply matchPlain_hit.
  - intros p R Hpk Hl Ht.
    destruct (matchPlain key _) as [[[d m] rest]|] eqn:Em; [|done]. exfalso.
    apply matchPlain_spec in Em as [-> Es].
    apply body_unique in Es; [|done..].
    destruct p as [t|k|k w]; simpl in *; [done| |].
    + subst k. by rewrite jsstring_eqb_refl in Ht.
    + rewrite <- Es in Hp. apply Forall_app in Hp as [_ Hp].
      by apply Forall_cons in Hp as [? _].
Qed.

Lemma plainTarget_final (p : Piece) (e : jsstring) :
  plainTarget key value p = Some e -> expandPiece vars p = e.
Proof.
  destruct p as [t|k|k w]; simpl; try done.
  destruct (jsstring_eqb k key) eqn:E; [|done]. apply jsstring_eqb_eq in E as ->.
  intros [= <-]. exact key_value.
Qed.

Lemma padded_pass (qs : list Piece) :
  Forall pieceOk qs -> separated qs ->
  replaceAll (matchPadded key)
    (fun width _ _ _ => padStart (parseInt10 width) value)
    (renderAll qs)
  = renderAll (map (passPiece (paddedTarget key value)) qs)
  /\ Forall pieceOk (map (passPiece (paddedTarget key value)) qs).
Proof.
  destruct (segmentKeys_keyLike key key_ok) as ((c0 & t0 & Ek & Hc0) & Hd & Hp).
  assert (Hbody : forall w, Forall (fun c => isDigit c = true) w ->
                            dollarFree (key ++ 37 :: w ++ [100])).
  { intros w Hw. unfold dollarFree. rewrite Forall_app. split; [done|].
    constructor; [done|]. rewrite Forall_app. split; [by apply digit_not_dollar|].
    by repeat constructor. }
  assert (Hshape : forall s d m rest,
    matchPadded key s = Some (d, m, rest) ->
    s = m ++ rest
    /\ exists b c t, m = 36 :: b ++ [36] /\ dollarFree b /\ b = c :: t /\ startsKey c = true).
  { intros s d m rest E. apply matchPadded_spec in E as (-> & -> & Hw). split; [done|].
    exists (key ++ 37 :: d ++ [100]), c0, (t0 ++ 37 :: d ++ [100]).
    split; [done|]. split; [by apply Hbody|]. split; [by rewrite Ek|done]. }
  assert (Hlit : forall t, paddedTarget key value (Lit t) = None) by done.
  assert (Hok : forall p e, pieceOk p -> paddedTarget key value p = Some e -> dollarFree e).
  { intros [t|k|k w] e _; simpl; try done. destruct (jsstring_eqb k key); [|done].
    intros [= <-]. by apply padStart_dollarFree. }
  apply pass_replaceAll; try done.
  - intros [t|k|k w] e before R Hpk; simpl; try done.
    destruct (jsstring_eqb k key) eqn:E; [|done]. apply jsstring_eqb_eq in E as ->.
    intros [= <-]. destruct Hpk as (_ & Hw & Hdig). exists w. split; [|done].
    by apply matchPadded_hit.
  - intros p R Hpk Hl Ht.
    destruct (matchPadded key _) as [[[d m] rest]|] eqn:Em; [|done]. exfalso.
    apply matchPadded_spec in Em as (-> & Es & Hw).
    apply body_unique in Es; [|by auto..].
    destruct p as [t|k|k w]; simpl in *; [done| |].
    + destruct (segmentKeys_keyLike k Hpk) as (_ & _ & Hpk').
      rewrite Es in Hpk'. apply Forall_app in Hpk' as [_ Hpk'].
      by apply Forall_cons in Hpk' as [? _].
    + destruct Hpk as (Hk & _).
      destruct (segmentKeys_keyLike k Hk) as (_ & _ & Hpk').
      apply sep_unique in Es as [-> _]; [|done..].
      by rewrite jsstring_eqb_refl in Ht.
Qed.

Lemma paddedTarget_final (p : Piece) (e : jsstring) :
  paddedTarget key value p = Some e -> expandPiece vars p = e.
Proof.
  destruct p as [t|k|k w]; simpl; try done.
  destruct (jsstring_eqb k key) eqn:E; [|done]. apply jsstring_eqb_eq in E as ->.
  intros [= <-]. by rewrite key_value.
Qed.

(** One round of [replaceVars] on the text of a stage of the expansion. *)
Lemma replaceVar_pieces (ps qs : list Piece) :
  separatedFor vars ps -> Forall2 (stageOf vars) ps qs -> Forall pieceOk qs ->
  let qs' := map (passPiece (paddedTarget key value))
                 (map (passPiece (plainTarget key value)) qs) in
  replaceVar (renderAll qs) (key, value) = renderAll qs'
  /\ Forall2 (stageOf vars) ps qs' /\ Forall pieceOk qs'.
Proof.
  intros Hsep Hst Hok qs'. subst qs'. unfold replaceVar.
  destruct (plain_pass qs Hok (stage_separated vars ps qs Hst Hsep)) as [-> Hok1].
  pose proof (passPiece_stage (plainTarget key value) (fun _ => eq_refl) vars
                plainTarget_final ps qs Hst) as Hst1.
  destruct (padded_pass _ Hok1 (stage_separated vars ps _ Hst1 Hsep)) as [-> Hok2].
  split; [done|]. split; [|done].
  by apply (passPiece_stage (paddedTarget key value) (fun _ => eq_refl) vars
              paddedTarget_final).
Qed.
End KeyPasses.

Ltac key_member := repeat first [apply list_elem_of_here | apply list_elem_of_further].

Lemma decimal_go_dollarFree (fuel : nat) (n : Z) (acc : jsstring) :
  dollarFree acc -> dollarFree (decimal_go fuel n acc).
Proof.
  revert n acc. induction fuel as [|fuel IH]; intros n acc Hacc; [done|].
  cbn [decimal_go].
  assert (Hd : dollarFree (digitChar (n mod 10) :: acc)).
  { constructor; [|done]. unfold digitChar.
    pose proof (Z.mod_pos_bound n 10 eq_refl) as Hm.
    intros E. apply (f_equal Z.of_N) in E. rewrite Z2N.id in E by lia.
    change (Z.of_N 36) with 36%Z in E. lia. }
  destruct (n <? 10)%Z; [done|]. by apply IH.
Qed.

Lemma numToString_dollarFree (v : jsnum) : dollarFree (numToString v).
Proof.
  destruct v as [|z]; unfold numToString, decimal.
  - by repeat constructor.
  - destruct (z <? 0)%Z.
    + constructor; [done|]. apply decimal_go_dollarFree. constructor.
    + apply decimal_go_dollarFree. constructor.
Qed.

Lemma expandRounds_expand (v1 v2 v3 v4 : jsstring) (p : Piece) :
  pieceOk p ->
  let vars := [(js "RepresentationID", v1); (js "Number", v2); (js "Time", v3);
               (js "Bandwidth", v4)] in
  render (expandRounds vars p) = expandPiece vars p.
Proof.
  intros Hp vars. destruct p as [t|k|k w]; simpl in Hp.
  - reflexivity.
  - unfold segmentKeys in Hp.
    repeat (apply elem_of_cons in Hp as [->|Hp]); [..|by apply elem_of_nil in Hp];
      reflexivity.
  - destruct Hp as (Hk & _). unfold segmentKeys in Hk.
    repeat (apply elem_of_cons in Hk as [->|Hk]); [..|by apply elem_of_nil in Hk];
      reflexivity.
Qed.

Lemma replaceVars_pieces (representation : DASHRepresentation) (number time : jsnum)
    (ps : list Piece) :
  wellFormedPattern (segmentVars representation number time) ps ->
  dollarFree (r_id representation) ->
  replaceVars (renderAll ps) (segmentVars representation number time)
  = flat_map (expandPiece (segmentVars representation number time)) ps.
Proof.
  intros [Hok Hsep] Hid.
  set (vars := segmentVars representation number time) in *.
  unfold replaceVars. subst vars. unfold segmentVars at 1. cbn [fold_left].
  set (vars := segmentVars representation number time) in *.
  assert (K1 : js "RepresentationID" ∈ segmentKeys) by (unfold segmentKeys; key_member).
  assert (K2 : js "Number" ∈ segmentKeys) by (unfold segmentKeys; key_member).
  assert (K3 : js "Time" ∈ segmentKeys) by (unfold segmentKeys; key_member).
  assert (K4 : js "Bandwidth" ∈ segmentKeys) by (unfold segmentKeys; key_member).
  destruct (replaceVar_pieces _ _ vars K1 Hid eq_refl ps ps Hsep (stageOf_refl vars ps) Hok)
    as (E1 & Hst1 & Hok1).
  rewrite E1.
  destruct (replaceVar_pieces _ _ vars K2 (numToString_dollarFree number) eq_refl
              ps _ Hsep Hst1 Hok1) as (E2 & Hst2 & Hok2).
  rewrite E2.
  destruct (replaceVar_pieces _ _ vars K3 (numToString_dollarFree time) eq_refl
              ps _ Hsep Hst2 Hok2) as (E3 & Hst3 & Hok3).
  rewrite E3.
  destruct (replaceVar_pieces _ _ vars K4
              (numToString_dollarFree (r_bandwidth representation)) eq_refl
              ps _ Hsep Hst3 Hok3) as (E4 & _ & _).
  rewrite E4.
  subst vars. clear -Hok.
  induction Hok as [|p ps Hp Hok IH]; [done|].
  cbn [map]. unfold renderAll in *. cbn [flat_map]. rewrite IH. f_equal.
  apply (expandRounds_expand _ _ _ _ p Hp).
Qed.

Section SegmentUrlProps.
Context {host : Host}.

(** For a template with a timeline whose running numbers and times stay
    safe integers, [generateSegmentUrls] yields one URL per segment of the
    plan the specification describes: the [S] entries in order, [repeat + 1]
    segments each, a running number from [startNumber], a running time reset
    by an explicit [t] and advanced by [d] after every segment.  Each URL is
    the media pattern with its identifiers expanded, resolved against the
    base URL.  When the identifier of the representation holds no dollar
    sign, the pattern is made of literal text without a dollar sign and the
    identifiers RepresentationID, Number, Time and Bandwidth, and what
    follows an identifier in the expanded pattern does not begin with R, N, T
    or B (another identifier may follow at once when its value begins with a
    digit, say), the expansion is the one the specification describes: every identifier between dollar signs is
    replaced by its value and every identifier with a width by its value
    padded with zeros to that many digits.  (For safe integers [numToString]
    is [String].) *)
Theorem segment_urls_follow_timeline (representation : DASHRepresentation)
    (template : DASHSegmentTemplate) (timeline : list DASHSegmentTimeline)
    (baseUrl : jsstring) :
  r_segmentTemplate representation = Some template ->
  t_timeline template = Some timeline ->
  safeTimeline (t_startNumber template) (Num 0) timeline ->
  safeInteger (r_bandwidth representation) ->
  generateSegmentUrls representation baseUrl
    = map (segmentUrl representation template baseUrl)
          (timelinePlan (t_startNumber template) (Num 0) timeline)
  /\ length (generateSegmentUrls representation baseUrl)
     = sum_list (map repeatCount timeline)
  /\ (forall (pieces : list Piece) (number time : jsnum),
        t_media template = renderAll pieces ->
        wellFormedPattern (segmentVars representation number time) pieces ->
        dollarFree (r_id representation) ->
        safeInteger number -> safeInteger time ->
        replaceVars (t_media template) (segmentVars representation number time)
        = flat_map (expandPiece (segmentVars representation number time)) pieces).
Proof.
  intros Ht Htl Hsafe _.
  assert (E : generateSegmentUrls representation baseUrl
              = map (segmentUrl representation template baseUrl)
                    (timelinePlan (t_startNumber template) (Num 0) timeline)).
  { unfold generateSegmentUrls. rewrite Ht, Htl. by rewrite timeline_fold. }
  split; [exact E|]. split.
  - by rewrite E, length_map, timelinePlan_length.
  - intros pieces number time -> Hwf Hid _ _. by apply replaceVars_pieces.
Qed.

(** From 2^53 on the running number of the code stops: where the
    specification counts on, two segments get one number. *)
Lemma running_number_stops :
  jsadd (Num (2 ^ 53)) (Num 1) = Num (2 ^ 53)
  /\ plus (Num (2 ^ 53)) (Num 1) = Num (2 ^ 53 + 1).
Proof. split; reflexivity. Qed.

(** C7 (the code departs from it).  The value of an identifier is given to
    [String.prototype.replace] as the replacement text, in which a dollar sign
    followed by an ampersand stands for the text that was matched.  For a
    representation whose identifier is [a$&b] and the pattern
    [http://cdn/$RepresentationID$.m4s], with a timeline of one segment (as
    [parseRepresentation] reads it from its element), the pattern is well
    formed and its expansion is [http://cdn/a$&b.m4s]; the
    code yields [http://cdn/a$RepresentationID$b.m4s], whatever the host and
    the base URL. *)
Theorem identifier_text_is_reinterpreted (baseUrl : jsstring) :
  let template := {| t_media := js "http://cdn/$RepresentationID$.m4s";
                     t_initialization := None; t_startNumber := Num 1;
                     t_timescale := Num 1; t_duration := None;
                     t_timeline := Some [{| tl_start := None; tl_duration := Num 100;
                                            tl_repeat := None |}] |} in
  parseRepresentation dollarElement baseUrl None = dollarRepresentation
  /\ r_segmentTemplate dollarRepresentation = Some template
  /\ t_media template = renderAll dollarPieces
  /\ wellFormedPattern (segmentVars dollarRepresentation (Num 1) (Num 0)) dollarPieces
  /\ flat_map (expandPiece (segmentVars dollarRepresentation (Num 1) (Num 0))) dollarPieces
     = js "http://cdn/a$&b.m4s"
  /\ generateSegmentUrls dollarRepresentation baseUrl
     = [resolveUrl (js "http://cdn/a$RepresentationID$b.m4s") baseUrl].
Proof.
  intros template. split_and!; try reflexivity.
  split.
  - unfold dollarPieces, segmentKeys.
    repeat (apply Forall_cons; split); simpl;
      first [ by repeat constructor | key_member ].
  - simpl. repeat split; done.
Qed.
End SegmentUrlProps.

Lemma scenarioPieces_wellFormed :
  wellFormedPattern (segmentVars scenarioRepresentation (Num 7) (Num 600)) scenarioPieces.
Proof.
  split.
  - unfold scenarioPieces, segmentKeys.
    repeat (apply Forall_cons; split); simpl;
      first [ by repeat constructor | key_member ].
  - simpl. repeat split; done.
Qed.

Lemma adjacentPieces_wellFormed :
  wellFormedPattern (segmentVars adjacentRepresentation (Num 7) (Num 600)) adjacentPieces.
Proof.
  split.
  - unfold adjacentPieces, segmentKeys.
    repeat (apply Forall_cons; split); simpl;
      first [ by repeat constructor | key_member ].
  - simpl. repeat split; done.
Qed.

Lemma scenario_safe :
  safeTimeline (Num 1) (Num 0)
    [{| tl_start := None; tl_duration := Num 100; tl_repeat := Some (Num 2) |}].
Proof.
  split; [|done]. intros k Hk. cbn [repeatCount tl_repeat] in Hk.
  change (Z.to_nat (2 + 1)) with 3%nat in Hk.
  assert (E : k = 0%nat \/ k = 1%nat \/ k = 2%nat \/ k = 3%nat) by lia.
  destruct E as [->|[->|[->| ->]]]; split; vm_compute; discriminate.
Qed.

Lemma segment_urls_follow_timeline_witness :
  generateSegmentUrls (host := plainHost) scenarioRepresentation (js "http://cdn/manifest.mpd")
    = [js "http://cdn/v_v1_00001.m4s"; js "http://cdn/v_v1_00002.m4s";
       js "http://cdn/v_v1_00003.m4s"]
  /\ length (generateSegmentUrls (host := plainHost) scenarioRepresentation
               (js "http://cdn/manifest.mpd")) = 3%nat
  /\ replaceVars (t_media scenarioTemplate)
       (segmentVars scenarioRepresentation (Num 7) (Num 600))
     = js "http://cdn/v_v1_00007.m4s"
  /\ replaceVars (t_media adjacentTemplate)
       (segmentVars adjacentRepresentation (Num 7) (Num 600))
     = js "http://cdn/v1/007600.m4s".
Proof.
  assert (Hb : safeInteger (Num 800000)) by (vm_compute; discriminate).
  assert (H7 : safeInteger (Num 7)) by (vm_compute; discriminate).
  assert (H600 : safeInteger (Num 600)) by (vm_compute; discriminate).
  assert (Hid : dollarFree (js "v1")) by (by repeat constructor).
  destruct (segment_urls_follow_timeline (host := plainHost) scenarioRepresentation
              scenarioTemplate
              [{| tl_start := None; tl_duration := Num 100; tl_repeat := Some (Num 2) |}]
              (js "http://cdn/manifest.mpd") eq_refl eq_refl scenario_safe Hb)
    as (E1 & E2 & E3).
  assert (Hone : safeTimeline (Num 1) (Num 0)
                   [{| tl_start := None; tl_duration := Num 100; tl_repeat := None |}]).
  { split; [|done]. intros k Hk. cbn [repeatCount tl_repeat] in Hk.
    assert (E : k = 0%nat \/ k = 1%nat) by lia.
    destruct E as [->| ->]; split; vm_compute; discriminate. }
  destruct (segment_urls_follow_timeline (host := plainHost) adjacentRepresentation
              adjacentTemplate
              [{| tl_start := None; tl_duration := Num 100; tl_repeat := None |}]
              (js "http://cdn/manifest.mpd") eq_refl eq_refl Hone Hb)
    as (_ & _ & A3).
  split; [rewrite E1; vm_compute; reflexivity|].
  split; [rewrite E2; reflexivity|].
  split.
  - rewrite (E3 scenarioPieces (Num 7) (Num 600) eq_refl scenarioPieces_wellFormed
               Hid H7 H600).
    vm_compute. reflexivity.
  - rewrite (A3 adjacentPieces (Num 7) (Num 600) eq_refl adjacentPieces_wellFormed
               Hid H7 H600).
    vm_compute. reflexivity.
Defined.

(** ** The downloader *)

Section DownloaderProps.
Context {host : Host}.

(** *** Tasks and the callback of [processQueue] *)

Lemma taskThrow_callback pq n m jobId d :
  taskThrow pq n m jobId d = pq (taskThrow noCallback n m jobId d).
Proof. unfold taskThrow, settle. repeat case_match; done. Qed.

Lemma taskReturn_callback pq jobId d :
  taskReturn pq jobId d = pq (taskReturn noCallback jobId d).
Proof. unfold taskReturn, settle. repeat case_match; done. Qed.

Lemma hlsLoop_callback pq segs i bytes jobId job d :
  callbackCases pq d (hlsLoop noCallback segs i bytes jobId job d)
    (hlsLoop pq segs i bytes jobId job d).
Proof.
  unfold callbackCases, hlsLoop, startMerge.
  repeat case_match; rewrite ?(taskThrow_callback pq); auto.
Qed.

Lemma dashLoop_callback pq urls i bytes jobId job d :
  callbackCases pq d (dashLoop noCallback urls i bytes jobId job d)
    (dashLoop pq urls i bytes jobId job d).
Proof.
  unfold callbackCases, dashLoop, startMerge.
  repeat case_match; rewrite ?(taskThrow_callback pq); auto.
Qed.

Lemma callbackCases_from pq d0 d r0 r :
  callbackCases pq d0 r0 r ->
  queue d0 = queue d -> activeDownloads d0 = activeDownloads d ->
  maxConcurrent d0 = maxConcurrent d ->
  callbackCases pq d r0 r.
Proof.
  intros [(E & ? & ? & ?)|E] ? ? ?; [left|right]; [|done].
  repeat split; congruence.
Qed.

Lemma continueTask_callback pq k payload jobId job d :
  callbackCases pq d (continueTask noCallback k payload jobId job d)
    (continueTask pq k payload jobId job d).
Proof.
  destruct k; cbn [continueTask];
    try apply hlsLoop_callback; try apply dashLoop_callback;
    try (eapply callbackCases_from; [apply hlsLoop_callback|done..]);
    try (eapply callbackCases_from; [apply dashLoop_callback|done..]);
    unfold callbackCases;
    repeat case_match;
    rewrite ?(taskThrow_callback pq), ?(taskReturn_callback pq); auto.
  apply dashLoop_callback.
Qed.

Lemma resume_callback pq jobId r d :
  callbackCases pq d (resume noCallback jobId r d) (resume pq jobId r d).
Proof.
  unfold resume. repeat case_match; subst;
    try apply continueTask_callback;
    unfold callbackCases; rewrite ?(taskThrow_callback pq); auto.
Qed.

Lemma executeDownload_callback pq jobId d :
  callbackCases pq d (executeDownload noCallback jobId d) (executeDownload pq jobId d)
  \/ (executeDownload pq jobId d = executeDownload noCallback jobId d).
Proof.
  unfold callbackCases, executeDownload.
  repeat case_match; rewrite ?(taskThrow_callback pq); auto.
Qed.

(** *** The queue *)

Lemma executeDownload_queue jobId d :
  queue (executeDownload noCallback jobId d) = queue d
  /\ maxConcurrent (executeDownload noCallback jobId d) = maxConcurrent d.
Proof.
  unfold executeDownload, taskThrow, settle, noCallback.
  repeat case_match; done.
Qed.

Lemma processQueue_go_steps (f : nat) (d : Downloader) : rtc qstep d (processQueue_go f d).
Proof.
  revert d. induction f as [|f IH]; intros d; [done|].
  cbn [processQueue_go].
  destruct (activeDownloads d <? maxConcurrent d)%Z eqn:Hlt; [|done].
  destruct (queue d) as [|jobId rest] eqn:Hq; [done|].
  apply Z.ltb_lt in Hlt.
  pose proof (qstep_execute d jobId rest Hq Hlt) as Hstep.
  destruct (executeDownload_callback (processQueue_go f) jobId (shiftQueue rest d))
    as [[(-> & _)| ->]| ->].
  - eapply rtc_l; [exact Hstep|]. apply IH.
  - eapply rtc_l; [exact Hstep|]. etrans; apply IH.
  - eapply rtc_l; [exact Hstep|]. apply IH.
Qed.

Lemma processQueue_steps (d : Downloader) : rtc qstep d (processQueue d).
Proof. apply processQueue_go_steps. Qed.

Lemma processQueue_go_queue (f : nat) (d : Downloader) :
  (length (queue (processQueue_go f d)) <= length (queue d))%nat
  /\ maxConcurrent (processQueue_go f d) = maxConcurrent d.
Proof.
  revert d. induction f as [|f IH]; intros d; [done|].
  cbn [processQueue_go].
  destruct (activeDownloads d <? maxConcurrent d)%Z; [|done].
  destruct (queue d) as [|jobId rest] eqn:Hq; [by rewrite Hq|].
  destruct (executeDownload_queue jobId (shiftQueue rest d)) as [Eq Em].
  cbn [shiftQueue queue maxConcurrent] in Eq, Em.
  destruct (executeDownload_callback (processQueue_go f) jobId (shiftQueue rest d))
    as [[(-> & _)| ->]| ->].
  - destruct (IH (executeDownload noCallback jobId (shiftQueue rest d))) as [H1 H2].
    rewrite Eq in H1. rewrite H2, Em. simpl. split; [lia|done].
  - destruct (IH (executeDownload noCallback jobId (shiftQueue rest d))) as [H1 H2].
    destruct (IH (processQueue_go f (executeDownload noCallback jobId (shiftQueue rest d))))
      as [H3 H4].
    rewrite Eq in H1. rewrite H4, H2, Em. simpl. split; [lia|done].
  - destruct (IH (executeDownload noCallback jobId (shiftQueue rest d))) as [H1 H2].
    rewrite Eq in H1. rewrite H2, Em. simpl. split; [lia|done].
Qed.

(** When [processQueue] returns, the queue is empty or no slot is free. *)
Lemma processQueue_go_done (f : nat) (d : Downloader) :
  (length (queue d) <= f)%nat ->
  (activeDownloads (processQueue_go f d) < maxConcurrent (processQueue_go f d))%Z ->
  queue (processQueue_go f d) = [].
Proof.
  revert d. induction f as [|f IH]; intros d Hf.
  - simpl. destruct (queue d); [done|simpl in Hf; lia].
  - cbn [processQueue_go].
    destruct (activeDownloads d <? maxConcurrent d)%Z eqn:Hlt.
    + destruct (queue d) as [|jobId rest] eqn:Hq; [by rewrite Hq|].
      simpl in Hf. apply IH.
      destruct (executeDownload_queue jobId (shiftQueue rest d)) as [Eq _].
      cbn [shiftQueue queue] in Eq.
      destruct (executeDownload_callback (processQueue_go f) jobId (shiftQueue rest d))
        as [[(-> & _)| ->]| ->]; rewrite ?Eq; try lia.
      destruct (processQueue_go_queue f (executeDownload noCallback jobId (shiftQueue rest d)))
        as [H1 _]. rewrite Eq in H1. lia.
    + apply Z.ltb_ge in Hlt. lia.
Qed.

Lemma processQueue_done (d : Downloader) : slotOrEmpty (processQueue d).
Proof. intros H. unfold processQueue in *. by apply processQueue_go_done. Qed.

(** *** Events of one job *)

Lemma eventsOf_emit (jobId : jsstring) (e : Event) (evs : list Event) :
  eventsOf jobId (evs ++ [e])
  = eventsOf jobId evs ++ (if jsstring_eqb (eventJob e) jobId then [e] else []).
Proof. unfold eventsOf. by rewrite List.filter_app. Qed.

Lemma eventsOf_emit_same (jobId : jsstring) (e : Event) (evs : list Event) :
  eventJob e = jobId -> eventsOf jobId (evs ++ [e]) = eventsOf jobId evs ++ [e].
Proof.
  intros E. rewrite eventsOf_emit. unfold jsstring_eqb.
  by rewrite bool_decide_eq_true_2.
Qed.

Lemma eventsOf_emit_other (jobId : jsstring) (e : Event) (evs : list Event) :
  eventJob e <> jobId -> eventsOf jobId (evs ++ [e]) = eventsOf jobId evs.
Proof.
  intros E. rewrite eventsOf_emit. unfold jsstring_eqb.
  rewrite bool_decide_eq_false_2 by done. by rewrite app_nil_r.
Qed.

Lemma noTerminal_count (l : list Event) : noTerminal l -> terminalCount l = 0%nat.
Proof.
  unfold terminalCount. induction 1 as [|e l He _ IH]; [done|]. simpl. by rewrite He.
Qed.

Lemma terminalCount_snoc (l : list Event) (e : Event) :
  terminalCount (l ++ [e]) = (terminalCount l + if isTerminal e then 1 else 0)%nat.
Proof.
  unfold terminalCount. rewrite List.filter_app, length_app. simpl.
  by destruct (isTerminal e).
Qed.

Lemma traceShape_noTerminal (l : list Event) : noTerminal l -> traceShape l.
Proof.
  intros Hl l1 e l2 -> He. apply Forall_app in Hl as [_ Hl].
  apply Forall_cons in Hl as [Hl _]. congruence.
Qed.

Lemma traceShape_snoc (l : list Event) (e : Event) : noTerminal l -> traceShape (l ++ [e]).
Proof.
  intros Hl l1 e' l2 E He.
  destruct l2 as [|x l2 _] using rev_ind; [done|]. exfalso.
  rewrite app_comm_cons, app_assoc in E. apply app_inj_tail in E as [-> _].
  apply Forall_app in Hl as [_ Hl]. apply Forall_cons in Hl as [Hl _]. congruence.
Qed.

(** *** The invariant *)

Ltac fields :=
  cbn [downloadPath maxConcurrent ffmpegAvailable jobs activeDownloads queue
       abortControllers tasks listeners requests events] in *.

Lemma Inv_request r d : Inv d -> Inv (request r d).
Proof. intros []. by constructor. Qed.

Lemma Inv_setDownloadPath p d : Inv d -> Inv (setDownloadPath p d).
Proof. intros []. by constructor. Qed.

Lemma Inv_not_queued d jobId :
  Inv d -> is_Some (tasks d !! jobId) \/ jobId ∈ listeners d -> jobId ∉ queue d.
Proof.
  intros HI H Hq. destruct (inv_queue d HI jobId Hq) as ((job & Hj & Hs) & Ht & _).
  destruct H as [[t H]|H]; [congruence|].
  destruct (inv_listen d HI jobId H) as (job' & Hj' & _ & Hs'). congruence.
Qed.

Lemma Inv_job d jobId :
  Inv d -> is_Some (tasks d !! jobId) \/ jobId ∈ listeners d -> is_Some (jobs d !! jobId).
Proof.
  intros HI [[t H]|H].
  - destruct (inv_task d HI jobId t H) as ((job & Hj & _) & _). by rewrite Hj.
  - destruct (inv_listen d HI jobId H) as (job & Hj & _). by rewrite Hj.
Qed.

Lemma Inv_suspend jobId k d :
  Inv d -> is_Some (tasks d !! jobId) -> Inv (suspend jobId k d).
Proof.
  intros HI Ht. pose proof (Inv_not_queued d jobId HI (or_introl Ht)) as Hnq.
  destruct HI as [H1 H2 H3 H4 H5 H6 H7 H8 H9 H10].
  constructor; unfold suspend; fields; try done.
  - intros j Hj. destruct (H2 j Hj) as (? & ? & ?). split_and!; try done.
    rewrite lookup_insert_ne; [done|]. by intros ->.
  - intros j t. destruct (decide (j = jobId)) as [->|Hne].
    + intros _. destruct Ht as [t' Ht]. by apply (H4 jobId t').
    + rewrite lookup_insert_ne by done. apply H4.
  - intros j Hj. destruct (decide (j = jobId)) as [->|Hne].
    + by rewrite lookup_insert_eq.
    + rewrite lookup_insert_ne by done. by apply H5.
Qed.

Lemma suspend_task jobId k d : is_Some (tasks (suspend jobId k d) !! jobId).
Proof. unfold suspend; fields. by rewrite lookup_insert_eq. Qed.

(** A change of a job that keeps its stream, and either keeps its status
    and error or moves a job that is not pending to a status that is neither
    pending nor final. *)
Lemma Inv_updJob jobId f d :
  Inv d ->
  (forall job, stream (f job) = stream job) ->
  (forall job, jobs d !! jobId = Some job ->
     (status (f job) = status job /\ error (f job) = error job)
     \/ (status job <> Pending /\ status (f job) <> Pending
         /\ status (f job) <> Completed /\ status (f job) <> Failed)) ->
  Inv (updJob jobId f d).
Proof.
  intros [H1 H2 H3 H4 H5 H6 H7 H8 H9 H10] Hst Hf.
  constructor; unfold updJob; fields; try done.
  - intros j Hj. destruct (H2 j Hj) as ((job & Hjob & Hs) & ? & ?). split_and!; try done.
    destruct (decide (j = jobId)) as [->|Hne].
    + exists (f job). rewrite lookup_alter_eq, Hjob. split; [done|].
      destruct (Hf job Hjob) as [[-> _]|[? _]]; done.
    + exists job. by rewrite lookup_alter_ne.
  - intros j job. destruct (decide (j = jobId)) as [->|Hne].
    + intros Hj Hs. apply lookup_alter_Some in Hj as [(_ & job0 & E & ->)|[? _]]; [|done].
      apply (H3 jobId job0 E).
      destruct (Hf job0 E) as [[<- _]|(_ & ? & _)]; done.
    + rewrite lookup_alter_ne by done. apply H3.
  - intros j t Ht. destruct (H4 j t Ht) as ((job & Hjob & Hs1 & Hs2 & Hs3) & Hev).
    split; [|done]. destruct (decide (j = jobId)) as [->|Hne].
    + exists (f job). rewrite lookup_alter_eq, Hjob. split; [done|].
      destruct (Hf job Hjob) as [[-> _]|(_ & ? & ? & ?)]; done.
    + exists job. by rewrite lookup_alter_ne.
  - intros j Hj. destruct (H6 j Hj) as (job & Hjob & Hty & Hs).
    destruct (decide (j = jobId)) as [->|Hne].
    + exists (f job). rewrite lookup_alter_eq, Hjob, Hst. split_and!; try done.
      destruct (Hf job Hjob) as [[-> _]|(_ & ? & _)]; done.
    + exists job. by rewrite lookup_alter_ne.
  - intros e He. apply lookup_alter_is_Some. by apply H7.
  - intros j job. destruct (decide (j = jobId)) as [->|Hne].
    + intros Hj Hl. apply lookup_alter_Some in Hj as [(_ & job0 & E & ->)|[? _]]; [|done].
      destruct (H10 jobId job0 E Hl) as [Hc Hfl].
      destruct (Hf job0 E) as [[Es Ee]|(_ & _ & ? & ?)]; [|done].
      rewrite Es, Ee. done.
    + rewrite lookup_alter_ne by done. apply H10.
Qed.

Lemma Inv_withProgress jobId p d : Inv d -> Inv (updJob jobId (withProgress p) d).
Proof. intros HI. apply Inv_updJob; [done|done|]. intros job _. by left. Qed.

Lemma Inv_withOutputPath jobId o d : Inv d -> Inv (updJob jobId (withOutputPath o) d).
Proof. intros HI. apply Inv_updJob; [done|done|]. intros job _. by left. Qed.

Lemma Inv_merging jobId d :
  Inv d -> is_Some (tasks d !! jobId) -> Inv (updJob jobId (withStatus Merging) d).
Proof.
  intros HI [t Ht]. apply Inv_updJob; [done|done|]. intros job Hjob. right.
  destruct (inv_task d HI jobId t Ht) as ((job' & Hjob' & ? & _) & _).
  simplify_eq. done.
Qed.

Lemma Inv_progress jobId p d :
  Inv d -> is_Some (tasks d !! jobId) \/ jobId ∈ listeners d ->
  Inv (emit (EvProgress jobId p) d).
Proof.
  intros HI Hl. pose proof (Inv_not_queued d jobId HI Hl) as Hnq.
  pose proof (Inv_job d jobId HI Hl) as Hjob.
  destruct HI as [H1 H2 H3 H4 H5 H6 H7 H8 H9 H10].
  constructor; unfold emit; fields; try done.
  - intros j Hj. destruct (H2 j Hj) as (? & ? & ?). split_and!; try done.
    rewrite eventsOf_emit_other; [done|]. simpl. by intros ->.
  - intros j t Ht. destruct (H4 j t Ht) as (? & Hev). split; [done|].
    rewrite eventsOf_emit. apply Forall_app. split; [done|].
    case_match; by repeat constructor.
  - intros e He. apply elem_of_app in He as [He|He]; [by apply H7|].
    apply list_elem_of_singleton in He as ->. done.
  - intros j Hj. destruct (decide (j = jobId)) as [->|Hne].
    + rewrite eventsOf_emit_same by done. apply traceShape_snoc.
      destruct Hl as [[t Ht]|Hl]; [|done]. by destruct (H4 jobId t Ht).
    + rewrite eventsOf_emit_other; [by apply H8|]. simpl. congruence.
  - intros j. rewrite eventsOf_emit. case_match.
    + rewrite terminalCount_snoc. simpl. rewrite Nat.add_0_r. apply H9.
    + rewrite app_nil_r. apply H9.
  - intros j job Hj Hnl. destruct (decide (j = jobId)) as [->|Hne].
    + destruct Hl as [[t Ht]|Hl]; [|done].
      destruct (H4 jobId t Ht) as ((job' & Hjob' & ? & ? & ?) & _). simplify_eq.
      split; intros; done.
    + rewrite eventsOf_emit_other; [by apply H10|]. simpl. congruence.
Qed.

Lemma Inv_settle jobId d :
  Inv d -> Inv (settle noCallback jobId d).
Proof.
  intros [H1 H2 H3 H4 H5 H6 H7 H8 H9 H10].
  constructor; unfold settle, noCallback; fields; try done.
  - intros j Hj. destruct (H2 j Hj) as (? & ? & ?). split_and!; try done.
    apply lookup_delete_None. by right.
  - intros j t Ht. apply lookup_delete_Some in Ht as [_ Ht]. by apply (H4 j t).
  - intros j Hj. apply elem_of_difference in Hj as [Hj Hne].
    rewrite lookup_delete_ne; [by apply H5|].
    intros ->. apply Hne. by apply elem_of_singleton.
Qed.

Lemma settle_task jobId d : tasks (settle noCallback jobId d) !! jobId = None.
Proof. unfold settle, noCallback; fields. by rewrite lookup_delete_eq. Qed.

(** The end of a job that is no longer a task: its terminal event. *)
Lemma Inv_terminal jobId job e g d :
  Inv d -> jobs d !! jobId = Some job -> status job <> Pending ->
  tasks d !! jobId = None -> noTerminal (eventsOf jobId (events d)) ->
  (e = EvComplete jobId (outputPath job) /\ g = withStatus Completed)
  \/ (exists m, e = EvError jobId m /\ g = (fun j => withError m (withStatus Failed j))) ->
  Inv (emit e (updJob jobId g d)).
Proof.
  intros [H1 H2 H3 H4 H5 H6 H7 H8 H9 H10] Hjob Hs Ht Hev Hcase.
  assert (Hje : eventJob e = jobId) by (by destruct Hcase as [[-> _]|(m & -> & _)]).
  assert (Hte : isTerminal e = true) by (by destruct Hcase as [[-> _]|(m & -> & _)]).
  assert (Hgs : forall j, stream (g j) = stream j)
    by (by destruct Hcase as [[_ ->]|(m & _ & ->)]).
  assert (Hgp : status (g job) <> Pending)
    by (by destruct Hcase as [[_ ->]|(m & _ & ->)]).
  assert (Hnq : jobId ∉ queue d).
  { intros Hq. destruct (H2 jobId Hq) as ((job0 & ? & ?) & _). by simplify_eq. }
  constructor; unfold emit, updJob; fields; try done.
  - intros j Hj. destruct (H2 j Hj) as ((job' & Hjob' & Hs') & ? & ?).
    assert (j <> jobId) by (by intros ->).
    split_and!; try done.
    + exists job'. by rewrite lookup_alter_ne.
    + rewrite eventsOf_emit_other; [done|]. congruence.
  - intros j job'. destruct (decide (j = jobId)) as [->|Hne].
    + rewrite lookup_alter_eq, Hjob. intros [= <-] ?. done.
    + rewrite lookup_alter_ne by done. apply H3.
  - intros j t Hjt. assert (j <> jobId) by (intros ->; congruence).
    rewrite lookup_alter_ne by done. rewrite eventsOf_emit_other by congruence.
    by apply (H4 j t).
  - intros j Hj. destruct (H6 j Hj) as (job' & Hjob' & Hty & Hs').
    destruct (decide (j = jobId)) as [->|Hne].
    + simplify_eq. exists (g job). rewrite lookup_alter_eq, Hjob, Hgs. done.
    + exists job'. by rewrite lookup_alter_ne.
  - intros e' He. apply lookup_alter_is_Some.
    apply elem_of_app in He as [He|He]; [by apply H7|].
    apply list_elem_of_singleton in He as ->. by rewrite Hje, Hjob.
  - intros j Hj. destruct (decide (j = jobId)) as [->|Hne].
    + rewrite eventsOf_emit_same by done. by apply traceShape_snoc.
    + rewrite eventsOf_emit_other; [by apply H8|]. congruence.
  - intros j. destruct (decide (j = jobId)) as [->|Hne].
    + rewrite eventsOf_emit_same by done. rewrite terminalCount_snoc, Hte.
      rewrite noTerminal_count by done. done.
    + rewrite eventsOf_emit_other; [by apply H9|]. congruence.
  - intros j job' Hj Hnl. destruct (decide (j = jobId)) as [->|Hne].
    + rewrite lookup_alter_eq, Hjob in Hj. injection Hj as <-.
      rewrite eventsOf_emit_same by done. rewrite last_snoc.
      destruct Hcase as [[-> ->]|(m & -> & ->)]; simpl; split; try done.
      * intros _. by eexists.
      * intros _. by eexists.
    + rewrite lookup_alter_ne in Hj by done.
      rewrite eventsOf_emit_other; [by apply (H10 j job')|]. congruence.
Qed.

Lemma eventsOf_absent d jobId :
  Inv d -> jobs d !! jobId = None -> eventsOf jobId (events d) = [].
Proof.
  intros HI Hj. pose proof (inv_events d HI) as He.
  unfold eventsOf. induction (events d) as [|e l IH]; [done|].
  simpl. unfold jsstring_eqb at 1. rewrite bool_decide_eq_false_2.
  - apply IH. intros e' He'. apply He. by right.
  - intros E. destruct (He e) as [job Hjob]; [by left|]. congruence.
Qed.

Lemma Inv_absent d jobId :
  Inv d -> jobs d !! jobId = None ->
  (jobId ∉ queue d) /\ tasks d !! jobId = None /\ (jobId ∉ abortControllers d)
  /\ (jobId ∉ listeners d).
Proof.
  intros HI Hj.
  assert (Ht : tasks d !! jobId = None).
  { destruct (tasks d !! jobId) as [t|] eqn:E; [|done].
    destruct (inv_task d HI jobId t E) as ((job & ? & _) & _). congruence. }
  split_and!; try done.
  - intros Hq. destruct (inv_queue d HI jobId Hq) as ((job & ? & _) & _). congruence.
  - intros Hc. destruct (inv_ctrl d HI jobId Hc) as [t ?]. congruence.
  - intros Hl. destruct (inv_listen d HI jobId Hl) as (job & ? & _). congruence.
Qed.

Lemma Inv_newDownloader path maxConc ffmpeg : Inv (newDownloader path maxConc ffmpeg).
Proof.
  constructor; unfold newDownloader; fields; try done.
  - constructor.
  - intros j Hj. by apply elem_of_nil in Hj.
  - intros e He. by apply elem_of_nil in He.
  - intros j _ l1 e l2 E. by destruct l1.
  - intros j. unfold terminalCount. simpl. lia.
Qed.

Lemma Inv_enqueue s quality audio jobId d :
  Inv d -> jobs d !! jobId = None -> Inv (enqueue s quality audio jobId d).
Proof.
  intros HI Hj. destruct (Inv_absent d jobId HI Hj) as (Hnq & Hnt & Hnc & Hnl).
  pose proof (eventsOf_absent d jobId HI Hj) as Hev.
  destruct HI as [H1 H2 H3 H4 H5 H6 H7 H8 H9 H10].
  constructor; unfold enqueue; fields; try done.
  - apply NoDup_app. split_and!; [done| |apply NoDup_singleton].
    intros x Hx Hx'. apply list_elem_of_singleton in Hx' as ->. done.
  - intros j Hq. apply elem_of_app in Hq as [Hq|Hq].
    + destruct (H2 j Hq) as ((job & Hjob & Hs) & ? & ?). split_and!; try done.
      exists job. rewrite lookup_insert_ne; [done|]. intros ->. congruence.
    + apply list_elem_of_singleton in Hq as ->. split_and!; try done.
      eexists. rewrite lookup_insert_eq. done.
  - intros j job Hjob Hs. apply elem_of_app.
    destruct (decide (j = jobId)) as [->|Hne].
    + right. by apply list_elem_of_singleton.
    + left. rewrite lookup_insert_ne in Hjob by done. by apply (H3 j job).
  - intros j t Ht. destruct (H4 j t Ht) as ((job & Hjob & Hs) & ?). split; [|done].
    exists job. rewrite lookup_insert_ne; [done|]. intros ->. congruence.
  - intros j Hl. destruct (H6 j Hl) as (job & Hjob & Hs).
    exists job. rewrite lookup_insert_ne; [done|]. intros ->. congruence.
  - intros e He. apply lookup_insert_is_Some'. right. by apply H7.
  - intros j job Hjob Hl. destruct (decide (j = jobId)) as [->|Hne].
    + rewrite lookup_insert_eq in Hjob. injection Hjob as <-. simpl. done.
    + rewrite lookup_insert_ne in Hjob by done. by apply H10.
Qed.

Lemma removeFirst_elem jobId q j :
  NoDup q -> (j ∈ removeFirst jobId q) <-> (j ∈ q /\ j <> jobId).
Proof.
  induction 1 as [|x q Hx Hq IH]; simpl.
  - split; [intros H|intros [H _]]; by apply elem_of_nil in H.
  - unfold jsstring_eqb. case_bool_decide as E.
    + subst x. rewrite elem_of_cons. split.
      * intros H. split; [by right|]. by intros ->.
      * intros [[?|?] ?]; done.
    + rewrite !elem_of_cons, IH. split.
      * intros [->|[? ?]]; auto.
      * intros [[->|?] ?]; auto.
Qed.

Lemma removeFirst_NoDup jobId q : NoDup q -> NoDup (removeFirst jobId q).
Proof.
  induction 1 as [|x q Hx Hq IH]; simpl; [constructor|].
  case_match; [done|]. constructor; [|done].
  rewrite removeFirst_elem by done. by intros [? _].
Qed.

Lemma removeFirst_absent jobId q : jobId ∉ q -> removeFirst jobId q = q.
Proof.
  induction q as [|x q IH]; simpl; [done|].
  rewrite not_elem_of_cons. intros [Hne Hq].
  unfold jsstring_eqb. rewrite bool_decide_eq_false_2 by done. by rewrite IH.
Qed.

Lemma Inv_cancelDownload jobId d : Inv d -> Inv (cancelDownload jobId d).
Proof.
  intros [H1 H2 H3 H4 H5 H6 H7 H8 H9 H10].
  assert (Htask : forall j,
    (if bool_decide (jobId ∈ abortControllers d)
     then alter (fun t : Task * bool => (t.1, true)) jobId (tasks d)
     else tasks d) !! j = None <-> tasks d !! j = None).
  { intros j. case_bool_decide; [|done]. apply lookup_alter_None. }
  constructor; unfold cancelDownload; fields; try done.
  - by apply removeFirst_NoDup.
  - intros j Hq. apply removeFirst_elem in Hq as [Hq Hne]; [|done].
    destruct (H2 j Hq) as ((job & Hjob & Hs) & ? & ?). split_and!; try done.
    + exists job. by rewrite lookup_alter_ne.
    + by apply Htask.
  - intros j job Hjob Hs.
    apply lookup_alter_Some in Hjob as [(_ & job0 & _ & ->)|[Hne Hjob]]; [done|].
    apply removeFirst_elem; [done|]. split; [by apply (H3 j job)|done].
  - intros j t Ht.
    destruct (tasks d !! j) as [t0|] eqn:E; [|apply Htask in E; congruence].
    destruct (H4 j t0 E) as ((job & Hjob & ? & ? & ?) & ?). split; [|done].
    destruct (decide (j = jobId)) as [->|Hne].
    + exists (withStatus Cancelled job). by rewrite lookup_alter_eq, Hjob.
    + exists job. by rewrite lookup_alter_ne.
  - intros j Hj.
    assert (Hc : j ∈ abortControllers d).
    { destruct (bool_decide (jobId ∈ abortControllers d)); [|done].
      by apply elem_of_difference in Hj as [? _]. }
    destruct (H5 j Hc) as [t Ht].
    apply not_eq_None_Some. intros E. apply Htask in E. congruence.
  - intros j Hl. destruct (H6 j Hl) as (job & Hjob & ? & ?).
    destruct (decide (j = jobId)) as [->|Hne].
    + exists (withStatus Cancelled job). by rewrite lookup_alter_eq, Hjob.
    + exists job. by rewrite lookup_alter_ne.
  - intros e He. apply lookup_alter_is_Some. by apply H7.
  - intros j job Hjob Hl.
    apply lookup_alter_Some in Hjob as [(_ & job0 & _ & ->)|[Hne Hjob]]; [done|].
    by apply H10.
Qed.

Lemma Inv_downloadProgress jobId n d : Inv d -> Inv (downloadProgress jobId n d).
Proof.
  intros HI. unfold downloadProgress. case_bool_decide as Hl; [|done].
  apply Inv_progress; [by apply Inv_withProgress|]. by right.
Qed.

Lemma Inv_taskReturn jobId d :
  Inv d -> is_Some (tasks d !! jobId) -> Inv (taskReturn noCallback jobId d).
Proof.
  intros HI [t Ht]. destruct (inv_task d HI jobId t Ht) as ((job & Hjob & Hs & _) & Hev).
  unfold taskReturn. rewrite Hjob. case_bool_decide; [by apply Inv_settle|].
  change (Inv (emit (EvComplete jobId (outputPath job))
                 (updJob jobId (withStatus Completed) (settle noCallback jobId d)))).
  eapply Inv_terminal; [by apply Inv_settle|exact Hjob|done|apply settle_task|done|].
  by left.
Qed.

Lemma Inv_taskThrow n m jobId d :
  Inv d -> is_Some (tasks d !! jobId) -> Inv (taskThrow noCallback n m jobId d).
Proof.
  intros HI [t Ht]. destruct (inv_task d HI jobId t Ht) as ((job & Hjob & Hs & _) & Hev).
  unfold taskThrow. rewrite Hjob. case_match; [|by apply Inv_settle].
  change (Inv (emit (EvError jobId m)
                 (updJob jobId (fun j => withError m (withStatus Failed j))
                    (settle noCallback jobId d)))).
  eapply Inv_terminal; [by apply Inv_settle|exact Hjob|done|apply settle_task|done|].
  right. by exists m.
Qed.

Lemma Inv_begun jobId rest k d :
  Inv d -> queue d = jobId :: rest ->
  Inv (suspend jobId k (begun jobId (shiftQueue rest d))).
Proof.
  intros HI Hq.
  assert (Hin : jobId ∈ queue d) by (rewrite Hq; by left).
  destruct (inv_queue d HI jobId Hin) as ((job & Hjob & Hs) & Ht & Hev).
  pose proof (inv_nodup d HI) as Hnd. rewrite Hq in Hnd.
  apply NoDup_cons in Hnd as [Hnr Hnd].
  destruct HI as [H1 H2 H3 H4 H5 H6 H7 H8 H9 H10].
  constructor; unfold suspend, begun, shiftQueue; fields; try done.
  - intros j Hj. assert (j <> jobId) by (by intros ->).
    destruct (H2 j) as ((job' & Hjob' & Hs') & ? & ?); [rewrite Hq; by right|].
    split_and!; try done.
    + exists job'. by rewrite lookup_alter_ne.
    + by rewrite lookup_insert_ne.
  - intros j job' Hjob' Hs'.
    apply lookup_alter_Some in Hjob' as [(_ & job0 & _ & ->)|[Hne Hjob']]; [done|].
    pose proof (H3 j job' Hjob' Hs') as Hj. rewrite Hq in Hj.
    apply elem_of_cons in Hj as [->|Hj]; done.
  - intros j t. destruct (decide (j = jobId)) as [->|Hne].
    + intros _. rewrite Hev. split; [|constructor].
      exists (withStatus Downloading job). by rewrite lookup_alter_eq, Hjob.
    + rewrite lookup_insert_ne, lookup_alter_ne by done. apply H4.
  - intros j Hj. destruct (decide (j = jobId)) as [->|Hne].
    + by rewrite lookup_insert_eq.
    + rewrite lookup_insert_ne by done. apply H5.
      apply elem_of_union in Hj as [Hj|Hj]; [by apply elem_of_singleton in Hj|done].
  - intros j Hl. destruct (H6 j Hl) as (job' & Hjob' & ? & ?).
    assert (j <> jobId) by (intros ->; congruence).
    exists job'. by rewrite lookup_alter_ne.
  - intros e He. apply lookup_alter_is_Some. by apply H7.
  - intros j job' Hjob' Hl.
    apply lookup_alter_Some in Hjob' as [(_ & job0 & _ & ->)|[Hne Hjob']]; [done|].
    by apply H10.
Qed.

Lemma Inv_addListener jobId d :
  Inv d -> is_Some (tasks d !! jobId) ->
  (forall job, jobs d !! jobId = Some job -> st_type (stream job) = TyDirect) ->
  Inv (addListener jobId d).
Proof.
  intros HI [t Ht] Hty.
  destruct (inv_task d HI jobId t Ht) as ((job & Hjob & Hs & _) & Hev).
  destruct HI as [H1 H2 H3 H4 H5 H6 H7 H8 H9 H10].
  constructor; unfold addListener; fields; try done.
  - intros j Hl. apply elem_of_union in Hl as [Hl|Hl]; [|by apply H6].
    apply elem_of_singleton in Hl as ->. exists job. split_and!; try done. by apply Hty.
  - intros j Hl. apply H8. intros ?. apply Hl, elem_of_union. by right.
  - intros j job' Hjob' Hl. apply H10; [done|].
    intros ?. apply Hl, elem_of_union. by right.
Qed.

Lemma Live_request jobId r d : Live jobId d -> Live jobId (request r d).
Proof. intros [HI Ht]. split; [by apply Inv_request|done]. Qed.

Lemma Live_suspend jobId k d : Live jobId d -> Live jobId (suspend jobId k d).
Proof. intros [HI Ht]. split; [by apply Inv_suspend|apply suspend_task]. Qed.

Lemma Live_withOutputPath jobId o d :
  Live jobId d -> Live jobId (updJob jobId (withOutputPath o) d).
Proof. intros [HI Ht]. split; [by apply Inv_withOutputPath|done]. Qed.

Lemma Live_merging jobId d : Live jobId d -> Live jobId (updJob jobId (withStatus Merging) d).
Proof. intros [HI Ht]. split; [by apply Inv_merging|done]. Qed.

Lemma Live_reportSegment total i bytes jobId d :
  Live jobId d -> Live jobId (reportSegment total i bytes jobId d).
Proof.
  intros [HI Ht]. split; [|done]. unfold reportSegment.
  apply Inv_progress; [by apply Inv_withProgress|by left].
Qed.

Lemma Live_taskReturn jobId d : Live jobId d -> Inv (taskReturn noCallback jobId d).
Proof. intros [HI Ht]. by apply Inv_taskReturn. Qed.

Lemma Live_taskThrow n m jobId d : Live jobId d -> Inv (taskThrow noCallback n m jobId d).
Proof. intros [HI Ht]. by apply Inv_taskThrow. Qed.

Lemma Live_Inv jobId d : Live jobId d -> Inv d.
Proof. by intros [HI _]. Qed.

Lemma Live_startMerge dash jobId job d :
  Live jobId d -> Inv (startMerge dash jobId job d).
Proof.
  intros HL. unfold startMerge. cbv zeta.
  repeat case_match; by apply (Live_Inv jobId), Live_suspend, Live_merging.
Qed.

Lemma Live_hlsLoop segs i bytes jobId job d :
  Live jobId d -> Inv (hlsLoop noCallback segs i bytes jobId job d).
Proof.
  intros HL. unfold hlsLoop. repeat case_match.
  - by apply Live_taskThrow.
  - by apply (Live_Inv jobId), Live_suspend, Live_request.
  - by apply Live_startMerge.
Qed.

Lemma Live_dashLoop urls i bytes jobId job d :
  Live jobId d -> Inv (dashLoop noCallback urls i bytes jobId job d).
Proof.
  intros HL. unfold dashLoop. repeat case_match.
  - by apply Live_taskThrow.
  - by apply (Live_Inv jobId), Live_suspend, Live_request.
  - by apply Live_startMerge.
Qed.

Lemma Live_continueTask k payload jobId job d :
  Live jobId d -> Inv (continueTask noCallback k payload jobId job d).
Proof.
  intros HL.
  destruct k; cbn [continueTask]; cbv zeta; repeat case_match;
    first
      [ by apply Live_taskThrow
      | by apply Live_taskReturn, Live_withOutputPath
      | by apply Live_hlsLoop
      | by apply Live_dashLoop
      | by apply Live_hlsLoop, Live_reportSegment
      | by apply Live_dashLoop, Live_reportSegment
      | by apply (Live_Inv jobId), Live_suspend
      | by apply (Live_Inv jobId), Live_suspend, Live_request ].
Qed.

Lemma Inv_resume jobId r d : Inv d -> Inv (resume noCallback jobId r d).
Proof.
  intros HI. unfold resume.
  destruct (tasks d !! jobId) as [[k a]|] eqn:Ht; [|done].
  destruct (jobs d !! jobId) as [job|]; [|done].
  assert (HL : Live jobId d) by (split; [done|by rewrite Ht]).
  destruct r; [by apply Live_continueTask|by apply Live_taskThrow].
Qed.

Lemma taskThrow_begun n m jobId k d :
  taskThrow noCallback n m jobId (begun jobId d)
  = taskThrow noCallback n m jobId (suspend jobId k (begun jobId d)).
Proof.
  unfold taskThrow, settle, noCallback, suspend, emit, updJob, begun; fields.
  repeat case_match; fields; by rewrite delete_insert_eq.
Qed.

Lemma Inv_qstep d d' : Inv d -> qstep d d' -> Inv d'.
Proof.
  intros HI Hstep. revert HI. destruct Hstep as [d0 jobId rest Hq Hlt]. intros HI.
  assert (Hin : jobId ∈ queue d0) by (rewrite Hq; by left).
  destruct (inv_queue d0 HI jobId Hin) as ((job & Hjob & Hs) & Ht & Hev).
  pose proof (fun k => Inv_begun jobId rest k d0 HI Hq) as Hb.
  assert (HL : forall k, Live jobId (suspend jobId k (begun jobId (shiftQueue rest d0))))
    by (intros k; split; [apply Hb|apply suspend_task]).
  unfold executeDownload. cbn [shiftQueue jobs]. rewrite Hjob.
  rewrite bool_decide_eq_false_2 by (by rewrite Hs). cbv zeta.
  destruct (st_type (stream job)) eqn:Hty.
  - apply (Inv_request _ _ (Hb HlsManifest)).
  - apply (Inv_request _ _ (Hb DashManifest)).
  - apply (Inv_request (GotStream jobId (st_url (stream job)))
             (addListener jobId (suspend jobId (DirectTransfer (outputFile d0 job))
                                   (begun jobId (shiftQueue rest d0))))).
    apply Inv_addListener; [apply Hb|apply suspend_task|].
    unfold suspend, begun, shiftQueue; fields. intros job'.
    rewrite lookup_alter_eq, Hjob. by intros [= <-].
  - change (Inv (taskThrow noCallback (js "Error")
                   (js "Unsupported stream type: " ++ streamTypeName TyYtdlp) jobId
                   (begun jobId (shiftQueue rest d0)))).
    rewrite (taskThrow_begun _ _ _ HlsManifest). by apply Live_taskThrow.
  - change (Inv (taskThrow noCallback (js "Error")
                   (js "Unsupported stream type: " ++ streamTypeName TyUnknown) jobId
                   (begun jobId (shiftQueue rest d0)))).
    rewrite (taskThrow_begun _ _ _ HlsManifest). by apply Live_taskThrow.
Qed.

Lemma Inv_astep d d' : Inv d -> astep d d' -> Inv d'.
Proof.
  intros HI Hstep. revert HI.
  destruct Hstep as [d0 d1 Hq|d0 s q a jobId Hj|d0 jobId|d0 jobId r|d0 jobId n|d0 p];
    intros HI.
  - by apply (Inv_qstep d0).
  - by apply Inv_enqueue.
  - by apply Inv_cancelDownload.
  - by apply Inv_resume.
  - by apply Inv_downloadProgress.
  - by apply Inv_setDownloadPath.
Qed.

Lemma Inv_asteps d d' : rtc astep d d' -> Inv d -> Inv d'.
Proof. induction 1 as [|d1 d2 d3 H _ IH]; [done|]. intros HI. by apply IH, (Inv_astep d1). Qed.

Lemma qsteps_asteps d d' : rtc qstep d d' -> rtc astep d d'.
Proof.
  induction 1 as [|d1 d2 d3 H _ IH]; [done|].
  eapply rtc_l; [by apply astep_queue|done].
Qed.

(** Every method call and every event of the environment is a sequence of
    elementary changes. *)
Lemma perform_asteps a d : enabled a d -> rtc astep d (perform a d).
Proof.
  destruct a as [s q au jobId|jobId|jobId r|jobId n|p]; simpl; intros He.
  - eapply rtc_l; [by apply (astep_enqueue d s q au jobId)|].
    apply qsteps_asteps, processQueue_steps.
  - apply rtc_once, astep_cancel.
  - unfold resumeTask.
    destruct (resume_callback processQueue jobId r d) as [(-> & _)| ->].
    + apply rtc_once, astep_resume.
    + eapply rtc_l; [apply (astep_resume d jobId r)|].
      apply qsteps_asteps, processQueue_steps.
  - apply rtc_once, astep_progress.
  - apply rtc_once, astep_path.
Qed.

Lemma reachable_Inv d : reachable d -> Inv d.
Proof.
  induction 1 as [path maxConc ffmpeg|d a _ IH He].
  - apply Inv_newDownloader.
  - apply (Inv_asteps d); [by apply perform_asteps|done].
Qed.

(** A free slot means an empty queue. *)
Lemma reachable_slotOrEmpty d : reachable d -> slotOrEmpty d.
Proof.
  induction 1 as [path maxConc ffmpeg|d a _ IH He]; [done|].
  destruct a as [s q au jobId|jobId|jobId r|jobId n|p]; simpl.
  - apply processQueue_done.
  - unfold slotOrEmpty, cancelDownload; fields. intros Hlt. by rewrite (IH Hlt).
  - unfold resumeTask.
    destruct (resume_callback processQueue jobId r d) as [(-> & Hq & Ha & Hm)| ->].
    + unfold slotOrEmpty. rewrite Hq, Ha, Hm. apply IH.
    + apply processQueue_done.
  - unfold downloadProgress. by case_bool_decide.
  - done.
Qed.

(** *** What a round of the queue leaves alone *)

Lemma requestsOf_request_other jobId r rs :
  requestJob r <> jobId -> requestsOf jobId (rs ++ [r]) = requestsOf jobId rs.
Proof.
  intros E. unfold requestsOf. rewrite List.filter_app. simpl.
  unfold jsstring_eqb. rewrite bool_decide_eq_false_2 by done. by rewrite app_nil_r.
Qed.

Lemma requestsOf_request_same jobId r rs :
  requestJob r = jobId -> requestsOf jobId (rs ++ [r]) = requestsOf jobId rs ++ [r].
Proof.
  intros E. unfold requestsOf. rewrite List.filter_app. simpl.
  unfold jsstring_eqb. by rewrite bool_decide_eq_true_2.
Qed.

Lemma qstep_frame jobId d d' :
  qstep d d' -> jobId ∉ queue d -> sameJob jobId d d' /\ jobId ∉ queue d'.
Proof.
  intros [d0 j rest Hq Hlt] Hnq. rewrite Hq in Hnq.
  apply not_elem_of_cons in Hnq as [Hne Hnq].
  split.
  - unfold sameJob, executeDownload, taskThrow, settle, noCallback, suspend, request, emit,
      updJob, shiftQueue; fields.
    repeat case_match; fields;
      rewrite ?lookup_alter_ne, ?lookup_insert_ne, ?lookup_delete_ne by done;
      rewrite ?eventsOf_emit_other, ?requestsOf_request_other by (simpl; congruence);
      done.
  - destruct (executeDownload_queue j (shiftQueue rest d0)) as [-> _]. done.
Qed.

Lemma qsteps_frame jobId d d' :
  rtc qstep d d' -> jobId ∉ queue d -> sameJob jobId d d'.
Proof.
  induction 1 as [d|d1 d2 d3 H _ IH]; intros Hnq; [done|].
  destruct (qstep_frame jobId d1 d2 H Hnq) as [(E1 & E2 & E3 & E4) Hnq2].
  destruct (IH Hnq2) as (F1 & F2 & F3 & F4).
  unfold sameJob. by rewrite F1, F2, F3, F4.
Qed.

(** *** Events are only ever added *)

Lemma astep_events d d' : astep d d' -> events d `prefix_of` events d'.
Proof.
  intros [d0 d1 [d2 j rest Hq Hlt]|d0 s q a jobId Hj|d0 jobId|d0 jobId r|d0 jobId n|d0 p];
    try done.
  - unfold executeDownload, taskThrow, settle, noCallback, suspend, request, emit,
      updJob, shiftQueue; fields.
    repeat case_match; fields; try done; by apply prefix_app_r.
  - unfold resume. repeat case_match; try done; subst.
    + match goal with |- context [continueTask _ ?k _ _ _ _] => destruct k end;
        cbn [continueTask]; cbv zeta;
        unfold hlsLoop, dashLoop, startMerge, reportSegment, taskThrow, taskReturn, settle,
          noCallback, suspend, request, emit, updJob; fields;
        repeat case_match; fields; try done; repeat apply prefix_app_r; done.
    + unfold taskThrow, settle, noCallback, emit, updJob; fields.
      repeat case_match; fields; try done; by apply prefix_app_r.
  - unfold downloadProgress, emit, updJob. case_bool_decide; fields; [|done].
    by apply prefix_app_r.
Qed.

Lemma asteps_events d d' : rtc astep d d' -> events d `prefix_of` events d'.
Proof.
  induction 1 as [|d1 d2 d3 H _ IH]; [done|]. etrans; [by apply astep_events|done].
Qed.

(** *** [cancelDownload] *)

Lemma cancelDownload_twice jobId d :
  NoDup (queue d) ->
  cancelDownload jobId (cancelDownload jobId d) = cancelDownload jobId d.
Proof.
  intros Hnd.
  assert (Hc : bool_decide (jobId ∈ abortControllers (cancelDownload jobId d)) = false).
  { apply bool_decide_eq_false_2. unfold cancelDownload; fields.
    case_bool_decide; [|done]. rewrite elem_of_difference, elem_of_singleton. by intros [_ ?]. }
  unfold cancelDownload at 1. cbv zeta. rewrite Hc.
  unfold cancelDownload; fields. f_equal.
  - rewrite alter_alter_eq. by apply alter_ext.
  - apply removeFirst_absent. rewrite removeFirst_elem by done. by intros [_ ?].
Qed.

Lemma cancelDownload_absent jobId d :
  jobId ∉ queue d -> jobId ∉ abortControllers d -> jobs d !! jobId = None ->
  cancelDownload jobId d = d.
Proof.
  intros Hq Hc Hj. unfold cancelDownload. cbv zeta.
  rewrite bool_decide_eq_false_2 by done.
  rewrite removeFirst_absent by done.
  rewrite alter_id by (intros x; congruence).
  by destruct d.
Qed.

(** *** [startDownload] *)

Lemma processQueue_single jobId d :
  queue d = [jobId] -> (activeDownloads d < maxConcurrent d)%Z ->
  processQueue d = executeDownload noCallback jobId (shiftQueue [] d).
Proof.
  intros Hq Hlt. unfold processQueue. rewrite Hq. simpl.
  apply Z.ltb_lt in Hlt. by rewrite Hlt, Hq.
Qed.

Lemma processQueue_full d :
  (maxConcurrent d <= activeDownloads d)%Z -> processQueue d = d.
Proof.
  intros Hge. unfold processQueue. destruct (length (queue d)); [done|]. simpl.
  apply Z.ltb_ge in Hge. by rewrite Hge.
Qed.

(** C1 (amended).  [startDownload] never reads the protection of the
    stream.  In a downloader with a free slot an HLS or DASH stream, whatever
    its protection, is marked as downloading and its manifest is requested,
    and a direct stream is requested as a stream; no event is emitted.
    Without a free slot the job stays pending in the queue and nothing is
    requested. *)
Theorem startDownload_starts_any_stream d s quality audio jobId :
  reachable d -> jobs d !! jobId = None ->
  let d' := startDownload s quality audio jobId d in
  ((activeDownloads d < maxConcurrent d)%Z ->
     (st_type s = TyHls \/ st_type s = TyDash ->
        statusOf d' jobId = Some Downloading
        /\ requests d' = requests d ++ [Got jobId (st_url s)]
        /\ events d' = events d)
     /\ (st_type s = TyDirect ->
        statusOf d' jobId = Some Downloading
        /\ requests d' = requests d ++ [GotStream jobId (st_url s)]
        /\ events d' = events d))
  /\ ((maxConcurrent d <= activeDownloads d)%Z ->
        statusOf d' jobId = Some Pending /\ jobId ∈ queue d'
        /\ requests d' = requests d /\ events d' = events d).
Proof.
  intros Hr Hj d'. subst d'.
  change (startDownload s quality audio jobId d)
    with (processQueue (enqueue s quality audio jobId d)).
  split.
  - intros Hlt. pose proof (reachable_slotOrEmpty d Hr Hlt) as Hq.
    rewrite (processQueue_single jobId); [|unfold enqueue; fields; by rewrite Hq|done].
    unfold executeDownload, statusOf, shiftQueue, enqueue; fields.
    rewrite lookup_insert_eq. simpl.
    split.
    + intros [-> | ->]; unfold suspend, request; fields;
        by rewrite lookup_alter_eq, lookup_insert_eq.
    + intros ->. unfold suspend, request; fields.
      by rewrite lookup_alter_eq, lookup_insert_eq.
  - intros Hge. rewrite processQueue_full by done.
    unfold statusOf, enqueue; fields. rewrite lookup_insert_eq. split_and!; try done.
    apply elem_of_app. right. by apply list_elem_of_singleton.
Qed.

(** *** A rejected segment request *)


(** *** The events of a job *)

(** C3 (amended).  In every state a downloader can reach: events are only
    ever added at the end; [cancelDownload] emits nothing; a job has at most
    one terminal event; for a job that is not a direct download no event
    follows the terminal one, a completed job ends with its complete event
    and a failed job with the error event that carries its error; and no
    event is forwarded with the status cancelled. *)
Theorem events_of_a_job d jobId :
  reachable d ->
  (forall a, enabled a d -> events d `prefix_of` events (perform a d))
  /\ events (cancelDownload jobId d) = events d
  /\ (terminalCount (eventsOf jobId (events d)) <= 1)%nat
  /\ (forall job, jobs d !! jobId = Some job -> st_type (stream job) <> TyDirect ->
        traceShape (eventsOf jobId (events d))
        /\ (status job = Completed ->
              exists o, last (eventsOf jobId (events d)) = Some (EvComplete jobId o))
        /\ (status job = Failed ->
              exists m, last (eventsOf jobId (events d)) = Some (EvError jobId m)
                        /\ error job = Some m))
  /\ (forall e, e ∈ events d -> forwardedStatus e <> Some Cancelled).
Proof.
  intros Hr. pose proof (reachable_Inv d Hr) as HI. split_and!.
  - intros a He. by apply asteps_events, perform_asteps.
  - done.
  - apply (inv_once d HI).
  - intros job Hjob Hty.
    assert (Hnl : jobId ∉ listeners d).
    { intros Hl. destruct (inv_listen d HI jobId Hl) as (job' & ? & ? & _). congruence. }
    split; [by apply (inv_shape d HI)|]. by apply (inv_final d HI jobId job).
  - intros e _. by destruct e.
Qed.

(** *** Cancelling *)

(** C9.  In every state a downloader can reach, cancelling a job twice
    gives the state that cancelling it once gives; and cancelling a pending
    job takes it out of the queue, where it was, and marks it as
    cancelled. *)
Theorem cancelDownload_idempotent d jobId :
  reachable d ->
  cancelDownload jobId (cancelDownload jobId d) = cancelDownload jobId d
  /\ (statusOf d jobId = Some Pending ->
        jobId ∈ queue d
        /\ (jobId ∉ queue (cancelDownload jobId d))
        /\ statusOf (cancelDownload jobId d) jobId = Some Cancelled).
Proof.
  intros Hr. pose proof (reachable_Inv d Hr) as HI.
  pose proof (inv_nodup d HI) as Hnd. split; [by apply cancelDownload_twice|].
  unfold statusOf. intros Hs.
  destruct (jobs d !! jobId) as [job|] eqn:Hjob; [|done].
  injection Hs as Hs. split_and!.
  - by apply (inv_pending d HI jobId job).
  - unfold cancelDownload; fields. rewrite removeFirst_elem by done. by intros [_ ?].
  - unfold cancelDownload; fields. by rewrite lookup_alter_eq, Hjob.
Qed.

(** C10.  In every state a downloader can reach, cancelling a job that is
    not in the job table changes nothing. *)
Theorem cancelDownload_unknown_job d jobId :
  reachable d -> jobs d !! jobId = None -> cancelDownload jobId d = d.
Proof.
  intros Hr Hj. pose proof (reachable_Inv d Hr) as HI.
  destruct (Inv_absent d jobId HI Hj) as (Hq & _ & Hc & _).
  by apply cancelDownload_absent.
Qed.

End DownloaderProps.

(** *** Concrete runs *)

Lemma run_reachable {host : Host} actions d :
  reachable d -> enabledRun actions d -> reachable (run actions d).
Proof.
  revert d. induction actions as [|a rest IH]; intros d Hr He; [done|].
  destruct He as [Ha He]. apply (IH (perform a d)); [by apply reachable_step|done].
Qed.

Lemma atFirstSegment_reachable : reachable (host := plainHost) atFirstSegment.
Proof. apply run_reachable; [apply reachable_new|]. vm_compute. tauto. Qed.

Lemma secondPending_reachable : reachable (host := plainHost) secondPending.
Proof. apply run_reachable; [apply reachable_new|]. vm_compute. tauto. Qed.

Lemma atSecondSegment_reachable : reachable (host := plainHost) atSecondSegment.
Proof. apply run_reachable; [apply atFirstSegment_reachable|]. vm_compute. tauto. Qed.

Lemma atMerge_reachable : reachable (host := plainHost) atMerge.
Proof. apply run_reachable; [apply atSecondSegment_reachable|]. vm_compute. tauto. Qed.

Lemma completedJob_reachable : reachable (host := plainHost) completedJob.
Proof. apply run_reachable; [apply atMerge_reachable|]. vm_compute. tauto. Qed.

Lemma failedJob_reachable : reachable (host := plainHost) failedJob.
Proof. apply run_reachable; [apply atSecondSegment_reachable|]. vm_compute. tauto. Qed.

Lemma cancelledJob_reachable : reachable (host := plainHost) cancelledJob.
Proof. apply run_reachable; [apply reachable_new|]. vm_compute. tauto. Qed.

(** C1, as stated, fails: a stream marked as DRM that is started in a fresh
    downloader is downloading, not failed. *)
Lemma drm_stream_is_started :
  ~ refusesDRM (host := plainHost) freshDownloader drmStream hd720 None (js "job1").
Proof. intros H. destruct (H eq_refl) as [Hs _]. vm_compute in Hs. discriminate. Qed.

Lemma startDownload_starts_any_stream_witness :
  let d' := startDownload (host := plainHost) drmStream hd720 None (js "job1")
              freshDownloader in
  st_protection drmStream = ProtDrm
  /\ statusOf d' (js "job1") = Some Downloading
  /\ requests d' = [Got (js "job1") (js "http://cdn/master.m3u8")]
  /\ events d' = [].
Proof.
  split; [reflexivity|].
  assert (Hr : reachable (host := plainHost) freshDownloader) by apply reachable_new.
  assert (Hj : jobs freshDownloader !! js "job1" = None) by reflexivity.
  assert (Hlt : (activeDownloads freshDownloader < maxConcurrent freshDownloader)%Z)
    by reflexivity.
  destruct (startDownload_starts_any_stream (host := plainHost) freshDownloader drmStream
              hd720 None (js "job1") Hr Hj) as [H _].
  destruct (H Hlt) as [H1 _]. apply H1. left. reflexivity.
Defined.

(** C3, as stated, fails: a job that is cancelled while its manifest is
    awaited has no event at all. *)
Lemma cancellation_is_not_reported : ~ cancelledReported cancelledJob (js "job1").
Proof.
  intros H.
  assert (Hs : statusOf cancelledJob (js "job1") = Some Cancelled)
    by (vm_compute; reflexivity).
  destruct (H Hs) as (e & He & _). vm_compute in He. discriminate.
Qed.

Lemma events_of_a_job_witness :
  eventsOf (js "job1") (events completedJob)
  = [EvProgress (js "job1") {| downloadedBytes := 4; currentSegment := Some 1%nat;
                               totalSegments := Some 2%nat |};
     EvProgress (js "job1") {| downloadedBytes := 6; currentSegment := Some 2%nat;
                               totalSegments := Some 2%nat |};
     EvComplete (js "job1") (Some (js "/downloads/clip.mp4"))]
  /\ events (cancelDownload (js "job1") completedJob) = events completedJob
  /\ (terminalCount (eventsOf (js "job1") (events completedJob)) <= 1)%nat
  /\ traceShape (eventsOf (js "job1") (events completedJob))
  /\ (exists o, last (eventsOf (js "job1") (events completedJob))
                = Some (EvComplete (js "job1") o))
  /\ statusOf failedJob (js "job1") = Some Failed
  /\ (terminalCount (eventsOf (js "job1") (events failedJob)) <= 1)%nat
  /\ traceShape (eventsOf (js "job1") (events failedJob))
  /\ (exists m, last (eventsOf (js "job1") (events failedJob)) = Some (EvError (js "job1") m)
                /\ error <$> jobs failedJob !! js "job1" = Some (Some m)).
Proof.
  destruct (events_of_a_job (host := plainHost) completedJob (js "job1")
              completedJob_reachable) as (_ & H2 & H3 & H4 & _).
  destruct (events_of_a_job (host := plainHost) failedJob (js "job1")
              failedJob_reachable) as (_ & _ & F3 & F4 & _).
  destruct (jobs completedJob !! js "job1") as [job|] eqn:Hj;
    [|vm_compute in Hj; discriminate].
  assert (Hty : st_type (stream job) <> TyDirect).
  { vm_compute in Hj. injection Hj as <-. discriminate. }
  assert (Hs : status job = Completed).
  { vm_compute in Hj. injection Hj as <-. reflexivity. }
  destruct (H4 job eq_refl Hty) as (H5 & H6 & _).
  destruct (jobs failedJob !! js "job1") as [job'|] eqn:Hj';
    [|vm_compute in Hj'; discriminate].
  assert (Hty' : st_type (stream job') <> TyDirect).
  { vm_compute in Hj'. injection Hj' as <-. discriminate. }
  assert (Hs' : status job' = Failed).
  { vm_compute in Hj'. injection Hj' as <-. reflexivity. }
  destruct (F4 job' eq_refl Hty') as (F5 & _ & F6).
  destruct (F6 Hs') as (m & Hm & He).
  split_and!; [vm_compute; reflexivity|exact H2|exact H3|exact H5|exact (H6 Hs)| |
               exact F3|exact F5|].
  - unfold statusOf. rewrite Hj'. simpl. by rewrite Hs'.
  - exists m. split; [exact Hm|]. simpl. by rewrite He.
Defined.

Lemma cancelDownload_idempotent_witness :
  cancelDownload (js "job2") (cancelDownload (js "job2") secondPending)
  = cancelDownload (js "job2") secondPending
  /\ statusOf secondPending (js "job2") = Some Pending
  /\ js "job2" ∈ queue secondPending
  /\ (js "job2" ∉ queue (cancelDownload (js "job2") secondPending))
  /\ statusOf (cancelDownload (js "job2") secondPending) (js "job2") = Some Cancelled.
Proof.
  destruct (cancelDownload_idempotent (host := plainHost) secondPending (js "job2")
              secondPending_reachable) as [H1 H2].
  assert (Hs : statusOf secondPending (js "job2") = Some Pending)
    by (vm_compute; reflexivity).
  destruct (H2 Hs) as (H3 & H4 & H5). done.
Defined.

Lemma cancelDownload_unknown_job_witness :
  jobs atFirstSegment !! js "ghost" = None
  /\ cancelDownload (js "ghost") atFirstSegment = atFirstSegment.
Proof.
  assert (Hj : jobs atFirstSegment !! js "ghost" = None) by (vm_compute; reflexivity).
  split; [exact Hj|].
  exact (cancelDownload_unknown_job (host := plainHost) atFirstSegment (js "ghost")
           atFirstSegment_reachable Hj).
Defined.


(** ** The native-messaging host: a stream of frames *)

Section StreamProps.
Variable thr : JSON -> bool.

Lemma afterFrame_buffer body h rest : buffer (afterFrame thr body h rest) = rest.
Proof. unfold afterFrame. by destruct (JSON_parse _). Qed.

Lemma afterFrame_rest body h rest :
  withBuffer rest (afterFrame thr body h []) = afterFrame thr body h rest.
Proof. unfold afterFrame, withBuffer. by destruct (JSON_parse _). Qed.

Lemma handleData_frames h (bodies : list (list byte)) :
  buffer h = [] -> Forall fitsPrefix bodies ->
  handleData thr h (concat (map frameOf bodies))
  = fold_left (fun h body => afterFrame thr body h []) bodies h.
Proof.
  revert h. induction bodies as [|body bodies IH]; intros h Hb Hlen.
  - simpl. rewrite handleData_withBuffer, Hb. simpl. destruct h; simpl in *. by subst.
  - apply Forall_cons in Hlen as [Hl Hlen]. cbn [map concat fold_left].
    rewrite handleData_frame by done.
    rewrite <- (IH (afterFrame thr body h [])) by (done || apply afterFrame_buffer).
    rewrite (handleData_withBuffer thr (afterFrame thr body h [])).
    rewrite afterFrame_buffer. cbn [app]. by rewrite afterFrame_rest.
Qed.

Lemma afterFrame_fields body h rest :
  handled (afterFrame thr body h rest) = handled h ++ parsedBodies [body]
  /\ reported (afterFrame thr body h rest)
     = (reported h + length (List.filter (bodyFails thr) [body]))%nat
  /\ running (afterFrame thr body h rest) = running h.
Proof.
  unfold afterFrame, parsedBodies, bodyFails. simpl.
  destruct (JSON_parse (bufferText body)) as [m|]; simpl.
  - split_and!; try done. destruct (thr m); simpl; lia.
  - rewrite app_nil_r. split_and!; try done. lia.
Qed.

Lemma frames_outcome h (bodies : list (list byte)) :
  let h' := fold_left (fun h body => afterFrame thr body h []) bodies h in
  handled h' = handled h ++ parsedBodies bodies
  /\ reported h' = (reported h + length (List.filter (bodyFails thr) bodies))%nat
  /\ running h' = running h
  /\ (bodies <> [] -> buffer h' = []).
Proof.
  revert h. induction bodies as [|body bodies IH]; intros h; cbn zeta.
  - simpl. rewrite app_nil_r. split_and!; try done; lia.
  - cbn [fold_left]. destruct (IH (afterFrame thr body h [])) as (H1 & H2 & H3 & H4).
    destruct (afterFrame_fields body h []) as (F1 & F2 & F3).
    rewrite H1, H2, H3, F1, F2, F3.
    change (body :: bodies) with ([body] ++ bodies).
    unfold parsedBodies. rewrite omap_app, List.filter_app, length_app.
    split_and!; try done.
    + by rewrite <- app_assoc.
    + lia.
    + intros _. destruct bodies as [|b bs]; [simpl; apply afterFrame_buffer|].
      by apply H4.
Qed.

(** However the bytes of a sequence of frames arrive, every body that is
    valid JSON is given to the handler, in order, and nothing else is; one
    error is reported for each body that is not valid JSON or on which the
    handler throws; the host keeps running and its buffer ends empty. *)
Theorem frames_are_delivered_in_order h (bodies : list (list byte))
    (chunks : list (list byte)) :
  buffer h = [] -> Forall fitsPrefix bodies ->
  concat chunks = concat (map frameOf bodies) ->
  let h' := fold_left (handleData thr) chunks h in
  handled h' = handled h ++ parsedBodies bodies
  /\ reported h' = (reported h + length (List.filter (bodyFails thr) bodies))%nat
  /\ running h' = running h
  /\ buffer h' = [].
Proof.
  intros Hb Hlen Hc h'. subst h'.
  rewrite handleData_chunks, Hc, handleData_frames by done.
  destruct (frames_outcome h bodies) as (H1 & H2 & H3 & H4).
  split_and!; try done.
  destruct bodies as [|b bs]; [done|]. by apply H4.
Qed.

Lemma handleData_nothing h :
  incomplete (buffer h) -> handleData thr h [] = h.
Proof.
  intros Hi. rewrite handleData_withBuffer, app_nil_r, withBuffer_id.
  by apply loop_incomplete.
Qed.

Lemma handleData_fold h (chunks : list (list byte)) :
  incomplete (buffer h) ->
  fold_left (handleData thr) chunks h = handleData thr h (concat chunks).
Proof.
  intros Hi. revert h Hi. induction chunks as [|c cs IH]; intros h Hi.
  - simpl. by rewrite handleData_nothing.
  - cbn [fold_left concat]. rewrite IH.
    + by rewrite handleData_app.
    + rewrite handleData_withBuffer. apply loop_leaves_incomplete.
      by cbn [withBuffer buffer].
Qed.

(** What the host has done after a sequence of chunks depends on their
    bytes only, not on where the chunks are cut. *)
Theorem chunking_is_irrelevant h (chunks1 chunks2 : list (list byte)) :
  incomplete (buffer h) -> concat chunks1 = concat chunks2 ->
  fold_left (handleData thr) chunks1 h = fold_left (handleData thr) chunks2 h.
Proof. intros Hi Hc. by rewrite !handleData_fold, Hc. Qed.

Lemma frame_prefix_incomplete (body : list byte) (k : nat) :
  fitsPrefix body -> (k < 4 + length body)%nat -> incomplete (take k (frameOf body)).
Proof.
  intros Hlen Hk.
  pose proof (readUInt32LE_writeUInt32LE (N.of_nat (length body)) Hlen) as E.
  unfold frameOf. unfold writeUInt32LE in *. cbn [app].
  destruct k as [|[|[|[|k]]]]; try exact I.
  cbn [take incomplete]. rewrite E, Nat2N.id, length_take. lia.
Qed.

(** A frame that arrives in two parts: after the first part nothing has
    been handled or reported and the bytes are kept; the second part
    completes the frame, which is then handled as if it had come whole. *)
Theorem split_frame_is_reassembled h (body part1 part2 : list byte) :
  buffer h = [] -> fitsPrefix body ->
  frameOf body = part1 ++ part2 -> part2 <> [] ->
  handleData thr h part1 = withBuffer part1 h
  /\ handleData thr (handleData thr h part1) part2 = afterFrame thr body h [].
Proof.
  intros Hb Hlen Hf Hp2. split.
  - rewrite handleData_withBuffer, Hb. cbn [app]. apply loop_incomplete.
    cbn [withBuffer buffer].
    assert (E : part1 = take (length part1) (frameOf body))
      by (by rewrite Hf, take_app_length).
    rewrite E. apply frame_prefix_incomplete; [done|].
    apply (f_equal length) in Hf. rewrite length_app in Hf.
    unfold frameOf, writeUInt32LE in Hf. cbn [app length] in Hf.
    destruct part2; [done|]. simpl in Hf. lia.
  - rewrite handleData_app, <- Hf.
    pose proof (handleData_frame thr h body [] Hb Hlen) as E.
    rewrite app_nil_r in E. rewrite E. reflexivity.
Qed.
End StreamProps.


(** ** File names *)

Lemma trimStart_snoc (r : jsstring) (c : N) :
  trimStart (r ++ [c])
  = match trimStart r with
    | [] => if isWhiteSpace c then [] else [c]
    | t => t ++ [c]
    end.
Proof.
  induction r as [|x r IH]; simpl; [done|].
  destruct (isWhiteSpace x); [done|]. done.
Qed.

Lemma trimEnd_cons (c : N) (s : jsstring) :
  trimEnd (c :: s)
  = match trimEnd s with
    | [] => if isWhiteSpace c then [] else [c]
    | t => c :: t
    end.
Proof.
  unfold trimEnd. rewrite reverse_cons, trimStart_snoc.
  destruct (trimStart (reverse s)) as [|x t] eqn:E.
  - rewrite reverse_nil. by destruct (isWhiteSpace c).
  - rewrite reverse_app. simpl.
    destruct (reverse (x :: t)) eqn:E2; [|done].
    apply (f_equal reverse) in E2. rewrite reverse_involutive in E2. done.
Qed.

Lemma trimEnd_nil : trimEnd [] = [].
Proof. done. Qed.

Lemma trimStart_suffix (s : jsstring) : exists u, s = u ++ trimStart s.
Proof.
  induction s as [|c s [u IH]]; simpl; [by exists []|].
  destruct (isWhiteSpace c); [|by exists []].
  exists (c :: u). by rewrite <- app_comm_cons, <- IH.
Qed.

Lemma trimEnd_prefix (s : jsstring) : exists u, s = trimEnd s ++ u.
Proof.
  induction s as [|c s [u IH]]; [by exists []|].
  rewrite trimEnd_cons. destruct (trimEnd s) as [|x t] eqn:E.
  - destruct (isWhiteSpace c); [by exists (c :: s)|]. exists s. done.
  - exists u. by rewrite <- app_comm_cons, <- IH.
Qed.

Lemma trimStart_head (s : jsstring) : noLeadingSpace (trimStart s).
Proof.
  induction s as [|c s IH]; simpl; [done|].
  destruct (isWhiteSpace c) eqn:E; [done|]. done.
Qed.

Lemma trimEnd_head (s : jsstring) : noLeadingSpace s -> noLeadingSpace (trimEnd s).
Proof.
  destruct s as [|c s]; [done|]. simpl. intros Hc. rewrite trimEnd_cons.
  destruct (trimEnd s); simpl; by rewrite ?Hc.
Qed.

Lemma trimEnd_last (s : jsstring) : noTrailingSpace (trimEnd s).
Proof.
  unfold noTrailingSpace.
  induction s as [|c s IH]; [done|].
  rewrite trimEnd_cons. destruct (trimEnd s) as [|x t] eqn:E.
  - destruct (isWhiteSpace c) eqn:Ec; simpl; by rewrite ?Ec.
  - by rewrite last_cons_cons.
Qed.

Lemma singleSpaces_app (a b : jsstring) :
  singleSpaces (a ++ b) -> singleSpaces a /\ singleSpaces b.
Proof.
  induction a as [|c a IH]; simpl; [done|].
  intros [Hc Hs]. destruct (IH Hs) as [Ha Hb]. split_and!; try done.
  intros Hw. destruct (Hc Hw) as [-> Hn]. split; [done|]. by destruct a.
Qed.

Lemma noForbidden_app (a b : jsstring) :
  noForbidden (a ++ b) -> noForbidden a /\ noForbidden b.
Proof. apply Forall_app. Qed.

Lemma collapseSpaces_spec (inRun : bool) (s : jsstring) :
  singleSpaces (collapseSpaces inRun s)
  /\ (inRun = true -> noLeadingSpace (collapseSpaces inRun s)).
Proof.
  revert inRun. induction s as [|c s IH]; intros inRun; simpl; [done|].
  destruct (isWhiteSpace c) eqn:Ec.
  - destruct (IH true) as [H1 H2]. destruct inRun; [by split; [|intros _; apply H2]|].
    split; [|done]. simpl. split; [|done]. intros _. split; [done|].
    specialize (H2 eq_refl). by destruct (collapseSpaces true s).
  - destruct (IH false) as [H1 _]. split.
    + simpl. split; [|done]. intros Hw. congruence.
    + intros _. simpl. done.
Qed.

Lemma collapseSpaces_noForbidden (inRun : bool) (s : jsstring) :
  noForbidden s -> noForbidden (collapseSpaces inRun s).
Proof.
  revert inRun. induction s as [|c s IH]; intros inRun Hs; simpl; [done|].
  apply Forall_cons in Hs as [Hc Hs].
  destruct (isWhiteSpace c).
  - destruct inRun; [by apply IH|]. apply Forall_cons. split; [done|by apply IH].
  - apply Forall_cons. split; [done|by apply IH].
Qed.

Lemma collapseSpaces_id (inRun : bool) (s : jsstring) :
  singleSpaces s -> (inRun = true -> noLeadingSpace s) ->
  collapseSpaces inRun s = s.
Proof.
  revert inRun. induction s as [|c s IH]; intros inRun Hs Hl; simpl; [done|].
  destruct Hs as [Hc Hs]. destruct (isWhiteSpace c) eqn:Ec.
  - destruct (Hc eq_refl) as [-> Hn].
    destruct inRun; [specialize (Hl eq_refl); simpl in Hl; congruence|].
    f_equal. apply IH; [done|]. intros _. by destruct s.
  - f_equal. by apply IH.
Qed.

Lemma trimStart_id (s : jsstring) : noLeadingSpace s -> trimStart s = s.
Proof. destruct s as [|c s]; simpl; [done|]. by intros ->. Qed.

Lemma trimEnd_id (s : jsstring) : noTrailingSpace s -> trimEnd s = s.
Proof.
  unfold noTrailingSpace. induction s as [|c s IH]; [done|].
  rewrite trimEnd_cons. destruct s as [|d s].
  - simpl. by intros ->.
  - rewrite last_cons_cons. intros H. rewrite IH by done. done.
Qed.

(** What [sanitizeFilename] returns, for every name: at most 200 units,
    none of the nine characters that are removed, no white space at the
    start, and no white space but single spaces. *)
Theorem sanitizeFilename_safe (name : jsstring) :
  (length (sanitizeFilename name) <= 200)%nat
  /\ noForbidden (sanitizeFilename name)
  /\ noLeadingSpace (sanitizeFilename name)
  /\ singleSpaces (sanitizeFilename name).
Proof.
  unfold sanitizeFilename.
  set (kept := List.filter (fun c => negb (isForbiddenInName c)) name).
  assert (Hk : noForbidden kept).
  { apply Forall_forall. intros c Hc. apply list_elem_of_In, filter_In in Hc as [_ Hc].
    by apply negb_true_iff in Hc. }
  set (t := collapseSpaces false kept).
  assert (Ht : noForbidden t /\ singleSpaces t).
  { split; [by apply collapseSpaces_noForbidden|apply collapseSpaces_spec]. }
  destruct Ht as [Ht1 Ht2].
  destruct (trimStart_suffix t) as [u Hu].
  destruct (trimEnd_prefix (trimStart t)) as [v Hv].
  assert (Hs : noForbidden (trim t) /\ singleSpaces (trim t)).
  { unfold trim. rewrite Hu in Ht1, Ht2.
    apply noForbidden_app in Ht1 as [_ Ht1]. apply singleSpaces_app in Ht2 as [_ Ht2].
    rewrite Hv in Ht1, Ht2.
    apply noForbidden_app in Ht1 as [Ht1 _]. apply singleSpaces_app in Ht2 as [Ht2 _].
    done. }
  destruct Hs as [Hs1 Hs2].
  pose proof (trimEnd_head _ (trimStart_head t)) as Hh. fold (trim t) in Hh.
  rewrite <- (take_drop 200 (trim t)) in Hs1, Hs2.
  apply noForbidden_app in Hs1 as [Hs1 _]. apply singleSpaces_app in Hs2 as [Hs2 _].
  split_and!; try done.
  - rewrite length_take. lia.
  - by destruct (trim t).
Qed.

(** A name that is already of that shape, with no white space at its end,
    is returned as it is. *)
Theorem sanitizeFilename_keeps_clean_names (name : jsstring) :
  (length name <= 200)%nat -> noForbidden name -> singleSpaces name ->
  noLeadingSpace name -> noTrailingSpace name ->
  sanitizeFilename name = name.
Proof.
  intros Hlen Hf Hs Hl Ht. unfold sanitizeFilename.
  assert (E : List.filter (fun c => negb (isForbiddenInName c)) name = name).
  { clear -Hf. induction Hf as [|c s Hc _ IH]; simpl; [done|]. by rewrite Hc, IH. }
  rewrite E, collapseSpaces_id by done.
  unfold trim. rewrite trimStart_id, trimEnd_id by done.
  by apply take_ge.
Qed.


(** ** Media playlists: segments and keys *)

Section MediaProps.
Context {host : Host}.

Lemma startsWith_hash (line p : jsstring) :
  startsWith line (35 :: p) = true -> startsWith line (js "#") = true.
Proof.
  change (js "#") with [35]. destruct line as [|c line]; cbn [startsWith]; [done|].
  intros H. apply andb_true_iff in H as [H _]. rewrite H. by destruct line.
Qed.

Lemma uriLine_plain (line : jsstring) (p : jsstring) :
  isUriLine line = true -> head p = Some 35 -> startsWith line p = false.
Proof.
  unfold isUriLine. intros H Hp. apply andb_true_iff in H as [H _].
  apply negb_true_iff in H. destruct p as [|c p]; [done|]. injection Hp as ->.
  destruct (startsWith line (35 :: p)) eqn:E; [|done].
  apply startsWith_hash in E. congruence.
Qed.

Lemma mediaLine_uri (baseUrl line : jsstring) (st : MediaState) :
  isUriLine line = true ->
  ms_segments (mediaLine baseUrl line st)
  = ms_segments st ++ [{| s_uri := resolveUrl line baseUrl;
                          s_duration := ms_segmentDuration st;
                          s_key := ms_currentKey st |}]
  /\ ms_currentKey (mediaLine baseUrl line st) = ms_currentKey st.
Proof.
  intros Hu. unfold mediaLine.
  rewrite (uriLine_plain line (js "#EXT-X-TARGETDURATION:")) by done.
  rewrite (uriLine_plain line (js "#EXT-X-KEY:")) by done.
  rewrite (uriLine_plain line (js "#EXTINF:")) by done.
  cbv zeta. unfold isUriLine in Hu. rewrite Hu. done.
Qed.

Lemma mediaLine_other (baseUrl line : jsstring) (st : MediaState) :
  isUriLine line = false ->
  ms_segments (mediaLine baseUrl line st) = ms_segments st
  /\ ms_currentKey (mediaLine baseUrl line st)
     = if isKeyLine line then Some (keyOfLine baseUrl line) else ms_currentKey st.
Proof.
  intros Hu. unfold mediaLine, isKeyLine. cbv zeta. unfold isUriLine in Hu. rewrite Hu.
  destruct (startsWith line (js "#EXT-X-TARGETDURATION:"));
    destruct (startsWith line (js "#EXT-X-KEY:"));
    destruct (startsWith line (js "#EXTINF:"));
    try destruct (extinfMatch line); done.
Qed.

Lemma mediaLoop_snoc (baseUrl : jsstring) (lines : list jsstring) (line : jsstring) :
  mediaLoop baseUrl (lines ++ [line]) = mediaLine baseUrl line (mediaLoop baseUrl lines).
Proof. unfold mediaLoop. by rewrite fold_left_app. Qed.

Lemma mediaLoop_key (baseUrl : jsstring) (lines : list jsstring) :
  ms_currentKey (mediaLoop baseUrl lines) = keyInForce baseUrl lines.
Proof.
  induction lines as [|line lines IH] using rev_ind; [done|].
  rewrite mediaLoop_snoc. unfold keyInForce. rewrite List.filter_app. simpl.
  destruct (isUriLine line) eqn:Hu.
  - destruct (mediaLine_uri baseUrl line (mediaLoop baseUrl lines) Hu) as [_ ->].
    unfold isKeyLine at 2. rewrite (uriLine_plain line (js "#EXT-X-KEY:")) by done.
    by rewrite app_nil_r.
  - destruct (mediaLine_other baseUrl line (mediaLoop baseUrl lines) Hu) as [_ ->].
    destruct (isKeyLine line); [by rewrite last_snoc|by rewrite app_nil_r].
Qed.

Lemma mediaLoop_uris (baseUrl : jsstring) (lines : list jsstring) :
  map s_uri (ms_segments (mediaLoop baseUrl lines))
  = map (fun line => resolveUrl line baseUrl) (List.filter isUriLine lines).
Proof.
  induction lines as [|line lines IH] using rev_ind; [done|].
  rewrite mediaLoop_snoc, List.filter_app. simpl.
  destruct (isUriLine line) eqn:Hu.
  - destruct (mediaLine_uri baseUrl line (mediaLoop baseUrl lines) Hu) as [-> _].
    by rewrite !map_app, IH.
  - destruct (mediaLine_other baseUrl line (mediaLoop baseUrl lines) Hu) as [-> _].
    by rewrite app_nil_r.
Qed.

Lemma mediaLoop_grows (baseUrl : jsstring) (lines more : list jsstring) :
  exists segs, ms_segments (mediaLoop baseUrl (lines ++ more))
               = ms_segments (mediaLoop baseUrl lines) ++ segs.
Proof.
  induction more as [|line more [segs IH]] using rev_ind.
  - exists []. by rewrite !app_nil_r.
  - rewrite app_assoc, mediaLoop_snoc.
    destruct (isUriLine line) eqn:Hu.
    + destruct (mediaLine_uri baseUrl line (mediaLoop baseUrl (lines ++ more)) Hu) as [-> _].
      rewrite IH. eexists. by rewrite <- app_assoc.
    + destruct (mediaLine_other baseUrl line (mediaLoop baseUrl (lines ++ more)) Hu)
        as [-> _].
      by exists segs.
Qed.

(** The segments of a media playlist are its lines that are neither empty
    nor comments, in order, each resolved against the base URL; a segment
    carries the key of the last key line before it (none when there is
    none), and the playlist's [encryption] is the key of its last key
    line. *)
Theorem media_segments_and_keys (baseUrl : jsstring) (lines : list jsstring) :
  let playlist := parseMediaPlaylist lines baseUrl in
  map s_uri (segments playlist)
  = map (fun line => resolveUrl line baseUrl) (List.filter isUriLine lines)
  /\ encryption playlist = keyInForce baseUrl lines
  /\ forall before line after, lines = before ++ line :: after -> isUriLine line = true ->
       exists segment,
         segments playlist !! length (List.filter isUriLine before) = Some segment
         /\ s_uri segment = resolveUrl line baseUrl
         /\ s_key segment = keyInForce baseUrl before.
Proof.
  cbv zeta. unfold parseMediaPlaylist. cbv zeta. fold (mediaLoop baseUrl lines).
  cbn [segments encryption]. split_and!.
  - apply mediaLoop_uris.
  - apply mediaLoop_key.
  - intros before line after -> Hu.
    change (before ++ line :: after) with (before ++ [line] ++ after).
    rewrite app_assoc.
    destruct (mediaLoop_grows baseUrl (before ++ [line]) after) as [segs ->].
    rewrite mediaLoop_snoc.
    destruct (mediaLine_uri baseUrl line (mediaLoop baseUrl before) Hu) as [-> _].
    eexists. split_and!.
    + rewrite <- app_assoc. apply list_lookup_middle.
      rewrite <- (length_map s_uri), mediaLoop_uris. by rewrite length_map.
    + done.
    + simpl. apply mediaLoop_key.
Qed.
End MediaProps.


(** ** Attribute lists *)

Lemma matchAttribute_rendered (kv : jsstring * AttrValue) (tail : jsstring) :
  wellFormedAttr kv ->
  match tail with
  | [] => True
  | c :: _ => c = 44
  end ->
  matchAttribute (renderAttr kv ++ tail) = Some (fst kv, attrText (snd kv), tail).
Proof.
  destruct kv as [k v]. intros (Hk & Hkc & Hv) Ht. cbn [fst snd] in *.
  unfold matchAttribute.
  assert (Hspan : forall r, span isAttrKeyChar (k ++ 61 :: r) = (k, 61 :: r)).
  { intros r. by apply span_app. }
  destruct v as [t|t]; cbn [renderAttr attrText].
  - destruct Hv as (Hne & Hq & Hc).
    rewrite <- !app_assoc. cbn [app]. rewrite Hspan.
    destruct k as [|k0 k]; [done|].
    assert (Hbare : span (fun c => negb (c =? 44)) (t ++ tail) = (t, tail)).
    { apply span_app.
      - eapply Forall_impl; [exact Hc|]. intros c Hne'. simpl.
        apply negb_true_iff, N.eqb_neq. done.
      - destruct tail as [|c tail]; [done|]. by subst. }
    rewrite Hbare. destruct t as [|t0 t]; [done|].
    cbn [app]. destruct (N.eq_dec t0 34) as [->|Hn]; [done|].
    destruct t0 as [|p]; [done|].
    repeat (destruct p as [p|p|]; try done).
  - destruct Hv as (Hne & Hq).
    rewrite <- !app_assoc. cbn [app]. rewrite Hspan.
    destruct k as [|k0 k]; [done|].
    assert (Hquoted : span (fun c => negb (c =? 34)) (t ++ 34 :: tail) = (t, 34 :: tail)).
    { apply span_app; [|done].
      eapply Forall_impl; [exact Hq|]. intros c Hne'. simpl.
      apply negb_true_iff, N.eqb_neq. done. }
    rewrite Hquoted. by destruct t.
Qed.

Lemma renderAttr_length (kv : jsstring * AttrValue) :
  wellFormedAttr kv -> (3 <= length (renderAttr kv))%nat.
Proof.
  destruct kv as [k [t|t]]; intros (Hk & _ & Hv); cbn [fst snd] in *;
    destruct k; [done| |done|]; destruct Hv as [Ht _]; destruct t; try done;
    cbn [renderAttr]; rewrite ?length_app; simpl; lia.
Qed.

Lemma parseAttributes_go_rendered (l : list (jsstring * AttrValue)) :
  Forall wellFormedAttr l ->
  forall fuel attrs, (length (renderAttrs l) <= fuel)%nat ->
  parseAttributes_go fuel (renderAttrs l) attrs = assignAttrs l attrs.
Proof.
  induction 1 as [|kv rest Hkv Hrest IH]; intros fuel attrs Hfuel.
  - by destruct fuel.
  - pose proof (renderAttr_length kv Hkv) as Hlen.
    destruct rest as [|kv' rest'].
    + cbn [renderAttrs] in *. destruct fuel as [|f]; [lia|].
      cbn [parseAttributes_go].
      pose proof (matchAttribute_rendered kv [] Hkv I) as Hm. rewrite app_nil_r in Hm.
      rewrite Hm. destruct (renderAttr kv) eqn:E; [simpl in Hlen; lia|].
      by destruct f.
    + change (renderAttrs (kv :: kv' :: rest'))
        with (renderAttr kv ++ 44 :: renderAttrs (kv' :: rest')) in *.
      rewrite length_app in Hfuel. cbn [length] in Hfuel.
      destruct fuel as [|f]; [lia|]. cbn [parseAttributes_go].
      rewrite matchAttribute_rendered by done.
      destruct (renderAttr kv ++ 44 :: renderAttrs (kv' :: rest')) eqn:E.
      { apply (f_equal length) in E. rewrite length_app in E. simpl in E. lia. }
      destruct f as [|f]; [lia|]. cbn [parseAttributes_go].
      change (matchAttribute (44 :: renderAttrs (kv' :: rest'))) with
        (@None (jsstring * jsstring * jsstring)).
      rewrite IH by lia. done.
Qed.

(** Reading back a written attribute list: every attribute is found, a
    quoted value comes without its quotes and may hold commas, and of two
    attributes with one key the later one is kept. *)
Theorem parseAttributes_reads_rendered (l : list (jsstring * AttrValue)) :
  Forall wellFormedAttr l ->
  parseAttributes (renderAttrs l) = assignAttrs l ∅.
Proof. intros Hl. unfold parseAttributes. by apply parseAttributes_go_rendered. Qed.


(** ** Line ends *)

Lemma trim_carriage_return (s : jsstring) : trim (s ++ [13]) = trim s.
Proof.
  unfold trim. rewrite trimStart_snoc.
  destruct (trimStart s) as [|x t] eqn:E; [done|].
  unfold trimEnd. rewrite reverse_app. done.
Qed.

Lemma split_on_carriage_returns (s : jsstring) :
  Forall2 sameLine (split_on 10 (withCarriageReturns s)) (split_on 10 s).
Proof.
  induction s as [|c s IH]; cbn [withCarriageReturns split_on].
  - constructor; [by left|constructor].
  - destruct (c =? 10) eqn:Ec.
    + cbn [split_on]. change (13 =? 10) with false. cbn [N.eqb Pos.eqb].
      change (10 =? 10) with true. cbv iota.
      constructor; [by right|done].
    + cbn [split_on]. rewrite Ec.
      destruct IH as [|a b la lb Hab Hl]; [constructor; [by left|constructor]|].
      constructor; [|done]. destruct Hab as [->| ->]; [by left|by right].
Qed.

Lemma manifestLines_carriage_returns (content : jsstring) :
  manifestLines (withCarriageReturns content) = manifestLines content.
Proof.
  unfold manifestLines. f_equal.
  induction (split_on_carriage_returns content) as [|a b la lb Hab _ IH]; [done|].
  simpl. rewrite IH. f_equal. destruct Hab as [->| ->]; [done|].
  apply trim_carriage_return.
Qed.

(** A manifest with CR LF line ends is parsed as the same manifest with LF
    line ends. *)
Theorem hls_line_ends_do_not_matter {host : Host} (content baseUrl : jsstring) :
  parseHLSManifest (withCarriageReturns content) baseUrl = parseHLSManifest content baseUrl.
Proof. unfold parseHLSManifest. by rewrite manifestLines_carriage_returns. Qed.


(** ** Audio renditions *)

Section AudioProps.
Context {host : Host}.

Lemma groups_push_tracks groups id (g : HLSAudioGroup) :
  hlsAudioGroupsToTracks (groups_push groups id g)
  ≡ₚ hlsAudioGroupsToTracks groups
     ++ [{| a_language := g_language g; a_label := g_name g |}].
Proof.
  unfold hlsAudioGroupsToTracks.
  induction groups as [|[k gs] groups IH]; cbn [groups_push flat_map]; [done|].
  destruct (jsstring_eqb k id); cbn [flat_map snd].
  - rewrite map_app. cbn [map]. rewrite <- !app_assoc.
    apply Permutation_app_head. apply Permutation_app_comm.
  - rewrite IH. by rewrite app_assoc.
Qed.

Lemma masterLine_media_tracks baseUrl line m :
  hlsAudioGroupsToTracks (audioGroups (masterLine_media baseUrl line m))
  ≡ₚ hlsAudioGroupsToTracks (audioGroups m)
     ++ (if isAudioLine line then [trackOfLine line] else []).
Proof.
  unfold masterLine_media, isAudioLine. cbv zeta.
  destruct (startsWith line (js "#EXT-X-MEDIA:")); cbn [andb]; [|by rewrite app_nil_r].
  destruct (attrIs _ "TYPE" _); [|by rewrite app_nil_r].
  cbn [audioGroups]. by rewrite groups_push_tracks.
Qed.

Lemma masterLoop_tracks baseUrl lines skip m :
  (skip = true -> match lines with
                  | line :: _ => startsWith line (js "#") = false
                  | [] => True
                  end) ->
  hlsAudioGroupsToTracks (audioGroups (masterLoop baseUrl lines skip m))
  ≡ₚ hlsAudioGroupsToTracks (audioGroups m)
     ++ map trackOfLine (List.filter isAudioLine lines).
Proof.
  revert skip m. induction lines as [|line rest IH]; intros skip m Hskip;
    cbn [masterLoop List.filter map].
  - by rewrite app_nil_r.
  - destruct skip.
    + specialize (Hskip eq_refl). cbn beta iota in Hskip.
      assert (Ha : isAudioLine line = false).
      { unfold isAudioLine. destruct (startsWith line (js "#EXT-X-MEDIA:")) eqn:E; [|done].
        apply (startsWith_hash line (js "EXT-X-MEDIA:")) in E. congruence. }
      rewrite Ha. apply IH. done.
    + cbv zeta. rewrite IH.
      * cbn [audioGroups]. rewrite masterLine_media_tracks.
        rewrite <- app_assoc. apply Permutation_app_head.
        by destruct (isAudioLine line).
      * intros Hp. apply bool_decide_eq_true in Hp.
        unfold masterLine_variant in Hp.
        destruct (startsWith line (js "#EXT-X-STREAM-INF:")); [|by destruct Hp].
        cbv zeta in Hp. destruct rest as [|next rest']; [by destruct Hp|].
        cbn [head] in Hp. destruct (startsWith next (js "#")); [by destruct Hp|done].
Qed.

(** Every line of a master manifest that declares an audio rendition gives
    exactly one audio track, with its language and name (und and Audio when
    they are absent); no other track is made. *)
Theorem audio_tracks_of_master_playlist baseUrl (lines : list jsstring) :
  hlsAudioGroupsToTracks (audioGroups (parseMasterPlaylist lines baseUrl))
  ≡ₚ map trackOfLine (List.filter isAudioLine lines).
Proof.
  unfold parseMasterPlaylist. cbv zeta. cbn [audioGroups].
  by rewrite masterLoop_tracks.
Qed.
End AudioProps.


(** ** Protection of DASH manifests *)

Section DashProtectionProps.
Context {host : Host}.

Lemma existsb_flat_map {A B : Type} (p : B -> bool) (f : A -> list B) (l : list A) :
  existsb p (flat_map f l) = existsb (fun a => existsb p (f a)) l.
Proof. induction l as [|a l IH]; simpl; [done|]. by rewrite existsb_app, IH. Qed.

Lemma existsb_map {A B : Type} (p : B -> bool) (f : A -> B) (l : list A) :
  existsb p (map f l) = existsb (fun a => p (f a)) l.
Proof. induction l as [|a l IH]; simpl; [done|]. by rewrite IH. Qed.

Lemma existsb_pointwise {A : Type} (p q : A -> bool) (l : list A) :
  (forall a, p a = q a) -> existsb p l = existsb q l.
Proof. intros H. induction l as [|a l IH]; simpl; [done|]. by rewrite H, IH. Qed.

Lemma parsed_contentProtection (element : Node) (baseUrl : jsstring) :
  bool_decide (contentProtection (parseAdaptationSet element baseUrl) <> [])
  = hasContentProtection element.
Proof.
  unfold parseAdaptationSet, hasContentProtection. cbv zeta. cbn [contentProtection].
  destruct (querySelectorAll element "ContentProtection"); done.
Qed.

Lemma parsed_isDRM (doc : list Node) (baseUrl : jsstring) (m : DASHManifest) :
  parseDASHDocument doc baseUrl = Ok m ->
  mpd_isDRM m = existsb hasContentProtection (adaptationSetElements doc)
  /\ forall a, a ∈ adaptationSets m -> contentProtection a <> [] -> mpd_isDRM m = true.
Proof.
  unfold parseDASHDocument. destruct (docQuerySelector doc "MPD"); [|done].
  cbv zeta. intros [= <-]. cbn [mpd_isDRM adaptationSets]. split.
  - unfold adaptationSetElements. rewrite !existsb_flat_map.
    apply existsb_pointwise. intros period. rewrite existsb_map.
    apply existsb_pointwise. intros el. apply parsed_contentProtection.
  - intros a Ha Hcp. apply existsb_exists. exists a. split; [by apply list_elem_of_In|].
    by apply bool_decide_eq_true.
Qed.

(** The protection of a parsed DASH manifest is drm exactly when some
    adaptation set of some period holds a ContentProtection element,
    whatever its scheme, and none otherwise; it is never unknown.  A
    document without an MPD element is refused. *)
Theorem dash_protection_of_parsed_manifest (doc : list Node) (baseUrl : jsstring) :
  match parseDASHDocument doc baseUrl with
  | Ok m =>
      getDASHProtection m
      = if existsb hasContentProtection (adaptationSetElements doc) then ProtDrm
        else ProtNone
  | Throw name message =>
      docQuerySelector doc "MPD" = None
      /\ name = js "Error" /\ message = js "Invalid DASH manifest: missing MPD element"
  end.
Proof.
  destruct (parseDASHDocument doc baseUrl) as [m|name message] eqn:E.
  - destruct (parsed_isDRM doc baseUrl m E) as [Hd Hcp].
    unfold getDASHProtection. rewrite <- Hd.
    destruct (mpd_isDRM m) eqn:Em; [done|].
    destruct (existsb _ (adaptationSets m)) eqn:Ex; [|done].
    apply existsb_exists in Ex as (a & Ha & Hk).
    assert (Ht : false = true); [|done].
    apply (Hcp a); [by apply list_elem_of_In|]. intros Hn. by rewrite Hn in Hk.
  - unfold parseDASHDocument in E. destruct (docQuerySelector doc "MPD"); [done|].
    by injection E as <- <-.
Qed.
End DashProtectionProps.


(** ** The downloader: slots *)

Ltac projections :=
  cbn [downloadPath maxConcurrent ffmpegAvailable jobs activeDownloads queue
       abortControllers tasks listeners requests events] in *.

Section SlotProps.
Context {host : Host}.

Lemma size_alter {A : Type} (f : A -> A) (i : jsstring) (m : gmap jsstring A) :
  size (alter f i m) = size m.
Proof. by rewrite <- !size_dom, dom_alter_L. Qed.

Lemma Count_settle jobId d t :
  tasks d !! jobId = Some t -> Count d -> Count (settle noCallback jobId d).
Proof.
  intros Ht [H1 H2]. constructor; unfold settle, noCallback; projections.
  - rewrite map_size_delete_Some by done.
    assert (size (tasks d) <> 0)%nat by (by apply map_size_ne_0_lookup_2 with jobId).
    lia.
  - lia.
Qed.

Lemma Count_suspend jobId k d t :
  tasks d !! jobId = Some t -> Count d -> Count (suspend jobId k d).
Proof.
  intros Ht [H1 H2]. constructor; unfold suspend; projections; [|done].
  by rewrite map_size_insert_Some.
Qed.

Lemma Count_same d d' :
  Count d -> tasks d' = tasks d -> activeDownloads d' = activeDownloads d ->
  maxConcurrent d' = maxConcurrent d -> Count d'.
Proof. intros [H1 H2] E1 E2 E3. constructor; [by rewrite E1, E2|by rewrite E2, E3]. Qed.

Ltac count_keep :=
  first [ eassumption
        | eapply Count_same; [eassumption|reflexivity|reflexivity|reflexivity] ].

Lemma Count_taskThrow n m jobId d t :
  tasks d !! jobId = Some t -> Count d -> Count (taskThrow noCallback n m jobId d).
Proof.
  intros Ht HC. unfold taskThrow.
  repeat case_match; (eapply Count_settle; [exact Ht|count_keep]).
Qed.

Lemma Count_taskReturn jobId d t :
  tasks d !! jobId = Some t -> Count d -> Count (taskReturn noCallback jobId d).
Proof.
  intros Ht HC. unfold taskReturn.
  repeat case_match; (eapply Count_settle; [exact Ht|count_keep]).
Qed.

Lemma Count_hlsLoop segs i bytes jobId job d t :
  tasks d !! jobId = Some t -> Count d -> Count (hlsLoop noCallback segs i bytes jobId job d).
Proof.
  intros Ht HC. unfold hlsLoop, startMerge. cbv zeta.
  repeat case_match;
    first [ eapply Count_taskThrow; [exact Ht|count_keep]
          | eapply Count_suspend; [exact Ht|count_keep] ].
Qed.

Lemma Count_dashLoop urls i bytes jobId job d t :
  tasks d !! jobId = Some t -> Count d -> Count (dashLoop noCallback urls i bytes jobId job d).
Proof.
  intros Ht HC. unfold dashLoop, startMerge. cbv zeta.
  repeat case_match;
    first [ eapply Count_taskThrow; [exact Ht|count_keep]
          | eapply Count_suspend; [exact Ht|count_keep] ].
Qed.

Lemma Count_continueTask k payload jobId job d t :
  tasks d !! jobId = Some t -> Count d ->
  Count (continueTask noCallback k payload jobId job d).
Proof.
  intros Ht HC.
  destruct k; cbn [continueTask]; cbv zeta; repeat case_match;
    first [ eapply Count_taskThrow; [exact Ht|count_keep]
          | eapply Count_taskReturn; [exact Ht|count_keep]
          | eapply Count_hlsLoop; [exact Ht|count_keep]
          | eapply Count_dashLoop; [exact Ht|count_keep]
          | eapply Count_suspend; [exact Ht|count_keep] ].
Qed.

Lemma Count_resume jobId r d : Count d -> Count (resume noCallback jobId r d).
Proof.
  intros HC. unfold resume.
  destruct (tasks d !! jobId) as [[k a]|] eqn:Ht; [|done].
  destruct (jobs d !! jobId) as [job|]; [|done].
  destruct r; [by eapply Count_continueTask|by eapply Count_taskThrow].
Qed.

Lemma Count_qstep d d' : Inv d -> Count d -> qstep d d' -> Count d'.
Proof.
  intros HI HC Hstep. revert HI HC. destruct Hstep as [d0 jobId rest Hq Hlt].
  intros HI [H1 H2].
  assert (Hin : jobId ∈ queue d0) by (rewrite Hq; by left).
  destruct (inv_queue d0 HI jobId Hin) as ((job & Hjob & Hs) & Ht & _).
  unfold executeDownload. cbn [shiftQueue jobs]. rewrite Hjob.
  rewrite bool_decide_eq_false_2 by (by rewrite Hs). cbv zeta.
  destruct (st_type (stream job));
    unfold taskThrow, settle, noCallback, suspend, request, emit, updJob, shiftQueue;
    projections;
    repeat case_match; try congruence; constructor; projections;
    rewrite ?map_size_insert_None, ?map_size_delete_None by done; lia.
Qed.

Lemma Count_astep d d' : Inv d -> Count d -> astep d d' -> Count d'.
Proof.
  intros HI HC Hstep. revert HI HC.
  destruct Hstep as [d0 d1 Hq|d0 s q a jobId Hj|d0 jobId|d0 jobId r|d0 jobId n|d0 p];
    intros HI HC.
  - by apply (Count_qstep d0).
  - count_keep.
  - destruct HC as [H1 H2]. constructor; unfold cancelDownload; projections; [|done].
    case_bool_decide; [by rewrite size_alter|done].
  - by apply Count_resume.
  - unfold downloadProgress. case_bool_decide; [|done]. count_keep.
  - count_keep.
Qed.

Lemma Count_asteps d d' : rtc astep d d' -> Inv d -> Count d -> Count d'.
Proof.
  induction 1 as [|d1 d2 d3 H _ IH]; [done|]. intros HI HC.
  apply IH; [by apply (Inv_astep d1)|by apply (Count_astep d1)].
Qed.

Lemma reachable_Count d : reachable d -> Count d.
Proof.
  induction 1 as [path maxConc ffmpeg|d a Hr IH He].
  - constructor; unfold newDownloader; projections; [done|lia].
  - apply (Count_asteps d); [by apply perform_asteps|by apply reachable_Inv|done].
Qed.

(** In every state a downloader can reach, the count of active downloads
    is the number of download tasks that have started and not ended; it is
    never negative and never above the limit [maxConcurrent] (above zero,
    for a negative limit). *)
Theorem active_downloads_within_limit d :
  reachable d ->
  activeDownloads d = Z.of_nat (size (tasks d))
  /\ (0 <= activeDownloads d <= Z.max 0 (maxConcurrent d))%Z.
Proof.
  intros Hr. destruct (reachable_Count d Hr) as [H1 H2]. split; [done|lia].
Qed.
End SlotProps.


(** ** The downloader: jobs that are over *)

Section OverProps.
Context {host : Host}.

Lemma resume_frame jobId j r d :
  jobId <> j ->
  sameJob jobId d (resume noCallback j r d)
  /\ queue (resume noCallback j r d) = queue d
  /\ listeners (resume noCallback j r d) = listeners d.
Proof.
  intros Hne. unfold resume.
  destruct (tasks d !! j) as [[k a]|]; [|done].
  destruct (jobs d !! j) as [job|]; [|done].
  destruct r as [payload|n m].
  - destruct k; cbn [continueTask]; cbv zeta;
      unfold sameJob, hlsLoop, dashLoop, startMerge, reportSegment, taskThrow, taskReturn,
        settle, noCallback, suspend, request, emit, updJob; projections;
      repeat case_match; projections;
      rewrite ?lookup_alter_ne, ?lookup_insert_ne, ?lookup_delete_ne by done;
      rewrite ?eventsOf_emit_other, ?requestsOf_request_other by (simpl; congruence);
      rewrite ?eventsOf_emit_other by (simpl; congruence);
      done.
  - unfold sameJob, taskThrow, settle, noCallback, emit, updJob; projections.
    repeat case_match; projections;
      rewrite ?lookup_alter_ne, ?lookup_delete_ne by done;
      rewrite ?eventsOf_emit_other by (simpl; congruence);
      done.
Qed.

Lemma qstep_listeners jobId d d' :
  qstep d d' -> jobId ∉ queue d -> jobId ∉ listeners d -> jobId ∉ listeners d'.
Proof.
  intros [d0 j rest Hq Hlt] Hnq Hnl. rewrite Hq in Hnq.
  apply not_elem_of_cons in Hnq as [Hne Hnq].
  unfold executeDownload, taskThrow, settle, noCallback, suspend, request, emit, updJob,
    shiftQueue; projections.
  repeat case_match; projections; try done;
    rewrite elem_of_union, elem_of_singleton; by intros [?|?].
Qed.

(** What one elementary change leaves of a job that is over. *)
Lemma astep_over jobId d d' :
  astep d d' -> over d jobId ->
  over d' jobId
  /\ requestsOf jobId (requests d') = requestsOf jobId (requests d)
  /\ (jobId ∉ listeners d ->
        (jobId ∉ listeners d') /\ eventsOf jobId (events d') = eventsOf jobId (events d))
  /\ (statusOf d' jobId = statusOf d jobId \/ statusOf d' jobId = Some Cancelled).
Proof.
  intros Hstep (Hjob & Ht & Hnq). unfold over, statusOf.
  destruct Hstep as [d0 d1 Hq|d0 s q a j Hj|d0 j|d0 j r|d0 j n|d0 p].
  - destruct (qstep_frame jobId d0 d1 Hq Hnq) as [(E1 & E2 & E3 & E4) Hnq1].
    rewrite E1, E2, E3, E4. split_and!; try done; [|by left].
    intros Hnl. split; [by apply (qstep_listeners jobId d0 d1)|done].
  - assert (Hne : jobId <> j) by (intros ->; rewrite Hj in Hjob; by destruct Hjob).
    unfold enqueue; projections. rewrite lookup_insert_ne by done.
    split_and!; try done; [|by left].
    rewrite elem_of_app, list_elem_of_singleton. by intros [?|?].
  - unfold cancelDownload; projections. destruct (decide (jobId = j)) as [<-|Hne].
    + rewrite lookup_alter_eq. destruct Hjob as [job Hjob]. rewrite Hjob. simpl.
      split_and!; try done; [| |by right].
      * case_bool_decide; [|done]. by rewrite lookup_alter_eq, Ht.
      * by rewrite removeFirst_absent.
    + rewrite lookup_alter_ne by done. split_and!; try done; [| |by left].
      * case_bool_decide; [|done]. by rewrite lookup_alter_ne.
      * clear -Hnq. induction (queue d0) as [|x l IH]; simpl; [done|].
        apply not_elem_of_cons in Hnq as [? ?]. case_match; [done|].
        apply not_elem_of_cons. split; [done|by apply IH].
  - destruct (decide (jobId = j)) as [<-|Hne].
    + unfold resume. rewrite Ht. split_and!; try done. by left.
    + destruct (resume_frame jobId j r d0 Hne) as ((E1 & E2 & E3 & E4) & E5 & E6).
      rewrite E1, E2, E3, E4, E5, E6. split_and!; try done. by left.
  - unfold downloadProgress. case_bool_decide as Hl; [|by split_and!; try done; left].
    unfold emit, updJob; projections.
    destruct (decide (jobId = j)) as [<-|Hne].
    + rewrite lookup_alter_eq. destruct Hjob as [job Hjob]. rewrite Hjob. simpl.
      split_and!; try done. by left.
    + rewrite lookup_alter_ne by done. rewrite eventsOf_emit_other by (simpl; congruence).
      split_and!; try done. by left.
  - unfold setDownloadPath; projections. split_and!; try done. by left.
Qed.

Lemma asteps_over jobId d d' :
  rtc astep d d' -> over d jobId ->
  over d' jobId
  /\ requestsOf jobId (requests d') = requestsOf jobId (requests d)
  /\ (jobId ∉ listeners d ->
        (jobId ∉ listeners d') /\ eventsOf jobId (events d') = eventsOf jobId (events d))
  /\ (statusOf d' jobId = statusOf d jobId \/ statusOf d' jobId = Some Cancelled).
Proof.
  induction 1 as [d|d1 d2 d3 H _ IH]; intros Ho.
  - split_and!; try done. by left.
  - destruct (astep_over jobId d1 d2 H Ho) as (Ho2 & E1 & E2 & E3).
    destruct (IH Ho2) as (Ho3 & F1 & F2 & F3).
    split_and!; try done.
    + by rewrite F1.
    + intros Hnl. destruct (E2 Hnl) as [Hnl2 E]. destruct (F2 Hnl2) as [Hnl3 F].
      split; [done|]. by rewrite F.
    + destruct F3 as [F3|F3]; [|by right]. rewrite F3. done.
Qed.

Lemma run_asteps actions d : enabledRun actions d -> rtc astep d (run actions d).
Proof.
  revert d. induction actions as [|a rest IH]; intros d He; [done|].
  destruct He as [Ha He]. etrans; [by apply perform_asteps|]. by apply IH.
Qed.

(** Whatever is done to a downloader afterwards, a job that is over stays
    over: it is never queued or made a task again, nothing more is requested
    for it, its status changes only by being cancelled, and, unless it is a
    direct download whose stream still reports progress, no further event
    is emitted for it. *)
Theorem job_that_is_over_stays_over d jobId (actions : list Action) :
  over d jobId -> enabledRun actions d ->
  let d' := run actions d in
  over d' jobId
  /\ requestsOf jobId (requests d') = requestsOf jobId (requests d)
  /\ (jobId ∉ listeners d -> eventsOf jobId (events d') = eventsOf jobId (events d))
  /\ (statusOf d' jobId = statusOf d jobId \/ statusOf d' jobId = Some Cancelled).
Proof.
  intros Ho He d'. subst d'.
  destruct (asteps_over jobId d _ (run_asteps actions d He) Ho) as (H1 & H2 & H3 & H4).
  split_and!; try done. intros Hnl. by destruct (H3 Hnl).
Qed.
End OverProps.


(** ** The downloader: requests and output paths *)

Section RequestProps.
Context {host : Host}.

Lemma begun_alter (f : DownloadJob -> DownloadJob) (j : jsstring)
    (table : gmap jsstring DownloadJob) (jobId : jsstring) :
  (forall x, status x <> Pending -> status (f x) <> Pending) ->
  begunJob table jobId -> begunJob (alter f j table) jobId.
Proof.
  intros Hf (job & Hjob & Hs). destruct (decide (jobId = j)) as [->|Hne].
  - exists (f job). rewrite lookup_alter_eq, Hjob. split; [done|by apply Hf].
  - exists job. by rewrite lookup_alter_ne.
Qed.

Ltac begun_tac :=
  repeat first [ eassumption
               | apply begun_alter; [intros ? ?; first [eassumption|done]|] ].

Ltac requests_tac HR :=
  unfold requestsBegun; projections;
  try (apply Forall_app; split; [|repeat constructor; simpl; begun_tac]);
  (eapply Forall_impl; [exact HR|]; intros ? ?; simpl in *; begun_tac).

Lemma requestsBegun_resume jobId r d :
  Inv d -> requestsBegun d -> requestsBegun (resume noCallback jobId r d).
Proof.
  intros HI HR. unfold resume.
  destruct (tasks d !! jobId) as [[k a]|] eqn:Ht; [|done].
  destruct (jobs d !! jobId) as [job|] eqn:Hjob; [|done].
  assert (Hb : begunJob (jobs d) jobId).
  { destruct (inv_task d HI jobId (k, a) Ht) as ((job' & Hjob' & Hs & _) & _).
    by exists job'. }
  destruct r as [payload|n m].
  - destruct k; cbn [continueTask]; cbv zeta;
      unfold hlsLoop, dashLoop, startMerge, reportSegment, taskThrow, taskReturn,
        settle, noCallback, suspend, request, emit, updJob; projections;
      repeat case_match; requests_tac HR.
  - unfold taskThrow, settle, noCallback, emit, updJob; projections.
    repeat case_match; requests_tac HR.
Qed.

Lemma requestsBegun_qstep d d' : Inv d -> requestsBegun d -> qstep d d' -> requestsBegun d'.
Proof.
  intros HI HR Hstep. revert HI HR. destruct Hstep as [d0 jobId rest Hq Hlt].
  intros HI HR.
  assert (Hin : jobId ∈ queue d0) by (rewrite Hq; by left).
  destruct (inv_queue d0 HI jobId Hin) as ((job & Hjob & Hs) & Ht & _).
  assert (Hb : begunJob (alter (withStatus Downloading) jobId (jobs d0)) jobId).
  { exists (withStatus Downloading job). by rewrite lookup_alter_eq, Hjob. }
  unfold executeDownload. cbn [shiftQueue jobs]. rewrite Hjob.
  rewrite bool_decide_eq_false_2 by (by rewrite Hs). cbv zeta.
  destruct (st_type (stream job));
    unfold taskThrow, settle, noCallback, suspend, request, emit, updJob, shiftQueue;
    projections; repeat case_match; requests_tac HR.
Qed.

Lemma requestsBegun_astep d d' : Inv d -> requestsBegun d -> astep d d' -> requestsBegun d'.
Proof.
  intros HI HR Hstep. revert HI HR.
  destruct Hstep as [d0 d1 Hq|d0 s q a jobId Hj|d0 jobId|d0 jobId r|d0 jobId n|d0 p];
    intros HI HR.
  - by apply (requestsBegun_qstep d0).
  - unfold requestsBegun, enqueue; projections.
    eapply Forall_impl; [exact HR|]. intros r (job & Hjob & Hs). exists job.
    rewrite lookup_insert_ne; [done|]. intros E. rewrite E in Hj. congruence.
  - unfold cancelDownload. requests_tac HR.
  - by apply requestsBegun_resume.
  - unfold downloadProgress. case_bool_decide; [|done].
    unfold emit, updJob. requests_tac HR.
  - done.
Qed.

Lemma reachable_requestsBegun d : reachable d -> requestsBegun d.
Proof.
  induction 1 as [path maxConc ffmpeg|d a Hr IH He]; [constructor|].
  pose proof (reachable_Inv d Hr) as HI. pose proof (perform_asteps a d He) as Hs.
  clear Hr He. induction Hs as [|d1 d2 d3 H _ IH']; [done|].
  apply IH'; [by apply (requestsBegun_astep d1)|by apply (Inv_astep d1)].
Qed.

Lemma requestsOf_none (jobId : jsstring) (rs : list Request) :
  Forall (fun r => requestJob r <> jobId) rs -> requestsOf jobId rs = [].
Proof.
  unfold requestsOf. induction 1 as [|r rs Hr _ IH]; simpl; [done|].
  unfold jsstring_eqb at 1. by rewrite bool_decide_eq_false_2.
Qed.

Lemma pending_no_requests d jobId :
  reachable d -> statusOf d jobId = Some Pending -> requestsOf jobId (requests d) = [].
Proof.
  intros Hr Hs. apply requestsOf_none.
  eapply Forall_impl; [exact (reachable_requestsBegun d Hr)|].
  intros r (job & Hjob & Hp) <-. unfold statusOf in Hs. rewrite Hjob in Hs.
  by injection Hs.
Qed.

(** A job that is cancelled while it is pending is never downloaded:
    whatever is done afterwards, nothing is ever requested for it, no event
    is ever emitted for it, and it stays cancelled. *)
Theorem cancelled_pending_job_never_starts d jobId (actions : list Action) :
  reachable d -> statusOf d jobId = Some Pending ->
  enabledRun actions (cancelDownload jobId d) ->
  let d' := run actions (cancelDownload jobId d) in
  requestsOf jobId (requests d') = []
  /\ eventsOf jobId (events d') = []
  /\ statusOf d' jobId = Some Cancelled
  /\ tasks d' !! jobId = None.
Proof.
  intros Hr Hs He d'. subst d'.
  pose proof (reachable_Inv d Hr) as HI.
  pose proof (pending_no_requests d jobId Hr Hs) as Hreq.
  unfold statusOf in Hs. destruct (jobs d !! jobId) as [job|] eqn:Hjob; [|done].
  injection Hs as Hs.
  pose proof (inv_pending d HI jobId job Hjob Hs) as Hq.
  destruct (inv_queue d HI jobId Hq) as (_ & Ht & Hev).
  assert (Hnl : jobId ∉ listeners d).
  { intros Hl. destruct (inv_listen d HI jobId Hl) as (job' & ? & _ & ?). congruence. }
  assert (Hc : statusOf (cancelDownload jobId d) jobId = Some Cancelled).
  { unfold statusOf, cancelDownload; projections. by rewrite lookup_alter_eq, Hjob. }
  assert (Ho : over (cancelDownload jobId d) jobId).
  { unfold over, cancelDownload; projections. split_and!.
    - by rewrite lookup_alter_eq, Hjob.
    - case_bool_decide; [|done]. by rewrite lookup_alter_eq, Ht.
    - rewrite removeFirst_elem by apply (inv_nodup d HI). by intros [_ ?]. }
  destruct (asteps_over jobId _ _ (run_asteps actions _ He) Ho) as ((_ & Ht' & _) & H2 & H3 & H4).
  destruct (H3 Hnl) as [_ H5].
  split_and!; try done.
  - by rewrite H2.
  - by rewrite H5.
  - destruct H4 as [H4|H4]; [by rewrite H4|done].
Qed.
End RequestProps.


(** ** The downloader: the end of a task *)

Section EndProps.
Context {host : Host}.

Lemma qsteps_unqueued jobId d d' :
  rtc qstep d d' -> jobId ∉ queue d -> jobId ∉ queue d'.
Proof.
  induction 1 as [|d1 d2 d3 H _ IH]; [done|]. intros Hnq.
  apply IH. by destruct (qstep_frame jobId d1 d2 H Hnq).
Qed.

(** [processQueue] on a downloader with a free slot and a queued job: the
    head of the queue is executed, then more rounds follow. *)
Lemma processQueue_head d next rest :
  queue d = next :: rest -> (activeDownloads d < maxConcurrent d)%Z ->
  rtc qstep (executeDownload noCallback next (shiftQueue rest d)) (processQueue d).
Proof.
  intros Hq Hlt. unfold processQueue. rewrite Hq. cbn [length processQueue_go].
  apply Z.ltb_lt in Hlt. rewrite Hlt, Hq.
  destruct (executeDownload_callback (processQueue_go (length rest)) next (shiftQueue rest d))
    as [[(-> & _)| ->]| ->].
  - apply processQueue_go_steps.
  - etrans; apply processQueue_go_steps.
  - apply processQueue_go_steps.
Qed.

(** The catch block and the finally block of a task whose awaited
    operation was rejected. *)
Lemma thrown_task d jobId t job name message :
  Inv d -> tasks d !! jobId = Some t -> jobs d !! jobId = Some job ->
  let silent := jsstring_eqb name (js "AbortError") || bool_decide (status job = Cancelled) in
  let d' := processQueue (taskThrow noCallback name message jobId d) in
  jobs d' !! jobId
  = Some (if silent then job else withError message (withStatus Failed job))
  /\ eventsOf jobId (events d')
     = eventsOf jobId (events d) ++ (if silent then [] else [EvError jobId message])
  /\ requestsOf jobId (requests d') = requestsOf jobId (requests d)
  /\ tasks d' !! jobId = None.
Proof.
  intros HI Ht Hjob silent d'. subst d'.
  assert (Hnq : jobId ∉ queue (taskThrow noCallback name message jobId d)).
  { unfold taskThrow, settle, noCallback, emit, updJob. repeat case_match; projections;
      (apply Inv_not_queued; [done|]; left; by rewrite Ht). }
  destruct (qsteps_frame jobId _ _ (processQueue_steps _) Hnq) as (E1 & E2 & E3 & E4).
  rewrite E1, E2, E3, E4. subst silent. unfold taskThrow. rewrite Hjob.
  destruct (jsstring_eqb name (js "AbortError")); cbn [negb andb orb];
    [|destruct (bool_decide (status job = Cancelled)); cbn [negb]];
    unfold settle, noCallback, emit, updJob; projections;
    rewrite ?lookup_alter_eq, ?Hjob, ?lookup_delete_eq, ?eventsOf_emit_same, ?app_nil_r by done;
    done.
Qed.

(** The rejection of what a cancelled job awaits, and any rejection with
    an abort error, ends the task without a trace: the job's record, its
    status and error among it, is as before, no event is emitted and nothing
    is requested. *)
Theorem cancelled_job_ends_silently d jobId k aborted job name message :
  reachable d -> tasks d !! jobId = Some (k, aborted) -> jobs d !! jobId = Some job ->
  status job = Cancelled \/ name = js "AbortError" ->
  let d' := resumeTask jobId (Throw name message) d in
  jobs d' !! jobId = Some job
  /\ eventsOf jobId (events d') = eventsOf jobId (events d)
  /\ requestsOf jobId (requests d') = requestsOf jobId (requests d)
  /\ tasks d' !! jobId = None.
Proof.
  intros Hr Ht Hjob Hc d'. subst d'.
  pose proof (reachable_Inv d Hr) as HI.
  unfold resumeTask, resume. rewrite Ht, Hjob, taskThrow_callback.
  destruct (thrown_task d jobId (k, aborted) job name message HI Ht Hjob)
    as (H1 & H2 & H3 & H4).
  assert (Hs : jsstring_eqb name (js "AbortError") || bool_decide (status job = Cancelled)
               = true).
  { destruct Hc as [Hc| ->].
    - rewrite (bool_decide_eq_true_2 _ Hc). apply orb_true_r.
    - done. }
  rewrite Hs in H1, H2. rewrite app_nil_r in H2. done.
Qed.

(** When a task ends by a rejection while jobs are queued, the job at the
    head of the queue is started in its place: it leaves the queue, and an
    HLS, DASH or direct job is then downloading, a task, with its first
    request made and no other; a job of another type has failed. *)
Theorem ended_task_starts_next_job d jobId k aborted name message next rest :
  reachable d -> tasks d !! jobId = Some (k, aborted) -> queue d = next :: rest ->
  let d' := resumeTask jobId (Throw name message) d in
  (next ∉ queue d')
  /\ exists job, jobs d !! next = Some job
     /\ match st_type (stream job) with
        | TyHls | TyDash =>
            statusOf d' next = Some Downloading /\ is_Some (tasks d' !! next)
            /\ requestsOf next (requests d') = [Got next (st_url (stream job))]
        | TyDirect =>
            statusOf d' next = Some Downloading /\ is_Some (tasks d' !! next)
            /\ requestsOf next (requests d') = [GotStream next (st_url (stream job))]
        | TyYtdlp | TyUnknown =>
            statusOf d' next = Some Failed /\ tasks d' !! next = None
            /\ requestsOf next (requests d') = []
        end.
Proof.
  intros Hr Ht Hq d'. subst d'.
  pose proof (reachable_Inv d Hr) as HI.
  pose proof (reachable_Count d Hr) as [HC1 HC2].
  pose proof (reachable_requestsBegun d Hr) as HR.
  assert (Hin : next ∈ queue d) by (rewrite Hq; by left).
  destruct (inv_queue d HI next Hin) as ((job & Hjob & Hs) & Htn & _).
  assert (Hne : next <> jobId) by (intros ->; congruence).
  pose proof (inv_nodup d HI) as Hnd. rewrite Hq in Hnd.
  apply NoDup_cons in Hnd as [Hnr _].
  assert (Hreq : requestsOf next (requests d) = []).
  { apply requestsOf_none. eapply Forall_impl; [exact HR|].
    intros r (job' & Hjob' & Hp) E. rewrite E in Hjob'. congruence. }
  assert (Hsize : (size (tasks d) <> 0)%nat) by (by apply map_size_ne_0_lookup_2 with jobId).
  set (d1 := taskThrow noCallback name message jobId d).
  assert (Hd1 : queue d1 = next :: rest /\ (activeDownloads d1 < maxConcurrent d1)%Z
                /\ jobs d1 !! next = Some job /\ tasks d1 !! next = None
                /\ requests d1 = requests d).
  { destruct (inv_task d HI jobId _ Ht) as ((job0 & Hjob0 & _) & _).
    subst d1. unfold taskThrow. rewrite Hjob0. unfold settle, noCallback, emit, updJob.
    case_match; projections;
      rewrite ?lookup_alter_ne, ?lookup_delete_ne by done; split_and!; try done; lia. }
  destruct Hd1 as (Hq1 & Hlt1 & Hjob1 & Ht1 & Hr1).
  unfold resumeTask, resume.
  destruct (inv_task d HI jobId _ Ht) as ((job0 & Hjob0 & _) & _).
  rewrite Ht, Hjob0, taskThrow_callback. fold d1.
  pose proof (processQueue_head d1 next rest Hq1 Hlt1) as Hsteps.
  set (d2 := executeDownload noCallback next (shiftQueue rest d1)) in *.
  assert (Hnq2 : next ∉ queue d2).
  { subst d2. destruct (executeDownload_queue next (shiftQueue rest d1)) as [-> _]. done. }
  destruct (qsteps_frame next d2 _ Hsteps Hnq2) as (E1 & E2 & E3 & E4).
  split; [by apply (qsteps_unqueued next d2)|].
  exists job. split; [done|]. unfold statusOf. rewrite E1, E2, E4.
  subst d2. unfold executeDownload. cbn [shiftQueue jobs]. rewrite Hjob1.
  rewrite bool_decide_eq_false_2 by (by rewrite Hs). cbv zeta.
  assert (Hname : jsstring_eqb (js "Error") (js "AbortError") = false).
  { apply bool_decide_eq_false_2. intros E. vm_compute in E. discriminate. }
  destruct (st_type (stream job));
    unfold taskThrow, suspend, request, shiftQueue; projections;
    rewrite ?lookup_alter_eq, ?Hjob1, ?Hr1;
    cbn [fmap option_fmap option_map status withStatus];
    rewrite ?Hname, ?(bool_decide_eq_false_2 (Downloading = Cancelled)) by done;
    cbn [negb andb];
    unfold settle, noCallback, emit, updJob; projections;
    rewrite ?lookup_alter_eq, ?lookup_insert_eq, ?lookup_delete_eq;
    rewrite ?requestsOf_request_same, ?Hreq by done;
    rewrite ?lookup_alter_eq, ?Hjob1;
    try done.
Qed.
End EndProps.


(** ** The downloader: what a complete event carries *)

Section CompleteProps.
Context {host : Host}.

Ltac path_of_job :=
  repeat match goal with
         | H : alter _ _ _ !! _ = Some _ |- _ =>
             apply lookup_alter_Some in H as [(_ & ? & _ & ->)|[? _]]; [|done]
         end.

Ltac paths_tac HP :=
  projections; path_of_job;
  repeat (apply Forall_app; split); try exact HP;
  repeat constructor; simpl; done.

Lemma paths_resume jobId r d :
  Forall completeWithPath (events d) ->
  Forall completeWithPath (events (resume noCallback jobId r d)).
Proof.
  intros HP. unfold resume.
  destruct (tasks d !! jobId) as [[k a]|] eqn:Ht; [|done].
  destruct (jobs d !! jobId) as [job|] eqn:Hjob; [|done].
  destruct r as [payload|n m].
  - destruct k; cbn [continueTask]; cbv zeta;
      unfold hlsLoop, dashLoop, startMerge, reportSegment, taskThrow, taskReturn,
        settle, noCallback, suspend, request, emit, updJob; projections;
      repeat case_match; paths_tac HP.
  - unfold taskThrow, settle, noCallback, emit, updJob; projections.
    repeat case_match; paths_tac HP.
Qed.

Lemma paths_astep d d' :
  Forall completeWithPath (events d) -> astep d d' -> Forall completeWithPath (events d').
Proof.
  intros HP Hstep. revert HP.
  destruct Hstep as [d0 d1 Hq|d0 s q a jobId Hj|d0 jobId|d0 jobId r|d0 jobId n|d0 p];
    intros HP; try done.
  - destruct Hq as [d2 j rest Hq Hlt].
    unfold executeDownload, taskThrow, settle, noCallback, suspend, request, emit, updJob,
      shiftQueue; projections.
    repeat case_match; paths_tac HP.
  - by apply paths_resume.
  - unfold downloadProgress, emit, updJob. case_bool_decide; paths_tac HP.
Qed.

(** In every state a downloader can reach, every complete event carries
    the path of the file that was written: a job is never reported as
    complete without its output path. *)
Theorem complete_events_carry_a_path d :
  reachable d -> Forall completeWithPath (events d).
Proof.
  induction 1 as [path maxConc ffmpeg|d a Hr IH He]; [constructor|].
  pose proof (perform_asteps a d He) as Hs. clear Hr He.
  induction Hs as [|d1 d2 d3 H _ IH']; [done|].
  apply IH'. by apply (paths_astep d1).
Qed.
End CompleteProps.

(** ** The downloader: the course of a segmented download *)

Section CourseProps.
Context {host : Host}.

Lemma lastBytes_snoc start evs jobId p :
  lastBytes start (evs ++ [EvProgress jobId p]) = downloadedBytes p.
Proof. unfold lastBytes. by rewrite last_snoc. Qed.

Lemma progressRun_progress jobId total k prev evs :
  progressRun jobId total k prev evs ->
  Forall (fun e => exists p, e = EvProgress jobId p) evs.
Proof.
  revert k prev. induction evs as [|e evs IH]; intros k prev Hrun; [constructor|].
  destruct Hrun as (b & -> & _ & Hrun). constructor; [by eexists|by eapply IH].
Qed.

Lemma lastBytes_cons jobId total k prev prev' p evs :
  progressRun jobId total k prev' evs ->
  lastBytes prev (EvProgress jobId p :: evs) = lastBytes (downloadedBytes p) evs.
Proof.
  intros Hrun. unfold lastBytes. destruct evs as [|e evs]; [done|].
  rewrite last_cons_cons.
  destruct (last (e :: evs)) as [x|] eqn:E; [|by apply last_None in E].
  apply progressRun_progress in Hrun.
  apply last_Some_elem_of in E. rewrite Forall_forall in Hrun.
  by destruct (Hrun x E) as [p' ->].
Qed.

Lemma progressRun_snoc jobId total k prev evs bytes :
  progressRun jobId total k prev evs -> (lastBytes prev evs <= bytes)%Z ->
  progressRun jobId total k prev
    (evs ++ [EvProgress jobId {| downloadedBytes := bytes;
                                 currentSegment := Some (k + length evs)%nat;
                                 totalSegments := Some total |}]).
Proof.
  revert k prev. induction evs as [|e evs IH]; intros k prev Hrun Hb; cbn [app progressRun].
  - exists bytes. rewrite Nat.add_0_r. split_and!; try done.
  - destruct Hrun as (b & -> & Hp & Hrun). exists b. split; [done|]. split; [done|].
    cbn [length]. replace (k + S (length evs))%nat with (S k + length evs)%nat by lia.
    apply IH; [done|].
    by rewrite (lastBytes_cons jobId total (S k) prev b _ evs Hrun) in Hb.
Qed.

Lemma take_one {A : Type} (l : list A) (x : A) : l !! 0%nat = Some x -> take 1 l = [x].
Proof. destruct l; simpl; [done|]. intros [= ->]. by rewrite take_0. Qed.

Lemma lookup_map_Some {A B : Type} (f : A -> B) (l : list A) (i : nat) (x : A) :
  l !! i = Some x -> map f l !! i = Some (f x).
Proof.
  revert i. induction l as [|a l IH]; intros [|i]; simpl; try done.
  - by intros [= ->].
  - apply IH.
Qed.

Lemma lookup_map_None {A B : Type} (f : A -> B) (l : list A) (i : nat) :
  l !! i = None -> map f l !! i = None.
Proof.
  intros H. apply lookup_ge_None. rewrite length_map. by apply lookup_ge_None.
Qed.

Lemma urlRequests_next jobId urls i u :
  urls !! S i = Some u ->
  urlRequests jobId (take (S (S i)) urls)
  = urlRequests jobId (take (S i) urls) ++ [Got jobId u].
Proof.
  intros H. unfold urlRequests. rewrite (take_S_r _ _ _ H). by rewrite map_app.
Qed.

Lemma loopCourse_first jobId before urls u :
  urls !! 0%nat = Some u ->
  loopCourse jobId before urls 0 0 (before ++ [Got jobId u]) [].
Proof.
  intros H. unfold loopCourse. rewrite (take_one _ _ H). split_and!; try done.
  by apply lookup_lt_Some in H.
Qed.

Lemma loopCourse_next jobId before urls i bytes len u reqs evs :
  urls !! S i = Some u ->
  loopCourse jobId before urls i bytes reqs evs ->
  loopCourse jobId before urls (S i) (bytes + Z.of_nat len) (reqs ++ [Got jobId u])
    (evs ++ [EvProgress jobId {| downloadedBytes := bytes + Z.of_nat len;
                                 currentSegment := Some (S i);
                                 totalSegments := Some (length urls) |}]).
Proof.
  intros H (-> & Hi & Hlen & Hrun & Hlast). unfold loopCourse. split_and!.
  - by rewrite (urlRequests_next _ _ _ _ H), app_assoc.
  - by apply lookup_lt_Some in H.
  - rewrite length_app. simpl. lia.
  - replace (S i) with (1 + length evs)%nat at 1 by lia.
    apply progressRun_snoc; [done|]. rewrite Hlast. lia.
  - apply lastBytes_snoc.
Qed.

Lemma doneCourse_last jobId before urls i bytes len reqs evs :
  urls !! S i = None ->
  loopCourse jobId before urls i bytes reqs evs ->
  doneCourse jobId before urls reqs
    (evs ++ [EvProgress jobId {| downloadedBytes := bytes + Z.of_nat len;
                                 currentSegment := Some (S i);
                                 totalSegments := Some (length urls) |}]).
Proof.
  intros H (-> & Hi & Hlen & Hrun & Hlast). apply lookup_ge_None in H.
  unfold doneCourse. split_and!.
  - by rewrite take_ge by lia.
  - rewrite length_app. simpl. lia.
  - replace (S i) with (1 + length evs)%nat at 1 by lia.
    apply progressRun_snoc; [done|]. rewrite Hlast. lia.
Qed.

(** *** The steps of an HLS task *)

Lemma hlsCourse_first jobId url segs segs' segment reqs evs :
  segs !! 0%nat = Some segment ->
  hlsCourse jobId url (HlsMkdir segs') reqs evs ->
  hlsCourse jobId url (HlsSegment segs 0 0) (reqs ++ [Got jobId (s_uri segment)]) evs.
Proof.
  intros H [[v ->] ->]. exists v.
  by apply loopCourse_first, lookup_map_Some.
Qed.

Lemma hlsCourse_next jobId url segs i bytes len segment reqs evs :
  segs !! S i = Some segment ->
  hlsCourse jobId url (HlsWrite segs i bytes len) reqs evs ->
  hlsCourse jobId url (HlsSegment segs (S i) (bytes + Z.of_nat len))
    (reqs ++ [Got jobId (s_uri segment)])
    (evs ++ [EvProgress jobId {| downloadedBytes := bytes + Z.of_nat len;
                                 currentSegment := Some (S i);
                                 totalSegments := Some (length segs) |}]).
Proof.
  intros H [v HL]. exists v.
  pose proof (loopCourse_next jobId _ _ i bytes len _ reqs evs
                (lookup_map_Some s_uri _ _ _ H) HL) as HN.
  by rewrite length_map in HN.
Qed.

Lemma mergeCourse_none jobId url (segs segs' : list HLSMediaSegment) reqs evs :
  segs !! 0%nat = None ->
  hlsCourse jobId url (HlsMkdir segs') reqs evs ->
  mergeCourse jobId url reqs evs.
Proof. intros _ [[v ->] ->]. by exists v, []. Qed.

Lemma mergeCourse_last jobId url segs i bytes len reqs evs :
  segs !! S i = None ->
  hlsCourse jobId url (HlsWrite segs i bytes len) reqs evs ->
  mergeCourse jobId url reqs
    (evs ++ [EvProgress jobId {| downloadedBytes := bytes + Z.of_nat len;
                                 currentSegment := Some (S i);
                                 totalSegments := Some (length segs) |}]).
Proof.
  intros H [v HL]. exists v, segs.
  pose proof (doneCourse_last jobId _ _ i bytes len reqs evs
                (lookup_map_None s_uri _ _ H) HL) as HN.
  by rewrite length_map in HN.
Qed.

(** *** What the frame of a job leaves alone *)

Lemma jobShape_same ty course jobId d d' :
  sameJob jobId d d' -> jobShape ty course d jobId -> jobShape ty course d' jobId.
Proof.
  intros (E1 & E2 & E3 & E4) H job k a. rewrite E1, E2, E3, E4. apply H.
Qed.

(** The course of a job depends on its stream, its task, its requests and
    its events only. *)
Lemma jobShape_ext ty course jobId d d' :
  (forall job', jobs d' !! jobId = Some job' ->
     exists job, jobs d !! jobId = Some job /\ stream job' = stream job) ->
  (forall k a, tasks d' !! jobId = Some (k, a) -> exists a0, tasks d !! jobId = Some (k, a0)) ->
  requestsOf jobId (requests d') = requestsOf jobId (requests d) ->
  eventsOf jobId (events d') = eventsOf jobId (events d) ->
  jobShape ty course d jobId -> jobShape ty course d' jobId.
Proof.
  intros Hj Ht Hr He HS job' k a Hjob' Hty' Ht'.
  destruct (Hj job' Hjob') as (job & Hjob & Es). destruct (Ht k a Ht') as [a0 Ht0].
  rewrite Hr, He, Es in *. by eapply HS.
Qed.

Lemma executeDownload_frame jobId j rest d :
  jobId <> j -> sameJob jobId d (executeDownload noCallback j (shiftQueue rest d)).
Proof.
  intros Hne.
  unfold sameJob, executeDownload, taskThrow, settle, noCallback, suspend, request, emit,
    updJob, shiftQueue; projections.
  repeat case_match; projections;
    rewrite ?lookup_alter_ne, ?lookup_insert_ne, ?lookup_delete_ne by done;
    rewrite ?eventsOf_emit_other, ?requestsOf_request_other by (simpl; congruence);
    done.
Qed.

Lemma jobShape_enqueue ty course jobId d s quality audio j :
  Inv d -> jobs d !! j = None -> jobShape ty course d jobId ->
  jobShape ty course (enqueue s quality audio j d) jobId.
Proof.
  intros HI Hj HS. destruct (decide (jobId = j)) as [->|Hne].
  - intros job' k a _ _ Ht'. cbn [enqueue tasks] in Ht'.
    destruct (inv_task d HI j (k, a) Ht') as ((job & Hjob & _) & _). congruence.
  - eapply jobShape_same; [|done]. unfold sameJob, enqueue; projections.
    by rewrite lookup_insert_ne.
Qed.

Lemma jobShape_cancel ty course jobId d j :
  jobShape ty course d jobId -> jobShape ty course (cancelDownload j d) jobId.
Proof.
  apply jobShape_ext; unfold cancelDownload; projections; try done.
  - intros job' Hjob'.
    apply lookup_alter_Some in Hjob' as [(_ & job & Hjob & ->)|[_ Hjob]]; by eexists.
  - intros k a Ht'. case_bool_decide; [|by eexists].
    apply lookup_alter_Some in Ht' as [(_ & [k0 a0] & Ht & E)|[_ Ht]]; [|by eexists].
    injection E as -> ->. by eexists.
Qed.

Lemma jobShape_progress ty course jobId d j n :
  ty <> TyDirect -> Inv d -> jobShape ty course d jobId ->
  jobShape ty course (downloadProgress j n d) jobId.
Proof.
  intros Hty HI HS. unfold downloadProgress. case_bool_decide as Hl; [|done].
  destruct (inv_listen d HI j Hl) as (job0 & Hjob0 & Hty0 & _).
  destruct (decide (jobId = j)) as [->|Hne].
  - intros job' k a. unfold emit, updJob; projections. intros Hjob' Hty' _.
    rewrite lookup_alter_eq, Hjob0 in Hjob'. injection Hjob' as <-.
    simpl in Hty'. congruence.
  - eapply jobShape_same; [|done]. unfold sameJob, emit, updJob; projections.
    rewrite lookup_alter_ne by done. by rewrite eventsOf_emit_other by (simpl; congruence).
Qed.
End CourseProps.


(** ** The downloader: the course is kept by every step *)

Ltac task_of_job :=
  match goal with
  | H : <[_ := _]> _ !! _ = Some _ |- _ => rewrite lookup_insert_eq in H; injection H as <- <-
  | H : delete _ _ !! _ = Some _ |- _ => by rewrite lookup_delete_eq in H
  end.

Section CourseSteps.
Context {host : Host}.

Ltac stream_of_job :=
  repeat match goal with
         | H : alter _ _ _ !! _ = Some _ |- _ =>
             apply lookup_alter_Some in H as [(_ & ? & ? & ->)|[? ?]]
         | H : <[_ := _]> _ !! _ = Some _ |- _ =>
             apply lookup_insert_Some in H as [[? <-]|[? ?]]
         end.

Lemma resume_stream jobId j r d job job' :
  jobs d !! jobId = Some job -> jobs (resume noCallback j r d) !! jobId = Some job' ->
  stream job' = stream job.
Proof.
  intros Hjob. unfold resume.
  destruct (tasks d !! j) as [[k a]|]; [|congruence].
  destruct (jobs d !! j) as [job0|]; [|congruence].
  destruct r as [payload|n m].
  - destruct k; cbn [continueTask]; cbv zeta;
      unfold hlsLoop, dashLoop, startMerge, reportSegment, taskThrow, taskReturn,
        settle, noCallback, suspend, request, emit, updJob; projections;
      repeat case_match; projections; intros Hlook; stream_of_job; simplify_eq; done.
  - unfold taskThrow, settle, noCallback, emit, updJob; projections.
    repeat case_match; projections; intros Hlook; stream_of_job; simplify_eq; done.
Qed.

(** The state of a task after its job has been resumed, case by case. *)
Ltac resumed_cases Ht' :=
  cbn [continueTask]; cbv zeta;
  unfold hlsLoop, dashLoop, startMerge, reportSegment, taskThrow, taskReturn,
    settle, noCallback, suspend, request, emit, updJob; projections;
  repeat case_match; projections; intros Ht'; try task_of_job;
  try exact I; try discriminate;
  rewrite ?requestsOf_request_same, ?eventsOf_emit_same by done.

Lemma hlsShape_resume_self jobId r d :
  hlsShape d jobId -> hlsShape (resume noCallback jobId r d) jobId.
Proof.
  intros HS job' k' a' Hjob' Hty' Ht'.
  destruct (tasks d !! jobId) as [[k a]|] eqn:Ht;
    [|unfold resume in *; rewrite Ht in *; by eapply HS].
  destruct (jobs d !! jobId) as [job|] eqn:Hjob;
    [|unfold resume in *; rewrite Ht, Hjob in *; congruence].
  pose proof (resume_stream jobId jobId r d job job' Hjob Hjob') as Es.
  rewrite Es in *. specialize (HS job k a Hjob Hty' Ht). clear Hjob'.
  revert Ht'. unfold resume. rewrite Ht, Hjob.
  destruct r as [payload|n m].
  - destruct k; resumed_cases Ht';
      first [ exact HS
            | by eapply hlsCourse_first
            | by eapply hlsCourse_next
            | by eapply mergeCourse_none
            | by eapply mergeCourse_last
            | cbn [hlsCourse] in *; destruct HS as [-> ->]; split; [by eexists|done]
            | cbn [hlsCourse] in *; destruct HS as [-> ->]; done ].
  - unfold taskThrow, settle, noCallback, emit, updJob; projections.
    repeat case_match; projections; intros Ht'; task_of_job.
Qed.

Lemma parseDASHManifest_undefined content baseUrl :
  DOMParser_parse = None ->
  parseDASHManifest content baseUrl
  = Throw (js "ReferenceError") (js "DOMParser is not defined").
Proof. intros E. unfold parseDASHManifest. by rewrite E. Qed.

Lemma dashShape_resume_self jobId r d :
  DOMParser_parse = None ->
  dashShape d jobId -> dashShape (resume noCallback jobId r d) jobId.
Proof.
  intros Hno HS job' k' a' Hjob' Hty' Ht'.
  destruct (tasks d !! jobId) as [[k a]|] eqn:Ht;
    [|unfold resume in *; rewrite Ht in *; by eapply HS].
  destruct (jobs d !! jobId) as [job|] eqn:Hjob;
    [|unfold resume in *; rewrite Ht, Hjob in *; congruence].
  pose proof (resume_stream jobId jobId r d job job' Hjob Hjob') as Es.
  rewrite Es in *. destruct (HS job k a Hjob Hty' Ht) as (-> & _ & _). clear Hjob'.
  exfalso. revert Ht'. unfold resume. rewrite Ht, Hjob.
  destruct r as [payload|n m]; cbn [continueTask];
    rewrite ?(parseDASHManifest_undefined _ _ Hno);
    unfold taskThrow, settle, noCallback, emit, updJob; projections;
    repeat case_match; projections; intros Ht'; task_of_job.
Qed.
End CourseSteps.

Section ShapeSteps.
Context {host : Host}.
Variable ty : StreamType.
Variable course : jsstring -> jsstring -> Task -> list Request -> list Event -> Prop.
Hypothesis segmented : ty = TyHls \/ ty = TyDash.
Hypothesis course_hls :
  ty = TyHls -> forall jobId url, course jobId url HlsManifest [Got jobId url] [].
Hypothesis course_dash :
  ty = TyDash -> forall jobId url, course jobId url DashManifest [Got jobId url] [].
Hypothesis course_resume : forall jobId r d,
  jobShape ty course d jobId -> jobShape ty course (resume noCallback jobId r d) jobId.

Lemma jobShape_qstep jobId d d' :
  Inv d -> requestsBegun d -> jobShape ty course d jobId -> qstep d d' ->
  jobShape ty course d' jobId.
Proof.
  intros HI HR HS Hstep. revert HI HR HS. destruct Hstep as [d0 j rest Hq Hlt].
  intros HI HR HS.
  destruct (decide (jobId = j)) as [->|Hne];
    [|by eapply jobShape_same; [apply executeDownload_frame|]].
  assert (Hin : j ∈ queue d0) by (rewrite Hq; by left).
  destruct (inv_queue d0 HI j Hin) as ((job & Hjob & Hs) & Ht & Hev).
  assert (Hreq : requestsOf j (requests d0) = []).
  { apply requestsOf_none. eapply Forall_impl; [exact HR|].
    intros r (job' & Hjob' & Hp) <-. congruence. }
  intros job' k a. unfold executeDownload. cbn [shiftQueue jobs]. rewrite Hjob.
  rewrite bool_decide_eq_false_2 by (by rewrite Hs). cbv zeta.
  destruct (st_type (stream job)) eqn:Hty;
    unfold taskThrow, settle, noCallback, suspend, request, emit, updJob, shiftQueue;
    projections; repeat case_match; projections;
    intros Hjob' Hty' Ht'; try task_of_job; try discriminate.
  all: rewrite lookup_alter_eq, Hjob in Hjob'; injection Hjob' as <-.
  all: cbn [withStatus stream] in *.
  all: rewrite ?requestsOf_request_same, Hreq, Hev by done.
  - apply course_hls. congruence.
  - apply course_dash. congruence.
  - destruct segmented; congruence.
Qed.

Lemma jobShape_astep d d' :
  Inv d -> requestsBegun d -> (forall jobId, jobShape ty course d jobId) -> astep d d' ->
  forall jobId, jobShape ty course d' jobId.
Proof.
  intros HI HR HS Hstep jobId. specialize (HS jobId). revert HI HR HS.
  destruct Hstep as [d0 d1 Hq|d0 s q a j Hj|d0 j|d0 j r|d0 j n|d0 p]; intros HI HR HS.
  - by apply (jobShape_qstep jobId d0).
  - by apply jobShape_enqueue.
  - by apply jobShape_cancel.
  - destruct (decide (jobId = j)) as [->|Hne]; [by apply course_resume|].
    eapply jobShape_same; [|done]. by apply resume_frame.
  - apply jobShape_progress; [|done..]. destruct segmented; congruence.
  - done.
Qed.

Lemma reachable_jobShape d : reachable d -> forall jobId, jobShape ty course d jobId.
Proof.
  induction 1 as [path maxConc ffmpeg|d a Hr IH He]; [by intros jobId job k a|].
  pose proof (reachable_Inv d Hr) as HI.
  pose proof (reachable_requestsBegun d Hr) as HR.
  pose proof (perform_asteps a d He) as Hs. clear Hr He.
  induction Hs as [|d1 d2 d3 H _ IH']; [done|].
  apply IH'.
  - by apply (jobShape_astep d1).
  - by apply (Inv_astep d1).
  - by apply (requestsBegun_astep d1).
Qed.
End ShapeSteps.

Section Courses.
Context {host : Host}.

Lemma reachable_hlsShape d jobId : reachable d -> hlsShape d jobId.
Proof.
  intros Hr. apply (reachable_jobShape TyHls hlsCourse); try done.
  - by left.
  - apply hlsShape_resume_self.
Qed.

Lemma reachable_dashShape d jobId :
  DOMParser_parse = None -> reachable d -> dashShape d jobId.
Proof.
  intros Hno Hr. apply (reachable_jobShape TyDash dashCourse); try done.
  - by right.
  - intros j r d0. by apply dashShape_resume_self.
Qed.

(** While an HLS job waits for the segment at index [i] of the list its
    task took from the playlist, what has been requested for it is its
    manifest, one playlist and the segments at indexes 0 to [i] of that list,
    each once and in order; and what has been emitted for it is one progress
    event for each of the [i] segments before, numbered from 1 out of the
    length of the list, with byte counts that never decrease and end at the
    count the task holds. *)
Theorem hls_segments_are_requested_in_order d jobId job segs i bytes aborted :
  reachable d -> jobs d !! jobId = Some job -> st_type (stream job) = TyHls ->
  tasks d !! jobId = Some (HlsSegment segs i bytes, aborted) ->
  (exists v, requestsOf jobId (requests d)
             = [Got jobId (st_url (stream job)); Got jobId v]
               ++ segmentRequests jobId (take (S i) segs))
  /\ (i < length segs)%nat
  /\ length (eventsOf jobId (events d)) = i
  /\ progressRun jobId (length segs) 1 0 (eventsOf jobId (events d))
  /\ lastBytes 0 (eventsOf jobId (events d)) = bytes.
Proof.
  intros Hr Hjob Hty Ht.
  destruct (reachable_hlsShape d jobId Hr job _ _ Hjob Hty Ht)
    as (v & Hreq & Hi & Hlen & Hrun & Hlast).
  rewrite length_map in Hi, Hrun. split_and!; try done.
  exists v. rewrite Hreq. unfold segmentRequests. by rewrite <- firstn_map.
Qed.

(** While the merge of an HLS job is awaited (by the encoder or by
    concatenation), what has been requested for it is its manifest, one
    playlist and then segments only, and what has been emitted for it is one
    progress event for each segment requested, numbered from 1 to their
    number, and nothing else: no segment is left half-way and nothing has
    been reported as complete or failed. *)
Theorem hls_merge_follows_all_segments d jobId job out aborted :
  reachable d -> jobs d !! jobId = Some job -> st_type (stream job) = TyHls ->
  tasks d !! jobId = Some (HlsMerge out, aborted)
  \/ tasks d !! jobId = Some (HlsConcat out, aborted) ->
  exists v segs,
    requestsOf jobId (requests d)
    = [Got jobId (st_url (stream job)); Got jobId v] ++ segmentRequests jobId segs
    /\ length (eventsOf jobId (events d)) = length segs
    /\ progressRun jobId (length segs) 1 0 (eventsOf jobId (events d)).
Proof.
  intros Hr Hjob Hty [Ht|Ht];
    destruct (reachable_hlsShape d jobId Hr job _ _ Hjob Hty Ht)
      as (v & segs & Hreq & Hlen & Hrun);
    rewrite length_map in Hlen, Hrun; by exists v, segs.
Qed.

(** Where there is no [DOMParser], as in Node, no DASH download gets
    beyond its manifest.  In every state a downloader can reach, a DASH job
    that is a task waits for its manifest, which is all that has been
    requested for it, and nothing has been emitted for it; and whatever the
    manifest holds, when it arrives the job (unless it was cancelled) fails
    with the message of the reference error: one error event, no segment
    requested, the task over. *)
Theorem dash_job_fails_without_DOMParser d jobId job k aborted :
  DOMParser_parse = None ->
  reachable d -> jobs d !! jobId = Some job -> st_type (stream job) = TyDash ->
  tasks d !! jobId = Some (k, aborted) ->
  k = DashManifest
  /\ requestsOf jobId (requests d) = [Got jobId (st_url (stream job))]
  /\ eventsOf jobId (events d) = []
  /\ forall payload, status job <> Cancelled ->
       let d' := resumeTask jobId (Ok payload) d in
       jobs d' !! jobId
       = Some (withError (js "DOMParser is not defined") (withStatus Failed job))
       /\ eventsOf jobId (events d') = [EvError jobId (js "DOMParser is not defined")]
       /\ requestsOf jobId (requests d') = [Got jobId (st_url (stream job))]
       /\ tasks d' !! jobId = None.
Proof.
  intros Hno Hr Hjob Hty Ht.
  destruct (reachable_dashShape d jobId Hno Hr job k aborted Hjob Hty Ht) as (-> & Hreq & Hev).
  split_and!; try done.
  intros payload Hs d'. subst d'.
  pose proof (reachable_Inv d Hr) as HI.
  unfold resumeTask, resume. rewrite Ht, Hjob. cbn [continueTask].
  rewrite (parseDASHManifest_undefined _ _ Hno), taskThrow_callback.
  destruct (thrown_task d jobId _ job (js "ReferenceError") (js "DOMParser is not defined")
              HI Ht Hjob) as (H1 & H2 & H3 & H4).
  rewrite (bool_decide_eq_false_2 _ Hs) in H1, H2.
  rewrite Hev in H2. rewrite Hreq in H3. done.
Qed.

End Courses.

(** ** Instances of the properties above *)

Lemma frames_are_delivered_in_order_witness :
  let bodies := [pingBody; ping0Body] in
  let chunks := [take 7 (frameOf pingBody); drop 7 (frameOf pingBody) ++ frameOf ping0Body] in
  let h' := fold_left (handleData (fun _ => false)) chunks idleHost in
  handled h' = [pingMessage]
  /\ reported h' = 1%nat
  /\ running h' = true
  /\ buffer h' = [].
Proof.
  intros bodies chunks.
  assert (Hf : Forall fitsPrefix bodies) by (repeat constructor).
  assert (Hc : concat chunks = concat (map frameOf bodies)) by (vm_compute; reflexivity).
  pose proof (frames_are_delivered_in_order (fun _ => false) idleHost bodies chunks
                eq_refl Hf Hc) as (H1 & H2 & H3 & H4).
  split_and!.
  - rewrite H1. vm_compute. reflexivity.
  - rewrite H2. vm_compute. reflexivity.
  - exact H3.
  - exact H4.
Defined.

Lemma chunking_is_irrelevant_witness :
  fold_left (handleData (fun _ => false))
    [take 2 (frameOf pingBody); drop 2 (frameOf pingBody)] idleHost
  = fold_left (handleData (fun _ => false)) [frameOf pingBody] idleHost.
Proof.
  apply (chunking_is_irrelevant (fun _ => false) idleHost).
  - exact I.
  - vm_compute. reflexivity.
Defined.

Lemma split_frame_is_reassembled_witness :
  let part1 := take 7 (frameOf pingBody) in
  let part2 := drop 7 (frameOf pingBody) in
  handleData (fun _ => false) idleHost part1 = withBuffer part1 idleHost
  /\ handleData (fun _ => false) (handleData (fun _ => false) idleHost part1) part2
     = afterFrame (fun _ => false) pingBody idleHost [].
Proof.
  intros part1 part2.
  apply (split_frame_is_reassembled (fun _ => false) idleHost pingBody part1 part2).
  - reflexivity.
  - reflexivity.
  - vm_compute. reflexivity.
  - vm_compute. discriminate.
Defined.

Lemma sanitizeFilename_keeps_clean_names_witness :
  sanitizeFilename (js "My clip (1080p).mp4") = js "My clip (1080p).mp4".
Proof.
  apply sanitizeFilename_keeps_clean_names.
  - vm_compute. lia.
  - repeat constructor.
  - vm_compute. intuition discriminate.
  - reflexivity.
  - reflexivity.
Defined.

Lemma parseAttributes_reads_rendered_witness :
  let l := [(js "BANDWIDTH", Bare (js "1280000"));
            (js "CODECS", Quoted (js "avc1.4d401f,mp4a.40.2"));
            (js "RESOLUTION", Bare (js "1280x720"))] in
  parseAttributes (renderAttrs l) = assignAttrs l ∅.
Proof.
  intros l. apply parseAttributes_reads_rendered.
  repeat constructor; simpl; try discriminate.
Defined.

Lemma variants_sorted_when_numeric_witness :
  exists m,
    parseHLSManifest (host := plainHost) masterWithTwoVariants (js "http://cdn/master.m3u8")
    = Ok (Master m)
    /\ map v_bandwidth (variants m) = [Num 2000; Num 1000]
    /\ descendingBy v_bandwidth (variants m).
Proof.
  destruct (parseHLSManifest (host := plainHost) masterWithTwoVariants
              (js "http://cdn/master.m3u8")) as [[m|p]|n e] eqn:E;
    try (vm_compute in E; discriminate).
  assert (Hb : map v_bandwidth (variants m) = [Num 2000; Num 1000]).
  { vm_compute in E. injection E as <-. reflexivity. }
  exists m. split; [reflexivity|]. split; [exact Hb|].
  apply (variants_sorted_when_numeric (host := plainHost) masterWithTwoVariants
           (js "http://cdn/master.m3u8") m E).
  assert (Hn : Forall numeric (map v_bandwidth (variants m))).
  { rewrite Hb. repeat constructor; discriminate. }
  by rewrite Forall_map in Hn.
Defined.

Lemma representations_sorted_when_numeric_witness :
  let a := parseAdaptationSet (host := plainHost) adaptationWithTwoBandwidths [] in
  map r_bandwidth (representations a) = [Num 2000; Num 1000]
  /\ descendingBy r_bandwidth (representations a).
Proof.
  intros a. split; [vm_compute; reflexivity|].
  assert (Hn : Forall (fun r => numeric (r_bandwidth r)) (representations a)).
  { vm_compute. repeat constructor; discriminate. }
  exact (representations_sorted_when_numeric (host := plainHost)
           adaptationWithTwoBandwidths [] Hn).
Defined.

Lemma atDashManifest_reachable : reachable (host := plainHost) atDashManifest.
Proof. apply run_reachable; [apply reachable_new|]. vm_compute. tauto. Qed.

Lemma active_downloads_within_limit_witness :
  activeDownloads secondPending = Z.of_nat (size (tasks secondPending))
  /\ (0 <= activeDownloads secondPending <= Z.max 0 (maxConcurrent secondPending))%Z.
Proof.
  exact (active_downloads_within_limit (host := plainHost) secondPending
           secondPending_reachable).
Defined.

Lemma job_that_is_over_stays_over_witness :
  let d' := run (host := plainHost)
              [AStart clearStream hd720 None (js "job2");
               AResume (js "job1") (Ok twoSegments); ACancel (js "job1")] cancelledJob in
  over d' (js "job1")
  /\ requestsOf (js "job1") (requests d') = requestsOf (js "job1") (requests cancelledJob)
  /\ (js "job1" ∉ listeners cancelledJob ->
      eventsOf (js "job1") (events d') = eventsOf (js "job1") (events cancelledJob))
  /\ (statusOf d' (js "job1") = statusOf cancelledJob (js "job1")
      \/ statusOf d' (js "job1") = Some Cancelled).
Proof.
  apply (job_that_is_over_stays_over (host := plainHost)).
  - split_and!; [by eexists|reflexivity|vm_compute; apply not_elem_of_nil].
  - vm_compute. tauto.
Defined.

Lemma cancelled_pending_job_never_starts_witness :
  let d' := run (host := plainHost)
              [AResume (js "job1") (Throw (js "RequestError") (js "socket hang up"))]
              (cancelDownload (js "job2") secondPending) in
  requestsOf (js "job2") (requests d') = []
  /\ eventsOf (js "job2") (events d') = []
  /\ statusOf d' (js "job2") = Some Cancelled
  /\ tasks d' !! js "job2" = None.
Proof.
  apply (cancelled_pending_job_never_starts (host := plainHost)).
  - apply secondPending_reachable.
  - vm_compute. reflexivity.
  - vm_compute. tauto.
Defined.

Lemma cancelled_job_ends_silently_witness :
  let d := cancelDownload (js "job1") atSecondSegment in
  let d' := resumeTask (host := plainHost) (js "job1")
              (Throw (js "AbortError") (js "This operation was aborted")) d in
  statusOf d' (js "job1") = Some Cancelled
  /\ eventsOf (js "job1") (events d') = eventsOf (js "job1") (events atSecondSegment)
  /\ length (requestsOf (js "job1") (requests d')) = 4%nat
  /\ tasks d' !! js "job1" = None.
Proof.
  intros d.
  assert (Hr : reachable (host := plainHost) d).
  { apply (reachable_step atSecondSegment (ACancel (js "job1")));
      [apply atSecondSegment_reachable|exact I]. }
  destruct (tasks d !! js "job1") as [[k a]|] eqn:Ht; [|vm_compute in Ht; discriminate].
  destruct (jobs d !! js "job1") as [job|] eqn:Hjob; [|vm_compute in Hjob; discriminate].
  assert (Hs : status job = Cancelled).
  { vm_compute in Hjob. injection Hjob as <-. reflexivity. }
  destruct (cancelled_job_ends_silently (host := plainHost) d (js "job1") k a job
              (js "AbortError") (js "This operation was aborted") Hr Ht Hjob (or_introl Hs))
    as (H1 & H2 & H3 & H4).
  split_and!.
  - unfold statusOf. rewrite H1. simpl. by rewrite Hs.
  - rewrite H2. reflexivity.
  - rewrite H3. vm_compute. reflexivity.
  - exact H4.
Defined.

Lemma ended_task_starts_next_job_witness :
  let d' := resumeTask (host := plainHost) (js "job1")
              (Throw (js "RequestError") (js "socket hang up")) secondPending in
  (js "job2" ∉ queue d')
  /\ statusOf d' (js "job2") = Some Downloading
  /\ is_Some (tasks d' !! js "job2")
  /\ requestsOf (js "job2") (requests d') = [Got (js "job2") (js "http://cdn/media.m3u8")].
Proof.
  destruct (tasks secondPending !! js "job1") as [[k a]|] eqn:Ht;
    [|vm_compute in Ht; discriminate].
  assert (Hq : queue secondPending = [js "job2"]) by (vm_compute; reflexivity).
  destruct (ended_task_starts_next_job (host := plainHost) secondPending (js "job1") k a
              (js "RequestError") (js "socket hang up") (js "job2") []
              secondPending_reachable Ht Hq) as (H1 & job & Hjob & H2).
  assert (Ej : stream job = clearStream).
  { vm_compute in Hjob. injection Hjob as <-. reflexivity. }
  rewrite Ej in H2. simpl in H2. destruct H2 as (H2 & H3 & H4).
  split_and!; done.
Defined.

Lemma complete_events_carry_a_path_witness :
  Forall completeWithPath (events completedJob)
  /\ last (events completedJob) = Some (EvComplete (js "job1") (Some (js "/downloads/clip.mp4"))).
Proof.
  split; [|vm_compute; reflexivity].
  exact (complete_events_carry_a_path (host := plainHost) completedJob completedJob_reachable).
Defined.

Lemma hls_segments_are_requested_in_order_witness :
  requestsOf (js "job1") (requests atSecondSegment)
  = [Got (js "job1") (js "http://cdn/media.m3u8"); Got (js "job1") (js "http://cdn/media.m3u8");
     Got (js "job1") (js "http://cdn/s0.ts"); Got (js "job1") (js "http://cdn/s1.ts")]
  /\ length (eventsOf (js "job1") (events atSecondSegment)) = 1%nat
  /\ progressRun (js "job1") 2 1 0 (eventsOf (js "job1") (events atSecondSegment))
  /\ lastBytes 0 (eventsOf (js "job1") (events atSecondSegment)) = 4%Z.
Proof.
  destruct (tasks atSecondSegment !! js "job1") as [[k a]|] eqn:Ht;
    [|vm_compute in Ht; discriminate].
  destruct k as [| | |segs i bytes| | | | | | | | | | | | | |];
    try (vm_compute in Ht; discriminate).
  destruct (jobs atSecondSegment !! js "job1") as [job|] eqn:Hjob;
    [|vm_compute in Hjob; discriminate].
  assert (Ej : stream job = clearStream).
  { vm_compute in Hjob. injection Hjob as <-. reflexivity. }
  assert (Hty : st_type (stream job) = TyHls) by (by rewrite Ej).
  destruct (hls_segments_are_requested_in_order (host := plainHost) atSecondSegment
              (js "job1") job segs i bytes a atSecondSegment_reachable Hjob Hty Ht)
    as (_ & H2 & H3 & H4 & H5).
  vm_compute in Ht. injection Ht as <- <- <- _.
  split_and!; [vm_compute; reflexivity|exact H3|exact H4|exact H5].
Defined.

Lemma hls_merge_follows_all_segments_witness :
  exists v segs,
    requestsOf (js "job1") (requests atMerge)
    = [Got (js "job1") (js "http://cdn/media.m3u8"); Got (js "job1") v]
      ++ segmentRequests (js "job1") segs
    /\ length (eventsOf (js "job1") (events atMerge)) = length segs
    /\ progressRun (js "job1") (length segs) 1 0 (eventsOf (js "job1") (events atMerge)).
Proof.
  destruct (tasks atMerge !! js "job1") as [[k a]|] eqn:Ht;
    [|vm_compute in Ht; discriminate].
  destruct k as [| | | | |out| | | | | | | | | | | |];
    try (vm_compute in Ht; discriminate).
  destruct (jobs atMerge !! js "job1") as [job|] eqn:Hjob;
    [|vm_compute in Hjob; discriminate].
  assert (Ej : stream job = clearStream).
  { vm_compute in Hjob. injection Hjob as <-. reflexivity. }
  assert (Hty : st_type (stream job) = TyHls) by (by rewrite Ej).
  pose proof (hls_merge_follows_all_segments (host := plainHost) atMerge (js "job1") job out a
                atMerge_reachable Hjob Hty (or_introl Ht)) as H.
  by rewrite Ej in H.
Defined.

Lemma dash_job_fails_without_DOMParser_witness :
  let d' := resumeTask (host := plainHost) (js "job1")
              (Ok (js "<MPD><Period></Period></MPD>")) atDashManifest in
  requestsOf (js "job1") (requests atDashManifest)
  = [Got (js "job1") (js "http://cdn/manifest.mpd")]
  /\ eventsOf (js "job1") (events atDashManifest) = []
  /\ statusOf d' (js "job1") = Some Failed
  /\ eventsOf (js "job1") (events d') = [EvError (js "job1") (js "DOMParser is not defined")]
  /\ requestsOf (js "job1") (requests d') = [Got (js "job1") (js "http://cdn/manifest.mpd")]
  /\ tasks d' !! js "job1" = None.
Proof.
  destruct (tasks atDashManifest !! js "job1") as [[k a]|] eqn:Ht;
    [|vm_compute in Ht; discriminate].
  destruct (jobs atDashManifest !! js "job1") as [job|] eqn:Hjob;
    [|vm_compute in Hjob; discriminate].
  assert (Ej : stream job = dashStream).
  { vm_compute in Hjob. injection Hjob as <-. reflexivity. }
  assert (Hty : st_type (stream job) = TyDash) by (by rewrite Ej).
  assert (Hs : status job <> Cancelled).
  { vm_compute in Hjob. injection Hjob as <-. discriminate. }
  destruct (dash_job_fails_without_DOMParser (host := plainHost) atDashManifest (js "job1")
              job k a eq_refl atDashManifest_reachable Hjob Hty Ht)
    as (-> & H1 & H2 & H3).
  destruct (H3 (js "<MPD><Period></Period></MPD>") Hs) as (H4 & H5 & H6 & H7).
  rewrite Ej in H1, H6.
  split_and!; [exact H1|exact H2| |exact H5|exact H6|exact H7].
  unfold statusOf. rewrite H4. reflexivity.
Defined.


